(** * jedi: operator evaluation, compiled-object filters and stub conversion

    A shallow embedding of

      - [jedi/evaluate/precedence.py]  (module [Precedence] below),
      - [jedi/evaluate/compiled/context.py], the part around
        [CompiledObject] and [CompiledObjectFilter]  (module [Compiled]),
      - [jedi/evaluate/gradual/conversion.py]  (module [Conversion]),

    together with the properties the specification states about them.

    [precedence.py] is written against the [CompiledObject] that carries
    its native value in the attribute [obj] and is built by [create];
    [compiled/context.py] is written against the [CompiledObject] that
    carries an access handle.  The two files are embedded as they are, each
    in its own module. *)

From Stdlib Require Import ZArith Floats.SpecFloat.
From stdpp Require Import base option list countable gmap strings.

Local Open Scope Z_scope.

(** * Exceptions and results *)

(** The Python exceptions the embedded code can raise. *)
Inductive exn :=
| TypeError
| OverflowError
| AttributeError
| IndexError
| AssertionError.

(** The outcome of a Python expression: a value, or a raised exception. *)
Inductive result (A : Type) :=
| Ok (a : A)
| Raise (e : exn).
Arguments Ok {A} a.
Arguments Raise {A} e.

Definition result_bind {A B} (r : result A) (f : A → result B) : result B :=
  match r with
  | Ok a => f a
  | Raise e => Raise e
  end.

#[global] Instance result_mbind : MBind result := λ A B f r, result_bind r f.
#[global] Instance result_mret : MRet result := λ A a, Ok a.

(** * Native Python values *)

Module Native.

(** The native objects a [CompiledObject] wraps in this development: the
    literal kinds ([int], [bool], [float], [str]) and [None].  A [float] is
    an IEEE 754 binary64 number. *)
Inductive pyobj :=
| PyInt (z : Z)
| PyBool (b : bool)
| PyFloat (f : spec_float)
| PyStr (s : string)
| PyNone.

Definition prec64 : Z := 53.
Definition emax64 : Z := 1024.

(** A number is an integer or a float; [bool] is a subclass of [int]. *)
Inductive number :=
| NInt (z : Z)
| NFloat (f : spec_float).

Definition as_number (o : pyobj) : option number :=
  match o with
  | PyInt z => Some (NInt z)
  | PyBool b => Some (NInt (Z.b2z b))
  | PyFloat f => Some (NFloat f)
  | PyStr _ | PyNone => None
  end.

(** [isinstance(o, (int, float))] *)
Definition isinstance_int_float (o : pyobj) : bool :=
  match o with
  | PyInt _ | PyBool _ | PyFloat _ => true
  | PyStr _ | PyNone => false
  end.

(** [isinstance(o, (str, unicode))] *)
Definition isinstance_str (o : pyobj) : bool :=
  match o with
  | PyStr _ => true
  | _ => false
  end.

(** [type(o).__name__] *)
Definition type_name (o : pyobj) : string :=
  match o with
  | PyInt _ => "int"
  | PyBool _ => "bool"
  | PyFloat _ => "float"
  | PyStr _ => "str"
  | PyNone => "NoneType"
  end.

(** [float(z)]: round to nearest even; an integer beyond the range of
    binary64 raises [OverflowError]. *)
Definition float_of_int (z : Z) : result spec_float :=
  match binary_normalize prec64 emax64 z 0 false with
  | S754_infinity _ => Raise OverflowError
  | f => Ok f
  end.

Definition to_float (n : number) : result spec_float :=
  match n with
  | NInt z => float_of_int z
  | NFloat f => Ok f
  end.

(** [a + b] *)
Definition py_add (a b : pyobj) : result pyobj :=
  match a, b with
  | PyStr s, PyStr t => Ok (PyStr (s +:+ t))
  | _, _ =>
      match as_number a, as_number b with
      | Some (NInt x), Some (NInt y) => Ok (PyInt (x + y))
      | Some x, Some y =>
          result_bind (to_float x) (λ f,
          result_bind (to_float y) (λ g,
          Ok (PyFloat (SFadd prec64 emax64 f g))))
      | _, _ => Raise TypeError
      end
  end.

(** [a - b] *)
Definition py_sub (a b : pyobj) : result pyobj :=
  match as_number a, as_number b with
  | Some (NInt x), Some (NInt y) => Ok (PyInt (x - y))
  | Some x, Some y =>
      result_bind (to_float x) (λ f,
      result_bind (to_float y) (λ g,
      Ok (PyFloat (SFsub prec64 emax64 f g))))
  | _, _ => Raise TypeError
  end.

(** [-a] *)
Definition py_neg (a : pyobj) : result pyobj :=
  match as_number a with
  | Some (NInt x) => Ok (PyInt (- x))
  | Some (NFloat f) => Ok (PyFloat (SFopp f))
  | None => Raise TypeError
  end.

(** [bool(a)] *)
Definition py_truth (a : pyobj) : bool :=
  match a with
  | PyInt z => negb (z =? 0)
  | PyBool b => b
  | PyFloat f => negb (SFeqb f (S754_zero false))
  | PyStr s => negb (String.eqb s "")
  | PyNone => false
  end.

(** Exact comparison of an integer with a float, as Python does it: no
    conversion of the integer takes place.  [None] when the float is a
    NaN. *)
Definition compare_int_float (z : Z) (f : spec_float) : option comparison :=
  match f with
  | S754_nan => None
  | S754_infinity s => Some (if s then Gt else Lt)
  | S754_zero _ => Some (z ?= 0)
  | S754_finite s m e =>
      let v := cond_Zopp s (Z.pos m) in
      Some (if 0 <=? e then z ?= v * 2 ^ e else z * 2 ^ (- e) ?= v)
  end.

Definition compare_number (x y : number) : option comparison :=
  match x, y with
  | NInt a, NInt b => Some (a ?= b)
  | NFloat f, NFloat g => SFcompare f g
  | NInt a, NFloat g => compare_int_float a g
  | NFloat f, NInt b => CompOpp <$> compare_int_float b f
  end.

(** The ordering of two native values, where Python 3 defines one: between
    two numbers and between two strings.  [None] at the first level says
    that the operand kinds are not ordered ([TypeError]); [Some None] that
    the operands are unordered numbers (a NaN is involved). *)
Definition py_compare (a b : pyobj) : option (option comparison) :=
  match a, b with
  | PyStr s, PyStr t => Some (Some (String.compare s t))
  | _, _ =>
      match as_number a, as_number b with
      | Some x, Some y => Some (compare_number x y)
      | _, _ => None
      end
  end.

(** [a == b] *)
Definition py_eq (a b : pyobj) : bool :=
  match a, b with
  | PyNone, PyNone => true
  | _, _ =>
      match py_compare a b with
      | Some (Some Eq) => true
      | _ => false
      end
  end.

(** The functions of the [operator] module that [COMPARISON_OPERATORS]
    maps to. *)
Inductive op :=
| op_eq | op_ne | op_is | op_is_not | op_lt | op_le | op_gt | op_ge.

Definition holds (o : op) (c : option comparison) : bool :=
  match o, c with
  | op_lt, Some Lt => true
  | op_le, Some (Lt | Eq) => true
  | op_gt, Some Gt => true
  | op_ge, Some (Gt | Eq) => true
  | _, _ => false
  end.

(** [operation(a, b)] on two native values.  [is_] is the object identity
    of the running interpreter, which the values alone do not determine. *)
Definition py_operation (is_ : pyobj → pyobj → bool) (o : op) (a b : pyobj)
  : result bool :=
  match o with
  | op_eq => Ok (py_eq a b)
  | op_ne => Ok (negb (py_eq a b))
  | op_is => Ok (is_ a b)
  | op_is_not => Ok (negb (is_ a b))
  | op_lt | op_le | op_gt | op_ge =>
      match py_compare a b with
      | Some c => Ok (holds o c)
      | None => Raise TypeError
      end
  end.

#[global] Instance spec_float_eq_dec : EqDecision spec_float.
Proof. solve_decision. Defined.

#[global] Instance spec_float_countable : Countable spec_float.
Proof.
  refine (inj_countable'
    (λ f, match f with
          | S754_zero s => inl (inl s)
          | S754_infinity s => inl (inr s)
          | S754_nan => inr (inl ())
          | S754_finite s m e => inr (inr (s, m, e))
          end)
    (λ t, match t with
          | inl (inl s) => S754_zero s
          | inl (inr s) => S754_infinity s
          | inr (inl _) => S754_nan
          | inr (inr (s, m, e)) => S754_finite s m e
          end) _).
  by intros [].
Defined.

#[global] Instance pyobj_eq_dec : EqDecision pyobj.
Proof. solve_decision. Defined.

#[global] Instance pyobj_countable : Countable pyobj.
Proof.
  refine (inj_countable'
    (λ o, match o with
          | PyInt z => inl (inl z)
          | PyBool b => inl (inr b)
          | PyFloat f => inr (inl f)
          | PyStr s => inr (inr (Some s))
          | PyNone => inr (inr None)
          end)
    (λ t, match t with
          | inl (inl z) => PyInt z
          | inl (inr b) => PyBool b
          | inr (inl f) => PyFloat f
          | inr (inr (Some s)) => PyStr s
          | inr (inr None) => PyNone
          end) _).
  by intros [].
Defined.

#[global] Instance op_eq_dec : EqDecision op.
Proof. solve_decision. Defined.

End Native.

(** * [jedi/evaluate/precedence.py] *)

Module Precedence.
Import Native.

(** Modelled from the spec: the context classes that [precedence.py] tells
    apart ([jedi.evaluate.compiled], [iterable] and [instance]) are missing
    from the sources.  A context is one of
      - a [CompiledObject] wrapping the native value [obj] (a literal when
        that value is a number or a string);
      - an [iterable.AbstractSequence] with its [array_type];
      - an [iterable.MergedArray], the merged-sequence marker built from
        two sequences, itself an [AbstractSequence];
      - an [instance.CompiledInstance] of the class named [cls];
      - any other context.
    Contexts are compared by identity: the [node] of a context that is not
    determined by its content stands for that identity. *)
Inductive Context :=
| CompiledObject (obj : pyobj)
| AbstractSequence (array_type : string) (node : nat)
| MergedArray (left right : Context)
| CompiledInstance (cls : string) (node : nat)
| TreeContext (node : nat).

#[global] Instance Context_eq_dec : EqDecision Context.
Proof. solve_decision. Defined.

#[global] Instance Context_countable : Countable Context.
Proof.
  set (enc := fix go (c : Context) :=
    match c with
    | CompiledObject o => GenLeaf (inl o)
    | AbstractSequence t n => GenLeaf (inr (inl (t, n)))
    | MergedArray l r => GenNode 0 [go l; go r]
    | CompiledInstance k n => GenLeaf (inr (inr (inl (k, n))))
    | TreeContext n => GenLeaf (inr (inr (inr n)))
    end).
  set (dec := fix go t :=
    match t with
    | GenLeaf (inl o) => CompiledObject o
    | GenLeaf (inr (inl (t, n))) => AbstractSequence t n
    | GenNode 0 [l; r] => MergedArray (go l) (go r)
    | GenLeaf (inr (inr (inl (k, n)))) => CompiledInstance k n
    | GenLeaf (inr (inr (inr n))) => TreeContext n
    | _ => TreeContext 0%nat
    end).
  refine (inj_countable' enc dec _).
  intros c; induction c; simpl; by f_equal.
Defined.

(** [ContextSet]: a set of contexts.  [ContextSet(a, b)] is [{[a; b]}]. *)
Abbreviation ContextSet := (gset Context).
Definition NO_CONTEXTS : ContextSet := ∅.

(** [bool(s)] of a [ContextSet]; [s or NO_CONTEXTS]. *)
Definition truthy (s : ContextSet) : bool := negb (bool_decide (s = ∅)).
Definition or_NO_CONTEXTS (s : ContextSet) : ContextSet :=
  if truthy s then s else NO_CONTEXTS.

(** Modelled from the spec: [jedi.evaluate.analysis], with [analysis.add],
    is missing from the sources.  [analysis.add] reports a diagnosable
    static issue to the side-channel diagnostics sink: one issue per call,
    built from the call's arguments. *)
Record Issue := {
  issue_context : Context;
  issue_name : string;
  issue_node : string;
  issue_message : string * Context * Context;
}.

(** A computation returns a value or raises, and emits diagnostics on the
    way; the diagnostics emitted before an exception stay emitted. *)
Definition M (A : Type) : Type := result A * list Issue.

Definition ret {A} (a : A) : M A := (Ok a, []).
Definition lift {A} (r : result A) : M A := (r, []).
Definition bind {A B} (m : M A) (f : A → M B) : M B :=
  match m with
  | (Ok a, w) => let '(r, w') := f a in (r, w ++ w')
  | (Raise e, w) => (Raise e, w)
  end.

Definition seq {A B} (m : M A) (k : M B) : M B := bind m (λ _, k).

Notation "'let!' x := m 'in' k" := (bind m (λ x, k))
  (at level 10, x name, m at level 100, k at level 200, only parsing).

Definition analysis_add (context : Context) (name node : string)
    (message : string * Context * Context) : M unit :=
  (Ok (), [{| issue_context := context; issue_name := name;
              issue_node := node; issue_message := message |}]).

(** The session and the interpreter it runs in: what the code receives
    through its [evaluator] argument and what Python itself supplies.
      - [iter s] is the order in which [for typ in s] visits the set [s];
      - [is_] is the object identity of native values;
      - [builtin_from_name] and [execute_evaluated] instantiate a builtin
        class (both are missing from the sources);
      - [py__bool__] is the truth value of a context, [None] when it is
        not known. *)
Record Evaluator := {
  iter : ContextSet → list Context;
  iter_NoDup : ∀ s, NoDup (iter s);
  iter_elem_of : ∀ s x, x ∈ iter s ↔ x ∈ s;
  is_ : pyobj → pyobj → bool;
  builtin_from_name : string → Context;
  execute_evaluated : Context → ContextSet;
  py__bool__ : Context → option bool;
}.

(** Modelled from the spec: [create] of [jedi.evaluate.compiled] is missing
    from the sources.  [create(evaluator, v)] is the compiled context of
    the native value [v]; the compiled-object cache makes it one node per
    value. *)
Definition create (evaluator : Evaluator) (v : pyobj) : Context :=
  CompiledObject v.

(** [ContextSet.from_sets]: the union of the sets a generator produces,
    taken one after the other. *)
Fixpoint from_sets (sets : list (M ContextSet)) : M ContextSet :=
  match sets with
  | [] => ret ∅
  | m :: rest =>
      let! s := m in
      let! t := from_sets rest in
      ret (s ∪ t)
  end.

(** [COMPARISON_OPERATORS]: maps Python syntax to the operator module. *)
Definition COMPARISON_OPERATORS : gmap string op :=
  list_to_map [
    ("==", op_eq);
    ("!=", op_ne);
    ("is", op_is);
    ("is not", op_is_not);
    ("<", op_lt);
    ("<=", op_le);
    (">", op_gt);
    (">=", op_ge)
  ].

(** [obj.obj]: an attribute of [CompiledObject] only. *)
Definition obj_of (c : Context) : result pyobj :=
  match c with
  | CompiledObject o => Ok o
  | _ => Raise AttributeError
  end.

Definition _is_number (c : Context) : bool :=
  match c with
  | CompiledObject o => isinstance_int_float o
  | _ => false
  end.

Definition is_string (c : Context) : bool :=
  match c with
  | CompiledObject o => isinstance_str o
  | _ => false
  end.

Definition is_literal (c : Context) : bool :=
  _is_number c || is_string c.

(** [isinstance(obj, iterable.AbstractSequence)] *)
Definition isinstance_AbstractSequence (c : Context) : bool :=
  match c with
  | AbstractSequence _ _ | MergedArray _ _ => true
  | _ => false
  end.

(** [obj.array_type]; a merged array has the type of its last array. *)
Fixpoint array_type_of (c : Context) : option string :=
  match c with
  | AbstractSequence t _ => Some t
  | MergedArray _ r => array_type_of r
  | _ => None
  end.

Definition _is_tuple (c : Context) : bool :=
  isinstance_AbstractSequence c && bool_decide (array_type_of c = Some "tuple").

Definition _is_list (c : Context) : bool :=
  isinstance_AbstractSequence c && bool_decide (array_type_of c = Some "list").

(** [typ.name.string_name]: the class name of a compiled object or of an
    instance.  Every literal is a compiled object and has one. *)
Definition name_string_name (c : Context) : option string :=
  match c with
  | CompiledObject o => Some (type_name o)
  | CompiledInstance k _ => Some k
  | _ => None
  end.

(** The inner function [check] of [_element_calculate]: a Jedi object that
    is either a float or an int. *)
Definition check (c : Context) : bool :=
  match c with
  | CompiledInstance k _ => bool_decide (k = "int") || bool_decide (k = "float")
  | _ => false
  end.

(** [operation(left, right)] on two contexts that are not both compiled:
    the context classes define no comparison, so equality is identity and
    ordering raises [TypeError]. *)
Definition context_operation (o : op) (l r : Context) : result bool :=
  match o with
  | op_eq | op_is => Ok (bool_decide (l = r))
  | op_ne | op_is_not => Ok (negb (bool_decide (l = r)))
  | op_lt | op_le | op_gt | op_ge => Raise TypeError
  end.

Definition message : string :=
  "TypeError: unsupported operand type(s) for +: %s and %s".

Definition literals_to_types (evaluator : Evaluator) (result : ContextSet)
  : ContextSet :=
  foldl (λ new_result typ,
           if is_literal typ then
             let cls := builtin_from_name evaluator
                          (default "" (name_string_name typ)) in
             new_result ∪ execute_evaluated evaluator cls
           else new_result ∪ {[typ]})
        NO_CONTEXTS (iter evaluator result).

Definition _element_calculate (evaluator : Evaluator) (context left : Context)
    (operator : string) (right : Context) : M ContextSet :=
  let l_is_num := _is_number left in
  let r_is_num := _is_number right in
  (* the code after the [if]/[elif] chain *)
  let static_analysis : M ContextSet :=
    seq (if (bool_decide (operator = "+") || bool_decide (operator = "-"))
              && negb (eqb l_is_num r_is_num)
              && negb (check left || check right)
         then analysis_add context "type-error-operation" operator
                (message, left, right)
         else ret ())
        (ret {[left; right]}) in
  if decide (operator = "*") then
    if isinstance_AbstractSequence left || is_string left then
      ret {[left]}
    else if isinstance_AbstractSequence right || is_string right then
      ret {[right]}
    else static_analysis
  else if decide (operator = "+") then
    if l_is_num && r_is_num || is_string left && is_string right then
      let! a := lift (obj_of left) in
      let! b := lift (obj_of right) in
      let! v := lift (py_add a b) in
      ret {[create evaluator v]}
    else if _is_tuple left && _is_tuple right
            || _is_list left && _is_list right then
      ret {[MergedArray left right]}
    else static_analysis
  else if decide (operator = "-") then
    if l_is_num && r_is_num then
      let! a := lift (obj_of left) in
      let! b := lift (obj_of right) in
      let! v := lift (py_sub a b) in
      ret {[create evaluator v]}
    else static_analysis
  else if decide (operator = "%") then
    ret {[left]}
  else
    match COMPARISON_OPERATORS !! operator with
    | Some operation =>
        let outcome :=
          match left, right with
          | CompiledObject a, CompiledObject b =>
              py_operation (is_ evaluator) operation a b
          | _, _ => context_operation operation left right
          end in
        match outcome with
        | Raise TypeError =>
            ret {[create evaluator (PyBool true);
                  create evaluator (PyBool false)]}
        | Raise e => lift (Raise e)
        | Ok result => ret {[create evaluator (PyBool result)]}
        end
    | None =>
        if decide (operator = "in") then ret NO_CONTEXTS
        else static_analysis
    end.

Definition calculate (evaluator : Evaluator) (context : Context)
    (left_contexts : ContextSet) (operator : string)
    (right_contexts : ContextSet) : M ContextSet :=
  if negb (truthy left_contexts) || negb (truthy right_contexts) then
    let result := or_NO_CONTEXTS left_contexts ∪ or_NO_CONTEXTS right_contexts in
    ret (literals_to_types evaluator result)
  else if (6 <? size left_contexts * size right_contexts)%nat then
    ret (literals_to_types evaluator (left_contexts ∪ right_contexts))
  else
    from_sets (
      left ← iter evaluator left_contexts;
      right ← iter evaluator right_contexts;
      [_element_calculate evaluator context left operator right]).

(** The generator body of [factor_calculate], run over the operands in the
    order the loop visits them: the contexts it yields.  A [return] ends
    the generator. *)
Fixpoint factor_calculate_gen (evaluator : Evaluator) (types : list Context)
    (operator : string) : result (list Context) :=
  match types with
  | [] => Ok []
  | typ :: rest =>
      if decide (operator = "-") then
        if _is_number typ then
          o ← obj_of typ;
          v ← py_neg o;
          ys ← factor_calculate_gen evaluator rest operator;
          Ok (create evaluator v :: ys)
        else factor_calculate_gen evaluator rest operator
      else if decide (operator = "not") then
        match py__bool__ evaluator typ with
        | None => Ok []
        | Some value =>
            ys ← factor_calculate_gen evaluator rest operator;
            Ok (create evaluator (PyBool (negb value)) :: ys)
        end
      else
        ys ← factor_calculate_gen evaluator rest operator;
        Ok (typ :: ys)
  end.

(** [factor_calculate], with its decorator [iterator_to_context_set]. *)
Definition factor_calculate (evaluator : Evaluator) (types : ContextSet)
    (operator : string) : result ContextSet :=
  ys ← factor_calculate_gen evaluator (iter evaluator types) operator;
  Ok (list_to_set ys).

(** A session to run the definitions in: sets are visited in the order of
    [elements], identity of native values is equality, the instance of the
    builtin class [k] is one [CompiledInstance], and the truth value of a
    compiled object is that of its native value. *)
Definition example_evaluator : Evaluator := {|
  iter := elements;
  iter_NoDup := NoDup_elements;
  iter_elem_of := λ s x, elem_of_elements s x;
  is_ := λ a b, bool_decide (a = b);
  builtin_from_name := λ k, CompiledInstance k 0;
  execute_evaluated := λ c, {[c]};
  py__bool__ := λ c, match c with
                     | CompiledObject o => Some (py_truth o)
                     | _ => None
                     end;
|}.

(** The same session, visiting every set in the opposite order. *)
Definition reversed_evaluator : Evaluator.
Proof.
  refine {|
    iter := λ s, reverse (elements s);
    is_ := is_ example_evaluator;
    builtin_from_name := builtin_from_name example_evaluator;
    execute_evaluated := execute_evaluated example_evaluator;
    py__bool__ := py__bool__ example_evaluator;
  |}.
  - intros s. rewrite reverse_Permutation. apply NoDup_elements.
  - intros s x. rewrite elem_of_reverse. apply elem_of_elements.
Defined.

(** ** The vocabulary of the specification *)

(** Literal widening of one context, in the words of the specification: a
    literal becomes the instances of its builtin class, any other context
    stays. *)
Definition widen (evaluator : Evaluator) (typ : Context) : ContextSet :=
  if is_literal typ then
    execute_evaluated evaluator
      (builtin_from_name evaluator (default "" (name_string_name typ)))
  else {[typ]}.

(** The pairwise rules of the specification, in its order: does one of
    them settle the pair? *)
Definition rule_applies (left : Context) (operator : string) (right : Context)
  : bool :=
  if decide (operator = "*") then
    isinstance_AbstractSequence left || is_string left
    || isinstance_AbstractSequence right || is_string right
  else if decide (operator = "+") then
    _is_number left && _is_number right || is_string left && is_string right
    || _is_tuple left && _is_tuple right || _is_list left && _is_list right
  else if decide (operator = "-") then
    _is_number left && _is_number right
  else
    bool_decide (operator = "%")
    || bool_decide (is_Some (COMPARISON_OPERATORS !! operator))
    || bool_decide (operator = "in").

(** The condition under which the static analysis reports a pair. *)
Definition reported (left : Context) (operator : string) (right : Context)
  : bool :=
  (bool_decide (operator = "+") || bool_decide (operator = "-"))
  && negb (eqb (_is_number left) (_is_number right))
  && negb (check left || check right).

Definition type_error_operation (context left : Context) (operator : string)
    (right : Context) : Issue :=
  {| issue_context := context; issue_name := "type-error-operation";
     issue_node := operator; issue_message := (message, left, right) |}.

Definition lit (v : pyobj) : Context := CompiledObject v.

(** Three operands on each side, the product of the sizes being 9. *)
Definition three_operands : ContextSet :=
  {[lit (PyInt 3); lit (PyStr "a"); TreeContext 1]}.

End Precedence.

(** * [jedi/evaluate/compiled/context.py] *)

Module Compiled.

(** The runtime-reflection handle provider.  An access handle is an opaque
    reference to a live object; the methods below are what a handle
    answers.  The provider is missing from the sources; its answers are
    taken as they come.
      - [access_is_allowed_getattr h name] is the pair
        [(has_attribute, is_descriptor)];
      - [access_getattr_paths h name] is [None] when the call raises
        [AttributeError], and [access_none_paths] is what the call returns
        for the object [None] (the [default=None] of [_create_from_name]);
      - [access_py__class__ h] is the list [accesses] of the access path of
        the class. *)
Class Reflection (access : Type) := {
  access_is_allowed_getattr : access → string → bool * bool;
  access_dir : access → list string;
  access_getattr_paths : access → string → option (list access);
  access_none_paths : list access;
  access_py__class__ : access → list (string * access);
  access_get_qualified_names : access → option (list string);
  access_is_class : access → bool;
  access_is_instance : access → bool;
  access_py__bool__ : access → option bool;
}.

Section Compiled.
Context {access : Type} `{Countable access} `{!Reflection access}.

(** [CompiledObject(evaluator, access_handle, parent_context=None)];
    [create_cached_compiled_object] memoizes the constructor, so that a
    compiled object is determined by its arguments.  Every parent that this
    file passes to the constructor is a compiled object or [None]. *)
#[local] Unset Elimination Schemes.
Inductive CompiledObject := create_cached_compiled_object {
  access_handle : access;
  parent_context : option CompiledObject;
}.
#[local] Set Elimination Schemes.

Fixpoint handles (c : CompiledObject) : list access :=
  access_handle c ::
    match parent_context c with
    | None => []
    | Some p => handles p
    end.

Fixpoint of_handles (h : access) (l : list access) : CompiledObject :=
  match l with
  | [] => create_cached_compiled_object h None
  | h' :: l' => create_cached_compiled_object h (Some (of_handles h' l'))
  end.

Lemma of_handles_handles (c : CompiledObject) :
  match handles c with
  | [] => False
  | h :: l => of_handles h l = c
  end.
Proof.
  revert c. fix IH 1. intros [h [p|]]; simpl; [|done].
  specialize (IH p). destruct (handles p) as [|h' l]; [done|].
  simpl. by rewrite IH.
Qed.

#[global] Instance handles_inj : Inj (=) (=) handles.
Proof.
  intros c d Heq. pose proof (of_handles_handles c) as Hc.
  pose proof (of_handles_handles d) as Hd. rewrite Heq in Hc.
  destruct (handles d); [done|]. congruence.
Qed.

#[global] Instance CompiledObject_eq_dec : EqDecision CompiledObject.
Proof.
  intros c d. destruct (decide (handles c = handles d)) as [Heq|Hne].
  - left. by apply (inj handles).
  - right. congruence.
Defined.

#[global] Instance CompiledObject_countable : Countable CompiledObject.
Proof.
  refine (inj_countable handles
            (λ l, match l with [] => None | h :: l' => Some (of_handles h l') end)
            _).
  intros c. pose proof (of_handles_handles c) as Hc.
  destruct (handles c); [done|]. by rewrite Hc.
Defined.

(** Methods of [CompiledObject]. *)
Definition get_qualified_names (self : CompiledObject) : option (list string) :=
  access_get_qualified_names (access_handle self).

Definition py__bool__ (self : CompiledObject) : option bool :=
  access_py__bool__ (access_handle self).

Definition is_class (self : CompiledObject) : bool :=
  access_is_class (access_handle self).

Definition is_compiled (self : CompiledObject) : bool := true.

Definition is_stub (self : CompiledObject) : bool := false.

Definition is_instance (self : CompiledObject) : bool :=
  access_is_instance (access_handle self).

(** [create_from_access_path]; the result is Python's [None] when the path
    has no access. *)
Definition create_from_access_path (accesses : list (string * access))
  : option CompiledObject :=
  foldl (λ parent_context '(name, access),
           Some (create_cached_compiled_object access parent_context))
        None accesses.

(** [py__class__], behind its decorator [CheckAttribute]: the attribute
    [__class__] is looked up first, and its absence raises. *)
Definition py__class__ (self : CompiledObject)
  : result (option CompiledObject) :=
  match access_getattr_paths (access_handle self) "__class__" with
  | None => Raise AttributeError
  | Some _ =>
      Ok (create_from_access_path (access_py__class__ (access_handle self)))
  end.

(** The names a [CompiledObjectFilter] returns: a [CompiledName], or the
    marker [EmptyCompiledName] that infers to nothing (its parent context
    is the builtins module of the evaluator). *)
Inductive Name :=
| CompiledName (parent_context : CompiledObject) (string_name : string)
| EmptyCompiledName (string_name : string).

#[global] Instance Name_eq_dec : EqDecision Name.
Proof. solve_decision. Defined.

Definition _create_from_name (compiled_object : CompiledObject) (name : string)
  : option CompiledObject :=
  let access_paths :=
    default access_none_paths
      (access_getattr_paths (access_handle compiled_object) name) in
  let parent_context :=
    if is_class compiled_object then parent_context compiled_object
    else Some compiled_object in
  foldl (λ context access_path,
           Some (create_cached_compiled_object access_path context))
        None access_paths.

(** [infer]: a set of contexts; the member [None] is Python's [None], which
    [_create_from_name] returns when it is given no access path. *)
Definition infer (self : Name) : gset (option CompiledObject) :=
  match self with
  | CompiledName parent_context string_name =>
      {[ _create_from_name parent_context string_name ]}
  | EmptyCompiledName _ => ∅
  end.

Record CompiledObjectFilter := {
  _compiled_object : CompiledObject;
  filter_is_instance : bool;
}.

(** [force_unicode] leaves a text string as it is. *)
Definition force_unicode (name : string) : string := name.

(** [name_class] is [CompiledName]. *)
Definition _create_name (self : CompiledObjectFilter) (name : string) : Name :=
  CompiledName (_compiled_object self) name.

Definition _get_cached_name (self : CompiledObjectFilter) (name : string)
    (is_empty : bool) : Name :=
  if is_empty then EmptyCompiledName name
  else _create_name self name.

Definition _get (self : CompiledObjectFilter) (name : string)
    (allowed_getattr_callback : unit → bool * bool)
    (dir_callback : unit → list string)
    (check_has_attribute : bool) : list Name :=
  let '(has_attribute, is_descriptor) := allowed_getattr_callback () in
  if check_has_attribute && negb has_attribute then []
  else
    let name := force_unicode name in
    if is_descriptor || negb has_attribute then
      [_get_cached_name self name true]
    else if filter_is_instance self
            && negb (bool_decide (name ∈ dir_callback ())) then []
    else [_get_cached_name self name false].

Definition get (self : CompiledObjectFilter) (name : string) : list Name :=
  _get self name
    (λ _, access_is_allowed_getattr (access_handle (_compiled_object self)) name)
    (λ _, access_dir (access_handle (_compiled_object self)))
    true.

End Compiled.

Arguments CompiledObject access : clear implicits.
Arguments Name access : clear implicits.
Arguments CompiledObjectFilter access : clear implicits.

(** A runtime to run the definitions in: handles are strings, and the one
    object ["obj"] has a plain attribute ["real"], a descriptor ["prop"]
    and nothing else. *)
#[global] Instance example_reflection : Reflection string := {|
  access_is_allowed_getattr := λ h name,
    if bool_decide (h = "obj") then
      if bool_decide (name = "real") then (true, false)
      else if bool_decide (name = "prop") then (true, true)
      else (false, false)
    else (false, false);
  access_dir := λ h, if bool_decide (h = "obj") then ["real"; "prop"] else [];
  access_getattr_paths := λ h name,
    if bool_decide (h = "obj") && bool_decide (name = "real")
    then Some ["builtins"; "int"] else None;
  access_none_paths := ["builtins"; "None"];
  access_py__class__ := λ h, [("builtins", "builtins"); ("type", "type")];
  access_get_qualified_names := λ h, Some [h];
  access_is_class := λ h, bool_decide (h = "type");
  access_is_instance := λ h, bool_decide (h = "obj");
  access_py__bool__ := λ h, None;
|}.

Definition example_filter : CompiledObjectFilter string :=
  {| _compiled_object := create_cached_compiled_object "obj" None;
     filter_is_instance := false |}.

End Compiled.

(** * [jedi/evaluate/gradual/conversion.py] *)

Module Conversion.
Import Compiled.

Section Conversion.
Context {access : Type} `{Countable access} `{!Reflection access}.
Context {foreign : Type} `{Countable foreign}.
Context {NameDefinition : Type}.

(** A context is a [CompiledObject] or a context of one of the classes that
    are missing from the sources (tree, stub, instance and function
    contexts). *)
Inductive Context :=
| Compiled (c : CompiledObject access)
| Foreign (f : foreign).

#[global] Instance Context_eq_dec : EqDecision Context.
Proof. solve_decision. Defined.

#[global] Instance Context_countable : Countable Context.
Proof.
  refine (inj_countable'
    (λ c, match c with Compiled c => inl c | Foreign f => inr f end)
    (λ s, match s with inl c => Compiled c | inr f => Foreign f end) _).
  by intros [].
Defined.

Abbreviation ContextSet := (gset Context).
Definition NO_CONTEXTS : ContextSet := ∅.

(** [bool(s)] of a [ContextSet]. *)
Definition truthy (s : ContextSet) : bool := negb (bool_decide (s = ∅)).

(** Modelled from the spec: the inference engine around the resolver
    ([base_context], [stub_context], [typeshed] and the context classes
    other than [CompiledObject]) is missing from the sources.  Its methods
    are pure functions of the session:
      - [get_root_context], [is_bound_method], [execute_evaluated],
        [py__getattribute__] and the property [name] belong to every
        context ([py__getattribute__goto] is [py__getattribute__] with
        [is_goto=True], which returns names);
      - [non_stub_context_set] is the companion set of a
        [StubModuleContext], and [None] for a context of another class;
      - [_try_to_load_stub_cached] is the stub-loading subsystem;
      - the [foreign_] methods are those of the missing context classes;
      - the [name_] methods are those of a name. *)
Class Engine := {
  get_root_context : Context → Context;
  is_bound_method : Context → bool;
  execute_evaluated : Context → ContextSet;
  py__getattribute__ : Context → string → ContextSet;
  py__getattribute__goto : Context → string → list NameDefinition;
  context_name : Context → NameDefinition;
  non_stub_context_set : Context → option ContextSet;
  _try_to_load_stub_cached : Context → option Context;
  foreign_is_stub : foreign → bool;
  foreign_is_compiled : foreign → bool;
  foreign_is_instance : foreign → bool;
  foreign_is_class : foreign → bool;
  foreign_py__class__ : foreign → Context;
  foreign_get_qualified_names : foreign → option (list string);
  name_get_root_context : NameDefinition → Context;
  name_get_qualified_names : NameDefinition → option (list string);
}.

Context `{!Engine}.

(** Method calls on a context: a [CompiledObject] answers with the methods
    of [compiled/context.py]. *)
Definition is_stub (c : Context) : bool :=
  match c with
  | Compiled c => Compiled.is_stub c
  | Foreign f => foreign_is_stub f
  end.

Definition is_compiled (c : Context) : bool :=
  match c with
  | Compiled c => Compiled.is_compiled c
  | Foreign f => foreign_is_compiled f
  end.

Definition is_instance (c : Context) : bool :=
  match c with
  | Compiled c => Compiled.is_instance c
  | Foreign f => foreign_is_instance f
  end.

Definition is_class (c : Context) : bool :=
  match c with
  | Compiled c => Compiled.is_class c
  | Foreign f => foreign_is_class f
  end.

Definition get_qualified_names (c : Context) : option (list string) :=
  match c with
  | Compiled c => Compiled.get_qualified_names c
  | Foreign f => foreign_get_qualified_names f
  end.

(** [c.py__class__()], followed by the first use of the class: when a
    compiled object has a class without an access, the class is Python's
    [None], and the method call on it that follows raises. *)
Definition py__class__ (c : Context) : result Context :=
  match c with
  | Compiled c =>
      k ← Compiled.py__class__ c;
      match k with
      | Some k => Ok (Compiled k)
      | None => Raise AttributeError
      end
  | Foreign f => Ok (foreign_py__class__ f)
  end.

(** [ContextSet.py__getattribute__]: the union over the members. *)
Definition ContextSet_py__getattribute__ (s : ContextSet) (n : string)
  : ContextSet :=
  set_bind (λ c, py__getattribute__ c n) s.

(** [ContextSet.py__getattribute__] with [is_goto=True]: the names of all
    members. *)
Definition ContextSet_py__getattribute__goto (s : ContextSet) (n : string)
  : list NameDefinition :=
  c ← elements s; py__getattribute__goto c n.

(** [ContextSet.from_sets] over a generator whose items may raise. *)
Fixpoint from_sets (sets : list (result ContextSet)) : result ContextSet :=
  match sets with
  | [] => Ok ∅
  | r :: rest => s ← r; t ← from_sets rest; Ok (s ∪ t)
  end.

Definition _infer_from_stub (stub_module : Context)
    (qualified_names : list string) (ignore_compiled : bool)
  : result ContextSet :=
  match non_stub_context_set stub_module with
  | None => Raise AssertionError
  | Some non_stubs =>
      let non_stubs :=
        if ignore_compiled
        then filter (λ c, is_compiled c = false) non_stubs
        else non_stubs in
      Ok (foldl ContextSet_py__getattribute__ non_stubs qualified_names)
  end.

Definition stub_to_actual_context_set (stub_context : Context)
    (ignore_compiled : bool) : result ContextSet :=
  let stub_module := get_root_context stub_context in
  if negb (is_stub stub_module) then Ok {[stub_context]}
  else
    let was_instance := is_instance stub_context in
    stub_context ← (if was_instance then py__class__ stub_context
                    else Ok stub_context);
    match get_qualified_names stub_context with
    | None => Ok NO_CONTEXTS
    | Some qualified_names =>
        let was_bound_method := is_bound_method stub_context in
        (* [method_name] is bound only for a bound method;
           [qualified_names[-1]] of an empty tuple raises *)
        '(method_name, qualified_names, was_instance) ←
          (if was_bound_method then
             match last qualified_names with
             | Some method_name =>
                 Ok (Some method_name, removelast qualified_names, true)
             | None => Raise IndexError
             end
           else Ok (None, qualified_names, was_instance));
        contexts ← _infer_from_stub stub_module qualified_names ignore_compiled;
        let contexts : ContextSet :=
          if was_instance : bool
          then set_bind execute_evaluated
                 (filter (λ c, is_class c = true) (contexts : ContextSet))
          else contexts in
        let contexts :=
          match method_name with
          | Some method_name =>
              ContextSet_py__getattribute__ contexts method_name
          | None => contexts
          end in
        Ok contexts
    end.

Definition try_stubs_to_actual_context_set (stub_contexts : list Context)
    (prefer_stub_to_compiled : bool) : result ContextSet :=
  from_sets (
    (λ stub_context,
       s ← stub_to_actual_context_set stub_context prefer_stub_to_compiled;
       Ok (if truthy s then s else {[stub_context]}))
    <$> stub_contexts).

(** One turn of the loop of [try_stub_to_actual_names], in two steps:
    [actual_contexts] is the value of the variable [contexts], the actual
    contexts of the parent path of the stub name;
    [try_stub_to_actual_name] is the list of the names the turn yields. *)
Definition actual_contexts (name : NameDefinition) (prefer_stub_to_compiled : bool)
  : result ContextSet :=
  let module := name_get_root_context name in
  match name_get_qualified_names name with
  | None => Ok NO_CONTEXTS
  | Some name_list =>
      _infer_from_stub module (removelast name_list) prefer_stub_to_compiled
  end.

Definition try_stub_to_actual_name (name : NameDefinition)
    (prefer_stub_to_compiled : bool) : result (list NameDefinition) :=
  let module := name_get_root_context name in
  if negb (is_stub module) then Ok [name]
  else
    let name_list := name_get_qualified_names name in
    contexts ← actual_contexts name prefer_stub_to_compiled;
    (* [contexts and name_list]: [name_list] is neither [None] nor empty
       exactly when it has a last segment *)
    match truthy contexts, name_list ≫= last with
    | true, Some last_name =>
        let new_names :=
          ContextSet_py__getattribute__goto contexts last_name in
        Ok (new_names ++ (if new_names is [] then [name] else []))
    | true, None =>
        Ok (context_name <$> elements contexts)
    | false, _ => Ok [name]
    end.

(** [try_stub_to_actual_names], with its decorator [to_list]: the names the
    generator yields, in order. *)
Fixpoint try_stub_to_actual_names (names : list NameDefinition)
    (prefer_stub_to_compiled : bool) : result (list NameDefinition) :=
  match names with
  | [] => Ok []
  | name :: rest =>
      xs ← try_stub_to_actual_name name prefer_stub_to_compiled;
      ys ← try_stub_to_actual_names rest prefer_stub_to_compiled;
      Ok (xs ++ ys)
  end.

Definition _load_stub_module (module : Context) : option Context :=
  if is_stub module then Some module
  else _try_to_load_stub_cached module.

Definition to_stub (context : Context) : result ContextSet :=
  if is_stub context then Ok {[context]}
  else
    let was_instance := is_instance context in
    context ← (if was_instance then py__class__ context else Ok context);
    let qualified_names := get_qualified_names context in
    let stub_module := _load_stub_module (get_root_context context) in
    match stub_module, qualified_names with
    | Some stub_module, Some qualified_names =>
        let was_bound_method := is_bound_method context in
        '(method_name, qualified_names, was_instance) ←
          (if was_bound_method then
             match last qualified_names with
             | Some method_name =>
                 Ok (Some method_name, removelast qualified_names, true)
             | None => Raise IndexError
             end
           else Ok (None, qualified_names, was_instance));
        let stub_contexts :=
          foldl ContextSet_py__getattribute__ {[stub_module]} qualified_names in
        let stub_contexts : ContextSet :=
          if was_instance : bool
          then set_bind execute_evaluated
                 (filter (λ c, is_class c = true) stub_contexts)
          else stub_contexts in
        let stub_contexts :=
          match method_name with
          | Some method_name =>
              ContextSet_py__getattribute__ stub_contexts method_name
          | None => stub_contexts
          end in
        Ok stub_contexts
    | _, _ => Ok NO_CONTEXTS
    end.

(** ** The vocabulary of the specification *)

(** What one stub context contributes to the tolerant wrapper. *)
Definition contribution (S : ContextSet) (c : Context) : ContextSet :=
  if truthy S then S else {[c]}.

(** The actual side of a stub name yields nothing: no context for its
    parent path, or no name for its last segment in those contexts. *)
Definition resolves_to_nothing (n : NameDefinition) (prefer : bool) : Prop :=
  is_stub (name_get_root_context n) = true
  ∧ ∃ contexts, actual_contexts n prefer = Ok contexts
      ∧ (contexts = ∅
         ∨ ∃ last_name, name_get_qualified_names n ≫= last = Some last_name
             ∧ ContextSet_py__getattribute__goto contexts last_name = []).

End Conversion.

Arguments Context access foreign : clear implicits.
Arguments Engine access {_ _} foreign {_ _} NameDefinition.

(** A session to run the definitions in.  The contexts that are not
    compiled are numbered: [0] is a stub module and [2] the module it
    describes; [1] and [3] are the class [C] in the one and in the other,
    [4] and [5] an instance of each; [6] is a function [g] that only the
    stub declares.  The name of a context is the context itself. *)
Definition example_root (c : Context string nat) : Context string nat :=
  match c with
  | Compiled c =>
      Compiled (create_cached_compiled_object (List.last (handles c) "") None)
  | Foreign n => Foreign (if bool_decide (n ∈ [0; 1; 4; 6]%nat) then 0 else 2)%nat
  end.

Definition example_getattribute (c : Context string nat) (n : string)
  : gset (Context string nat) :=
  match c with
  | Foreign 0%nat =>
      if bool_decide (n = "C") then {[Foreign 1%nat]}
      else if bool_decide (n = "g") then {[Foreign 6%nat]} else ∅
  | Foreign 2%nat => if bool_decide (n = "C") then {[Foreign 3%nat]} else ∅
  | _ => ∅
  end.

Definition example_foreign_names (n : nat) : option (list string) :=
  match n with
  | 0 | 2 => Some []
  | 6 => Some ["g"]
  | _ => Some ["C"]
  end%nat.

#[global] Instance example_engine
  : Engine string nat (Context string nat) := {|
  get_root_context := example_root;
  is_bound_method := λ _, false;
  execute_evaluated := λ c,
    match c with
    | Foreign 1%nat => {[Foreign 4%nat]}
    | Foreign 3%nat => {[Foreign 5%nat]}
    | _ => ∅
    end;
  py__getattribute__ := example_getattribute;
  py__getattribute__goto := λ c n, elements (example_getattribute c n);
  context_name := λ c, c;
  non_stub_context_set := λ c,
    match c with
    | Foreign 0%nat => Some {[Foreign 2%nat]}
    | _ => None
    end;
  _try_to_load_stub_cached := λ c,
    match c with
    | Foreign 2%nat => Some (Foreign 0%nat)
    | _ => None
    end;
  foreign_is_stub := λ n, bool_decide (n ∈ [0; 1; 4; 6]%nat);
  foreign_is_compiled := λ _, false;
  foreign_is_instance := λ n, bool_decide (n ∈ [4; 5]%nat);
  foreign_is_class := λ n, bool_decide (n ∈ [1; 3]%nat);
  foreign_py__class__ := λ n,
    Foreign (match n with 4 => 1 | 5 => 3 | _ => n end)%nat;
  foreign_get_qualified_names := example_foreign_names;
  name_get_root_context := example_root;
  name_get_qualified_names := λ c,
    match c with
    | Compiled c => Compiled.get_qualified_names c
    | Foreign n => example_foreign_names n
    end;
|}.

Definition stub_C : Context string nat := Foreign 1%nat.
Definition actual_C : Context string nat := Foreign 3%nat.
Definition stub_g : Context string nat := Foreign 6%nat.

End Conversion.

(** * Further vocabulary for [precedence.py] *)

Module PrecedenceVocabulary.
Import Native Precedence.

(** Two sessions that differ at most in the order in which they visit a
    set. *)
Definition same_session (ev1 ev2 : Evaluator) : Prop :=
  is_ ev1 = is_ ev2
  ∧ builtin_from_name ev1 = builtin_from_name ev2
  ∧ execute_evaluated ev1 = execute_evaluated ev2
  ∧ py__bool__ ev1 = py__bool__ ev2.

(** Two outcomes agree: both raise, or both return the same set with the
    same diagnostics up to their order. *)
Definition agree (m1 m2 : M ContextSet) : Prop :=
  match m1, m2 with
  | (Ok S1, w1), (Ok S2, w2) => S1 = S2 ∧ w1 ≡ₚ w2
  | (Raise _, _), (Raise _, _) => True
  | _, _ => False
  end.

(** [isinstance(c, AbstractSequence) or is_string(c)]: the operand that
    the rule for [*] returns. *)
Definition repeatable (c : Context) : bool :=
  isinstance_AbstractSequence c || is_string c.

End PrecedenceVocabulary.


(** * [jedi/evaluate/names.py] *)

Module Names.

(** The kinds of [inspect.Parameter], which [jedi._compatibility] exports
    as [Parameter]. *)
Inductive ParameterKind :=
| POSITIONAL_ONLY
| POSITIONAL_OR_KEYWORD
| VAR_POSITIONAL
| KEYWORD_ONLY
| VAR_KEYWORD.

#[global] Instance ParameterKind_eq_dec : EqDecision ParameterKind.
Proof. solve_decision. Defined.

(** A node of the syntax tree, as far as [get_kind] reads it.  Nodes are
    compared by identity, for which [node_id] stands; [star_count] is read
    on nodes of type [param] only. *)
Record Node := {
  node_id : nat;
  type : string;
  star_count : Z;
}.

(** [p == tree_param] *)
Definition node_eqb (p q : Node) : bool := bool_decide (node_id p = node_id q).

(** A [ParamName]: [param_node] is what [_get_param_node] finds above the
    tree name ([None] when there is no [param] ancestor), and [siblings]
    are the children of the parent of that node. *)
Record ParamName := {
  param_node : option Node;
  siblings : list Node;
}.

Definition _get_param_node (self : ParamName) : option Node := param_node self.

(** The [for] loop of [get_kind] over [parent.children], and the [return]
    that follows it. *)
Fixpoint get_kind_loop (tree_param : Node) (children : list Node)
  : ParameterKind :=
  match children with
  | [] => POSITIONAL_OR_KEYWORD
  | p :: children =>
      if bool_decide (type p = "param") then
        if negb (star_count p =? 0) then KEYWORD_ONLY
        else if node_eqb p tree_param then POSITIONAL_OR_KEYWORD
        else get_kind_loop tree_param children
      else get_kind_loop tree_param children
  end.

Definition get_kind (self : ParamName) : result ParameterKind :=
  match _get_param_node self with
  | None => Raise AttributeError
  | Some tree_param =>
      if star_count tree_param =? 1 then Ok VAR_POSITIONAL
      else if star_count tree_param =? 2 then Ok VAR_KEYWORD
      else Ok (get_kind_loop tree_param (siblings self))
  end.

(** A parameter list [def f(a, *args, b, **kwargs)], with the commas
    between the parameters. *)
Definition example_params : list Node :=
  [ {| node_id := 0; type := "operator"; star_count := 0 |};
    {| node_id := 1; type := "param"; star_count := 0 |};
    {| node_id := 2; type := "param"; star_count := 1 |};
    {| node_id := 3; type := "param"; star_count := 0 |};
    {| node_id := 4; type := "param"; star_count := 2 |};
    {| node_id := 5; type := "operator"; star_count := 0 |} ]%nat.

Definition example_param (i : nat) : ParamName :=
  {| param_node := example_params !! i; siblings := example_params |}.

End Names.

(** * [jedi/api/classes.py] *)

Module Classes.

(** ** Python sequences *)

(** The bound of a slice, as Python normalises it on a sequence of length
    [n]: a negative bound counts from the end, and every bound is clipped
    to the sequence. *)
Definition slice_bound (n i : Z) : Z :=
  if i <? 0 then Z.max (i + n) 0 else Z.min i n.

(** [l[start:stop]]; a bound that is left out is [None]. *)
Definition py_slice {A} (l : list A) (start stop : option Z) : list A :=
  let n := Z.of_nat (length l) in
  let a := slice_bound n (default 0 start) in
  let b := slice_bound n (default n stop) in
  take (Z.to_nat (b - a)) (drop (Z.to_nat a) l).

(** The same on a [str], a sequence of characters. *)
Definition str_slice (s : string) (start stop : option Z) : string :=
  Strings.String.string_of_list_ascii
    (py_slice (Strings.String.list_ascii_of_string s) start stop).

(** [''.join(l)] *)
Definition join (l : list string) : string := foldr String.app "" l.

(** ** Names, as the API classes read them *)

(** A name, as far as the embedded methods read it.  [tree_name] is [None]
    for a name without a tree name; otherwise it holds what
    [tree_name.get_definition().star_count] evaluates to, which is [None]
    when that expression raises [AttributeError]: [get_definition()] is
    Python's [None], or a node that is no [param].  [code_lines] is
    [get_root_context().code_lines]. *)
Record Name := {
  is_context_name : bool;
  string_name : string;
  api_type : string;
  start_pos : option (Z * Z);
  tree_name : option (option Z);
  code_lines : list string;
}.

(** [tree_name.get_definition().star_count == k], for a tree name. *)
Definition star_count_is (definition : option Z) (k : Z) : result bool :=
  match definition with
  | None => Raise AttributeError
  | Some star_count => Ok (star_count =? k)
  end.

(** ** [BaseDefinition] *)

(** A definition: its name, and the answers of the methods that are not
    embedded here, [in_builtin_module()] and the property [type]. *)
Record BaseDefinition := {
  _name : Name;
  in_builtin_module : bool;
  type : string;
}.

Definition name (self : BaseDefinition) : string := string_name (_name self).

Definition line (self : BaseDefinition) : option Z :=
  match start_pos (_name self) with
  | None => None
  | Some start_pos => Some start_pos.1
  end.

Definition column (self : BaseDefinition) : option Z :=
  match start_pos (_name self) with
  | None => None
  | Some start_pos => Some start_pos.2
  end.

Definition get_line_code (self : BaseDefinition) (before after : Z)
  : result string :=
  if negb (is_context_name (_name self)) || in_builtin_module self then Ok ""
  else
    let lines := code_lines (_name self) in
    match start_pos (_name self) with
    | None => Raise TypeError
    | Some start_pos =>
        let index := start_pos.1 - 1 in
        let start_index := Z.max (index - before) 0 in
        Ok (join (py_slice lines (Some start_index) (Some (index + after + 1))))
    end.

(** ** [Completion] *)

(** [_stack] holds the [nonterminal] of each stack node. *)
Record Completion := {
  completion_base : BaseDefinition;
  _like_name_length : Z;
  _stack : option (list string);
}.

Section Settings.
(** [settings.add_bracket_after_function] *)
Variable add_bracket_after_function : bool.

Definition _complete (self : Completion) (like_name : bool) : string :=
  let append := "" in
  let append :=
    if add_bracket_after_function
       && bool_decide (type (completion_base self) = "function")
    then "(" else append in
  let append :=
    match _stack self with
    | Some nonterminals =>
        if bool_decide (api_type (_name (completion_base self)) = "param")
           && (bool_decide ("trailer" ∈ nonterminals)
               && negb (bool_decide ("argument" ∈ nonterminals)))
        then append +:+ "=" else append
    | None => append
    end in
  let name := string_name (_name (completion_base self)) in
  let name :=
    if like_name then str_slice name (Some (_like_name_length self)) None
    else name in
  name +:+ append.

Definition complete (self : Completion) : string := _complete self true.

Definition name_with_symbols (self : Completion) : string :=
  _complete self false.

End Settings.

(** ** [CallSignature] *)

(** A call signature: [params] are the names that
    [_signature.get_param_names()] returns. *)
Record CallSignature := {
  params : list Name;
  _index : Z;
  _key_name_str : option string;
}.

(** The first loop of [index]: the position of the first parameter of
    that name, counting from [i]. *)
Fixpoint index_of_name (key : string) (params : list Name) (i : nat)
  : option nat :=
  match params with
  | [] => None
  | param :: params =>
      if bool_decide (key = string_name param) then Some i
      else index_of_name key params (S i)
  end.

(** The second loop of [index]: the position of the first [*args]
    parameter, counting from [i]. *)
Fixpoint index_of_star (params : list Name) (i : nat) : result (option nat) :=
  match params with
  | [] => Ok None
  | param :: params =>
      match tree_name param with
      | Some definition =>
          star ← star_count_is definition 1;
          if star : bool then Ok (Some i) else index_of_star params (S i)
      | None => index_of_star params (S i)
      end
  end.

Definition index (self : CallSignature) : result (option Z) :=
  match _key_name_str self with
  | Some key =>
      match index_of_name key (params self) 0 with
      | Some i => Ok (Some (Z.of_nat i))
      | None =>
          match last (params self) with
          | Some param_name =>
              (* after the loop, [i] is the last position *)
              let i := (length (params self) - 1)%nat in
              match tree_name param_name with
              | Some definition =>
                  star ← star_count_is definition 2;
                  if star : bool then Ok (Some (Z.of_nat i)) else Ok None
              | None => Ok None
              end
          | None => Ok None
          end
      end
  | None =>
      if Z.of_nat (length (params self)) <=? _index self then
        i ← index_of_star (params self) 0;
        Ok (Z.of_nat <$> (i : option nat))
      else Ok (Some (_index self))
  end.

(** The parameters of [def f(a, *args, b, **kwargs)]. *)
Definition example_signature_params : list Name :=
  (λ '(n, k),
     {| is_context_name := true; string_name := n; api_type := "param";
        start_pos := Some (1, 0); tree_name := Some (Some k);
        code_lines := [] |})
  <$> [("a", 0); ("args", 1); ("b", 0); ("kwargs", 2)].

(** A definition on the second of three lines. *)
Definition example_definition : BaseDefinition :=
  {| _name := {| is_context_name := true; string_name := "f";
                 api_type := "function"; start_pos := Some (2, 4);
                 tree_name := Some None;
                 code_lines := ["import os" +:+ "
"; "def f(): pass" +:+ "
"; "f()" +:+ "
"] |};
     in_builtin_module := false;
     type := "function" |}.

End Classes.

(** * [jedi/evaluate/compiled/context.py]: listing a filter *)

Module CompiledValues.
Import Compiled.

Section Values.
Context {access : Type} `{Countable access} `{!Reflection access}.

(** Names of other classes than those of this file. *)
Context {foreign_name : Type}.

(** [access_handle.get_dir_infos()]: the flag [needs_type_completions]
    and the dictionary [dir_infos], from each attribute name to its pair
    [(has_attribute, is_descriptor)], as the list of its items in the order
    of the dictionary. *)
Variable access_get_dir_infos : access → bool * list (string * (bool * bool)).

(** The names that the filters of [builtin_from_name(evaluator, 'type')]
    list; the object is built outside this file. *)
Variable type_names : list foreign_name.

(** [d[k]] on the items of a dictionary.  The one subscript of this file
    is by a key of the dictionary, so that the [KeyError] of a missing key
    is never raised; the value for a missing key is not used. *)
Fixpoint getitem (d : list (string * (bool * bool))) (k : string)
  : bool * bool :=
  match d with
  | [] => (false, false)
  | (key, value) :: d => if bool_decide (key = k) then value else getitem d k
  end.

Definition values (self : CompiledObjectFilter access)
  : list (Name access + foreign_name) :=
  let '(needs_type_completions, dir_infos) :=
    access_get_dir_infos (access_handle (_compiled_object self)) in
  let names :=
    name ← dir_infos.*1;
    _get self name (λ _, getitem dir_infos name) (λ _, dir_infos.*1) false in
  if negb (filter_is_instance self) && needs_type_completions
  then (inl <$> names) ++ (inr <$> type_names)
  else inl <$> names.

End Values.

End CompiledValues.

(** * [jedi/evaluate/compiled/context.py]: the docstring parser *)

Module CompiledDoc.
Import Stdlib.Strings.Ascii.
Import Names.

(** ** Text *)

(** A text string is the sequence of its characters. *)
Abbreviation text := (list Ascii.ascii).

Definition text_of (s : string) : text := Strings.String.list_ascii_of_string s.

(** The newline character. *)
Definition LF : Ascii.ascii := "010"%char.

(** [str.isspace] of one character: the white space among the code points
    below 256. *)
Definition isspace (c : Ascii.ascii) : bool :=
  let n := Ascii.N_of_ascii c in
  ((9 <=? n) && (n <=? 13) || (28 <=? n) && (n <=? 32)
   || (n =? 133) || (n =? 160))%N.

(** [s.lstrip()] and [s.strip()] *)
Fixpoint lstrip (s : text) : text :=
  match s with
  | [] => []
  | c :: s' => if isspace c then lstrip s' else s
  end.

Definition strip (s : text) : text := reverse (lstrip (reverse (lstrip s))).

(** [s.index(c)]; [None] stands for the [ValueError] of a missing
    character. *)
Fixpoint index (c : Ascii.ascii) (s : text) : option nat :=
  match s with
  | [] => None
  | x :: s' => if bool_decide (x = c) then Some 0%nat else S <$> index c s'
  end.

(** [s.split(sep)] for a separator of one character. *)
Fixpoint split (sep : Ascii.ascii) (s : text) : list text :=
  match s with
  | [] => [[]]
  | c :: s' =>
      if bool_decide (c = sep) then [] :: split sep s'
      else match split sep s' with
           | [] => [[c]]
           | piece :: pieces => (c :: piece) :: pieces
           end
  end.

(** [sep.join(pieces)] *)
Fixpoint join (sep : text) (pieces : list text) : text :=
  match pieces with
  | [] => []
  | [piece] => piece
  | piece :: pieces => piece ++ sep ++ join sep pieces
  end.

(** [s.replace(a, b)] for single characters. *)
Definition replace (a b : Ascii.ascii) (s : text) : text :=
  (λ c, if bool_decide (c = a) then b else c) <$> s.

(** [s.partition(sep)], without the separator: the text before the first
    [sep] and the text after it. *)
Fixpoint partition (sep : Ascii.ascii) (s : text) : text * text :=
  match s with
  | [] => ([], [])
  | c :: s' =>
      if bool_decide (c = sep) then ([], s')
      else let '(before, after) := partition sep s' in (c :: before, after)
  end.

(** ** Round parentheses *)

(** The [for] loop over [doc[start:]]: the position [i] at which [count]
    comes back to zero; [None] when the loop ends without a [break], which
    leaves [end] unbound. *)
Fixpoint closing (count : Z) (i : nat) (s : text) : option nat :=
  match s with
  | [] => None
  | c :: s' =>
      let count :=
        if bool_decide (c = "("%char) then count + 1
        else if bool_decide (c = ")"%char) then count - 1
        else count in
      if count =? 0 then Some i else closing count (S i) s'
  end.

(** The [try] block: [(end, param_str)], or [None] when it raises
    [ValueError] or [UnboundLocalError]. *)
Definition round_parentheses (doc : text) : option (nat * text) :=
  start ← index "("%char doc;
  i ← closing 0 0 (drop start doc);
  let end_ := (start + i)%nat in
  Some (end_, take (end_ - (start + 1)) (drop (start + 1) doc)).

(** ** Square brackets *)

Definition change_options (group : text) : text :=
  join (text_of ",")
    ((λ a : text,
        if negb (bool_decide (a = []))
           && negb (bool_decide ("="%char ∈ a))
        then a ++ text_of "=None" else a)
     <$> split ","%char group).

(** [[^\[\]]+\]] at the head of [s]: the characters up to the first
    bracket, when that bracket closes; with the length of what is read. *)
Fixpoint group_body (s : text) : option text :=
  match s with
  | [] => None
  | c :: s' =>
      if bool_decide (c = "]"%char) then Some []
      else if bool_decide (c = "["%char) then None
      else (c ::.) <$> group_body s'
  end.

(** [\[([^\[\]]+)\]] at the head of [s]: the group, which is not empty. *)
Definition bracket_group (s : text) : option text :=
  match s with
  | c :: s' =>
      if bool_decide (c = "["%char) then
        match group_body s' with
        | Some (c' :: group) => Some (c' :: group)
        | _ => None
        end
      else None
  | [] => None
  end.

(** The pattern [ ?\[([^\[\]]+)\]] at the head of [s]: the group and the
    length of the match. *)
Definition option_match (s : text) : option (text * nat) :=
  match s with
  | c :: s' =>
      if bool_decide (c = " "%char) then
        group ← bracket_group s'; Some (group, 3 + length group)%nat
      else group ← bracket_group s; Some (group, 2 + length group)%nat
  | [] => None
  end.

(** One [re.subn(r' ?\[([^\[\]]+)\]', change_options, param_str)], from
    left to right: [skip] counts the characters of the last match that are
    still to be passed over. *)
Fixpoint subn_from (skip : nat) (s : text) : text * nat :=
  match s with
  | [] => ([], 0%nat)
  | c :: s' =>
      match skip with
      | S skip => subn_from skip s'
      | O =>
          match option_match s with
          | Some (group, len) =>
              let '(rest, changes) := subn_from (len - 1) s' in
              (change_options group ++ rest, S changes)
          | None =>
              let '(rest, changes) := subn_from 0 s' in (c :: rest, changes)
          end
      end
  end.

Definition subn (s : text) : text * nat := subn_from 0 s.

(** The [while True] loop.  Every pass that changes something takes a
    bracket away, so that no more passes are made than [fuel], which is
    set above the length of the text. *)
Fixpoint remove_options (fuel : nat) (param_str : text) : text :=
  match fuel with
  | O => param_str
  | S fuel =>
      let '(param_str, changes) := subn param_str in
      if (changes =? 0)%nat then param_str
      else remove_options fuel param_str
  end.

(** ** The return value *)

(** [[>-]* ] at the head of [s]: the length of the match. *)
Fixpoint arrow_tail (s : text) : option nat :=
  match s with
  | [] => None
  | c :: s' =>
      if bool_decide (c = " "%char) then Some 1%nat
      else if bool_decide (c = ">"%char) || bool_decide (c = "-"%char)
      then S <$> arrow_tail s'
      else None
  end.

(** [re.search('-[>-]* ', s)]: the [end()] of the first match, [i] being
    the position of the head of [s]. *)
Fixpoint search_arrow (i : nat) (s : text) : option nat :=
  match s with
  | [] => None
  | c :: s' =>
      if bool_decide (c = "-"%char) then
        match arrow_tail s' with
        | Some n => Some (i + 1 + n)%nat
        | None => search_arrow (S i) s'
        end
      else search_arrow (S i) s'
  end.

(** The match of [(,\n|[^\n-])+] at the head of [s]; the empty text stands
    for no match. *)
Fixpoint result_type (s : text) : text :=
  match s with
  | [] => []
  | c :: s' =>
      match s' with
      | c' :: s'' =>
          if bool_decide (c = ","%char) && bool_decide (c' = LF)
          then c :: c' :: result_type s''
          else if bool_decide (c = LF) || bool_decide (c = "-"%char) then []
          else c :: result_type s'
      | [] =>
          if bool_decide (c = LF) || bool_decide (c = "-"%char) then []
          else [c]
      end
  end.

(** [re.sub] of the pattern [[nN]ew ] followed by a group of any
    characters, which runs to the end of the line, by the group followed by
    a pair of parentheses; from left to right, [in_group] telling that the
    head of [s] is inside the group. *)
Fixpoint sub_new (in_group : bool) (s : text) : text :=
  match s with
  | [] => if in_group then text_of "()" else []
  | c :: s' =>
      if in_group then
        if bool_decide (c = LF) then text_of "()" ++ c :: sub_new false s'
        else c :: sub_new true s'
      else
        match s' with
        | c1 :: c2 :: c3 :: s3 =>
            if (bool_decide (c = "n"%char) || bool_decide (c = "N"%char))
               && bool_decide (c1 = "e"%char) && bool_decide (c2 = "w"%char)
               && bool_decide (c3 = " "%char)
            then sub_new true s3
            else c :: sub_new false s'
        | _ => c :: sub_new false s'
        end
  end.

Definition docstr_defaults : gmap string string :=
  {[ "floating point number" := "float";
     "character" := "str";
     "integer" := "int";
     "dictionary" := "dict";
     "string" := "str" ]}.

(** [docstr_defaults.get(ret_str, ret_str)] *)
Definition docstr_defaults_get (ret_str : text) : text :=
  match docstr_defaults !! Strings.String.string_of_list_ascii ret_str with
  | Some ret => text_of ret
  | None => ret_str
  end.

(** ** [_parse_function_doc] *)

(** [pattern.match(doc, index)] is [None] when nothing matches, and
    [.group(0)] on it raises [AttributeError]. *)
Definition _parse_function_doc (doc : text) : result (text * text) :=
  let '(end_, param_str) :=
    match round_parentheses doc with
    | Some (end_, param_str) =>
        (end_, remove_options (S (length param_str)) param_str)
    | None => (0%nat, [])
    end in
  let param_str := replace "-"%char "_"%char param_str in
  match search_arrow 0 (take 7 (drop end_ doc)) with
  | None => Ok (param_str, [])
  | Some r_end =>
      let index := (end_ + r_end)%nat in
      match result_type (drop index doc) with
      | [] => Raise AttributeError
      | group =>
          let ret_str := strip group in
          let ret_str := sub_new false ret_str in
          Ok (param_str, docstr_defaults_get ret_str)
      end
  end.

(** ** [CompiledObject.get_param_names] *)

(** [CompiledObject._parse_function_doc]: [doc] is [py__doc__()]. *)
Definition parse_function_doc_of (doc : option text) : result (text * text) :=
  match doc with
  | None => Ok ([], [])
  | Some doc => _parse_function_doc doc
  end.

(** The parameter names of this file: a [SignatureParamName] on a
    parameter of the signature, or an [UnresolvableParamName] with its name
    and its default. *)
Inductive ParamName (signature_param : Type) :=
| SignatureParamName (p : signature_param)
| UnresolvableParamName (string_name : text) (_default : text).
Arguments SignatureParamName {_} p.
Arguments UnresolvableParamName {_} string_name _default.

(** [get_param_names]: [signature_params] is [None] when
    [get_signature_params()] raises [ValueError]. *)
Definition get_param_names {signature_param : Type}
    (signature_params : option (list signature_param))
    (doc : option text) (ismethoddescriptor : bool)
  : result (list (ParamName signature_param)) :=
  match signature_params with
  | None =>
      '(params_str, ret) ← parse_function_doc_of doc;
      let tokens := split ","%char params_str in
      let tokens :=
        if ismethoddescriptor then text_of "self" :: tokens else tokens in
      Ok ((λ p, let '(name, default) := partition "="%char (strip p) in
                UnresolvableParamName name default) <$> tokens)
  | Some signature_params => Ok (SignatureParamName <$> signature_params)
  end.

(** ** The vocabulary of the properties *)

Definition is_bracket (c : Ascii.ascii) : bool :=
  bool_decide (c = "["%char) || bool_decide (c = "]"%char).

(** The number of opening brackets of a text. *)
Definition count_open (s : text) : nat :=
  length (filter (λ c, c = "["%char) s).

(** [UnresolvableParamName.to_string], from the name and the default of
    the parameter. *)
Definition unresolvable_to_string (string_name _default : text) : text :=
  let string := string_name in
  if negb (bool_decide (_default = []))
  then string ++ text_of "=" ++ _default else string.

(** [UnresolvableParamName.get_kind] *)
Definition unresolvable_get_kind : ParameterKind := POSITIONAL_ONLY.

End CompiledDoc.

(** * [jedi/api/classes.py]: the description of a definition *)

Module Description.
Import Stdlib.Strings.Ascii.
Import CompiledDoc Classes.

(** [re.sub(r'#[^\n]+\n', ' ', txt)], from left to right: a match starts
    at a [#] that is followed by a character other than the line break,
    on a line that a line break ends, and runs up to that line break;
    [in_comment] tells that the head of [s] is inside a match. *)
Fixpoint sub_comments (in_comment : bool) (s : text) : text :=
  match s with
  | [] => []
  | c :: s' =>
      if in_comment then
        if bool_decide (c = LF) then sub_comments false s'
        else sub_comments true s'
      else if bool_decide (c = "#"%char)
              && match s' with
                 | c' :: _ => negb (bool_decide (c' = LF))
                 | [] => false
                 end
              && bool_decide (LF ∈ s')
      then " "%char :: sub_comments true s'
      else c :: sub_comments false s'
  end.

(** [re.sub(r'\s+', ' ', txt)], from left to right: [in_run] tells that
    the head of [s] follows white space of the same run. *)
Fixpoint sub_spaces (in_run : bool) (s : text) : text :=
  match s with
  | [] => []
  | c :: s' =>
      if isspace c then
        if in_run then sub_spaces true s'
        else " "%char :: sub_spaces true s'
      else c :: sub_spaces false s'
  end.

(** [Definition.description].  [param_code] is the code of the [param]
    node above the tree name, [None] when there is no such node, and
    [definition_code] the code of
    [tree_name.get_definition() or tree_name], both without their
    prefix. *)
Definition description (self : BaseDefinition)
    (param_code : option text) (definition_code : text) : result text :=
  let typ := type self in
  if bool_decide (typ ∈ ["function"; "class"; "module"; "instance"])
     || bool_decide (tree_name (_name self) = None)
  then
    let typ := if bool_decide (typ = "function") then "def" else typ in
    Ok (text_of typ ++ text_of " " ++ text_of (string_name (_name self)))
  else if bool_decide (typ = "param") then
    match param_code with
    | None => Raise AttributeError
    | Some code => Ok (text_of typ ++ text_of " " ++ code)
    end
  else
    let txt := definition_code in
    let txt := sub_comments false txt in
    let txt := strip (sub_spaces false txt) in
    Ok txt.

(** A statement [x = 1  # one], continued on a second line. *)
Definition example_statement : BaseDefinition :=
  {| _name := {| is_context_name := true; string_name := "x";
                 api_type := "statement"; start_pos := Some (1, 0);
                 tree_name := Some None; code_lines := [] |};
     in_builtin_module := false;
     type := "statement" |}.

Definition example_code : text :=
  text_of "x = 1  # one" ++ [LF] ++ text_of "    + 2".

End Description.

(** * [jedi/api/classes.py]: from a definition to what it stands for *)

Module ClassesInfer.
Import Compiled Conversion.

Section Infer.
Context {access : Type} `{Countable access} `{!Reflection access}.
Context {foreign : Type} `{Countable foreign}.
Context {NameDefinition : Type}.
Context `{!Engine access foreign NameDefinition}.

(** [BaseDefinition.infer].  [is_context_name] belongs to the name of the
    definition, and [name_infer] holds the contexts of [_name.infer()] as
    the generator of [try_stubs_to_actual_context_set] meets them.  A
    [Definition] is given by its name; the list follows the iteration of
    the resulting set. *)
Definition infer (is_context_name : bool)
    (name_infer : list (Context access foreign))
  : result (list NameDefinition) :=
  if negb is_context_name then Ok []
  else
    context_set ← try_stubs_to_actual_context_set name_infer true;
    Ok (context_name <$> elements (context_set : gset (Context access foreign))).

End Infer.

End ClassesInfer.

(** * Properties of [precedence.py] *)

Module PrecedenceFacts.
Import Native Precedence.
Local Open Scope nat_scope.

Section Facts.
Context (evaluator : Evaluator) (context : Context).
Implicit Types (L R S : ContextSet) (l r x typ : Context) (operator : string).

Lemma truthy_false S : truthy S = false ↔ S = ∅.
Proof. unfold truthy. case_bool_decide; naive_solver. Qed.

Lemma truthy_true S : truthy S = true ↔ S ≠ ∅.
Proof. unfold truthy. case_bool_decide; naive_solver. Qed.

Lemma iter_empty : iter evaluator ∅ = [].
Proof.
  destruct (iter evaluator ∅) as [|y ys] eqn:E; [done|].
  assert (y ∈ (∅ : ContextSet)) as Hy; [|set_solver].
  apply (proj1 (iter_elem_of evaluator ∅ y)). rewrite E. left.
Qed.

Lemma iter_singleton x : iter evaluator {[x]} = [x].
Proof.
  pose proof (iter_NoDup evaluator {[x]}) as Hnd.
  assert (∀ y, y ∈ iter evaluator {[x]} ↔ y = x) as Hel.
  { intros y. rewrite iter_elem_of. set_solver. }
  destruct (iter evaluator {[x]}) as [|y ys].
  - pose proof (proj2 (Hel x) eq_refl) as Hx. by inversion Hx.
  - assert (y = x) as -> by (apply Hel; left).
    destruct ys as [|z zs]; [done|].
    assert (z = x) as -> by (apply Hel; right; left).
    apply NoDup_cons in Hnd as [Hx _]. exfalso. apply Hx. left.
Qed.

Lemma elem_of_widen_fold x (types : list Context) (acc : ContextSet) :
  x ∈ foldl (λ new_result typ,
               if is_literal typ then
                 new_result ∪ execute_evaluated evaluator
                   (builtin_from_name evaluator
                      (default "" (name_string_name typ)))
               else new_result ∪ {[typ]}) acc types
  ↔ x ∈ acc ∨ ∃ typ, typ ∈ types ∧ x ∈ widen evaluator typ.
Proof.
  revert acc. induction types as [|t ts IH]; intros acc; simpl.
  - split; [by left|]. intros [?|(? & Hin & _)]; [done|]. by inversion Hin.
  - rewrite IH. unfold widen. split.
    + intros [Hacc|(typ & Hin & Hx)].
      * destruct (is_literal t) eqn:Et; apply elem_of_union in Hacc as [?|?];
          [by left| |by left|]; right; exists t; rewrite Et;
          (split; [left|done]).
      * right. exists typ. split; [by right|done].
    + intros [Hacc|(typ & Hin & Hx)].
      * left. destruct (is_literal t); set_solver.
      * apply elem_of_cons in Hin as [->|Hin].
        -- left. destruct (is_literal t); set_solver.
        -- right. by exists typ.
Qed.

(** [literals_to_types] widens every member of the set, whatever the order
    in which the set is visited. *)
Lemma elem_of_literals_to_types x S :
  x ∈ literals_to_types evaluator S
  ↔ ∃ typ, typ ∈ S ∧ x ∈ widen evaluator typ.
Proof.
  unfold literals_to_types. rewrite elem_of_widen_fold.
  setoid_rewrite iter_elem_of. unfold NO_CONTEXTS. set_solver.
Qed.

Lemma literals_to_types_empty : literals_to_types evaluator ∅ = ∅.
Proof. unfold literals_to_types. by rewrite iter_empty. Qed.

(** [from_sets] returns when every item returns, and then with the union
    of the items and the diagnostics of all of them, in order. *)
Lemma from_sets_Ok (sets : list (M ContextSet)) S w :
  from_sets sets = (Ok S, w) →
  Forall (λ m, ∃ S' w', m = (Ok S', w')) sets
  ∧ (∀ x, x ∈ S ↔ ∃ S' w', (Ok S', w') ∈ sets ∧ x ∈ S')
  ∧ w = mjoin (snd <$> sets).
Proof.
  revert S w. induction sets as [|[[s|e] w1] rest IH]; intros S w; simpl.
  - intros [= <- <-]. split_and!; [constructor| |done].
    intros x. split; [set_solver|]. intros (? & ? & Hin & _). by inversion Hin.
  - destruct (from_sets rest) as [[t|e] w2] eqn:E; simpl; [|done].
    intros [= <- <-]. destruct (IH t w2 eq_refl) as (Hall & Hmem & ->).
    split_and!.
    + constructor; [by eexists _, _|done].
    + intros x. rewrite elem_of_union, Hmem. split.
      * intros [Hx|(S' & w' & Hin & Hx)].
        -- exists s, w1. split; [left|done].
        -- exists S', w'. split; [by right|done].
      * intros (S' & w' & Hin & Hx).
        apply elem_of_cons in Hin as [[= -> ->]|Hin]; [by left|].
        right. by exists S', w'.
    + by rewrite app_nil_r.
  - done.
Qed.

Lemma from_sets_total (sets : list (M ContextSet)) :
  Forall (λ m, ∃ S' w', m = (Ok S', w')) sets →
  ∃ S w, from_sets sets = (Ok S, w).
Proof.
  induction 1 as [|m rest (S' & w' & ->) _ (S & w & IH)]; simpl.
  - by eexists _, _.
  - rewrite IH. simpl. by eexists _, _.
Qed.

Lemma elem_of_pairs {A} (f : Context → Context → A) L R (a : A) :
  a ∈ (left ← iter evaluator L; right ← iter evaluator R; [f left right])
  ↔ ∃ l r, l ∈ L ∧ r ∈ R ∧ a = f l r.
Proof.
  rewrite list_elem_of_bind. setoid_rewrite list_elem_of_bind.
  setoid_rewrite list_elem_of_singleton. setoid_rewrite iter_elem_of.
  naive_solver.
Qed.

Lemma calculate_pairwise L operator R :
  L ≠ ∅ → R ≠ ∅ → size L * size R ≤ 6 →
  calculate evaluator context L operator R
  = from_sets (left ← iter evaluator L; right ← iter evaluator R;
               [_element_calculate evaluator context left operator right]).
Proof.
  intros HL HR Hsz. unfold calculate.
  apply truthy_true in HL, HR. rewrite HL, HR. simpl.
  destruct (Nat.ltb_spec 6 (size L * size R)); [lia|done].
Qed.

(** On two one-element sets, [calculate] is the evaluation of the pair. *)
Lemma calculate_singleton l operator r :
  calculate evaluator context {[l]} operator {[r]}
  = _element_calculate evaluator context l operator r.
Proof.
  rewrite calculate_pairwise.
  - rewrite !iter_singleton. simpl.
    destruct (_element_calculate _ _ _ _ _) as [[S|e] w]; simpl; [|done].
    by rewrite app_nil_r, (right_id_L ∅ (∪)).
  - set_solver.
  - set_solver.
  - rewrite !size_singleton. lia.
Qed.

(** C1 — When both operand sets are non-empty and the product of their
    sizes exceeds 6, [calculate] returns [literals_to_types] of their union
    for every operator and evaluates no pair: it emits no diagnostic and
    raises nothing.  When the product is at most 6, it evaluates every
    (left, right) pair and returns the union of the pairwise results with
    the diagnostics of all pairs: it returns exactly when every pair does,
    and a context is in the result exactly when it is in the result of
    some pair. *)
Theorem calculate_cost_bound L operator R :
  L ≠ ∅ → R ≠ ∅ →
  (6 < size L * size R →
     calculate evaluator context L operator R
     = (Ok (literals_to_types evaluator (L ∪ R)), []))
  ∧ (size L * size R ≤ 6 →
     ((∀ l r, l ∈ L → r ∈ R →
         ∃ S' w', _element_calculate evaluator context l operator r
                  = (Ok S', w')) →
      ∃ S w, calculate evaluator context L operator R = (Ok S, w))
     ∧ ∀ S w, calculate evaluator context L operator R = (Ok S, w) →
         (∀ l r, l ∈ L → r ∈ R →
            ∃ S' w', _element_calculate evaluator context l operator r
                     = (Ok S', w') ∧ S' ⊆ S)
         ∧ (∀ x, x ∈ S ↔
              ∃ l r S' w', l ∈ L ∧ r ∈ R
                ∧ _element_calculate evaluator context l operator r
                  = (Ok S', w')
                ∧ x ∈ S')
         ∧ w = mjoin (snd <$> (left ← iter evaluator L;
                               right ← iter evaluator R;
                               [_element_calculate evaluator context left
                                  operator right]))).
Proof.
  intros HL HR. split.
  - intros Hsz. unfold calculate.
    apply truthy_true in HL, HR. rewrite HL, HR. simpl.
    destruct (Nat.ltb_spec 6 (size L * size R)); [done|lia].
  - intros Hsz. rewrite calculate_pairwise by done. split.
    + intros Hall. apply from_sets_total, Forall_forall.
      intros m (l & r & Hl & Hr & ->)%elem_of_pairs. by apply Hall.
    + intros S w (Hall & Hmem & Hw)%from_sets_Ok. split_and!; [| |done].
      * intros l r Hl Hr. rewrite Forall_forall in Hall.
        destruct (Hall (_element_calculate evaluator context l operator r))
          as (S' & w' & E); [apply elem_of_pairs; eauto|].
        exists S', w'. split; [done|]. intros x Hx. apply Hmem.
        exists S', w'. split; [|done]. apply elem_of_pairs.
        by exists l, r.
      * intros x. rewrite Hmem. split.
        -- intros (S' & w' & (l & r & Hl & Hr & E)%elem_of_pairs & Hx).
           by exists l, r, S', w'.
        -- intros (l & r & S' & w' & Hl & Hr & E & Hx).
           exists S', w'. split; [|done]. apply elem_of_pairs.
           by exists l, r.
Qed.

Lemma or_NO_CONTEXTS_id S : or_NO_CONTEXTS S = S.
Proof.
  unfold or_NO_CONTEXTS, NO_CONTEXTS. destruct (truthy S) eqn:E; [done|].
  by apply truthy_false in E.
Qed.

(** C2 — When at least one operand set is empty, [calculate] returns, for
    every operator, [literals_to_types] of the union of the two sets, which
    is the widening of whichever side is not empty, and the empty set when
    both are.  It emits no diagnostic and raises nothing.  Widening
    replaces each literal by the instances of its builtin class and keeps
    every other context. *)
Theorem calculate_empty_operand L operator R :
  L = ∅ ∨ R = ∅ →
  calculate evaluator context L operator R
  = (Ok (literals_to_types evaluator (L ∪ R)), [])
  ∧ (L = ∅ → literals_to_types evaluator (L ∪ R)
             = literals_to_types evaluator R)
  ∧ (R = ∅ → literals_to_types evaluator (L ∪ R)
             = literals_to_types evaluator L)
  ∧ (L = ∅ → R = ∅ → literals_to_types evaluator (L ∪ R) = ∅)
  ∧ (∀ x, x ∈ literals_to_types evaluator (L ∪ R)
          ↔ ∃ typ, typ ∈ L ∪ R ∧ x ∈ widen evaluator typ).
Proof.
  intros Hempty. split_and!.
  - unfold calculate. rewrite !or_NO_CONTEXTS_id.
    destruct Hempty as [HL%truthy_false|HR%truthy_false].
    + by rewrite HL.
    + rewrite HR. by rewrite orb_true_r.
  - intros ->. by rewrite (left_id_L ∅ (∪)).
  - intros ->. by rewrite (right_id_L ∅ (∪)).
  - intros -> ->. rewrite (left_id_L ∅ (∪)). apply literals_to_types_empty.
  - intros x. apply elem_of_literals_to_types.
Qed.

(** The operators that are no comparison. *)
Lemma COMPARISON_OPERATORS_other operator o :
  COMPARISON_OPERATORS !! operator = Some o →
  operator ≠ "*" ∧ operator ≠ "+" ∧ operator ≠ "-" ∧ operator ≠ "%"
  ∧ operator ≠ "in".
Proof. intros Hop. split_and!; intros ->; by vm_compute in Hop. Qed.

Lemma sequence_not_compiled l :
  isinstance_AbstractSequence l = true →
  _is_number l = false ∧ is_string l = false.
Proof. by destruct l. Qed.

Lemma number_not_sequence c :
  _is_number c = true →
  is_string c = false ∧ _is_tuple c = false ∧ _is_list c = false.
Proof. destruct c as [[]| | | |]; by simpl. Qed.

(** The sum of two numbers exists unless an integer operand cannot be
    converted to a float. *)
Lemma float_of_int_cases (z : Z) :
  (∃ f, float_of_int z = Ok f) ∨ float_of_int z = Raise OverflowError.
Proof. unfold float_of_int. destruct (binary_normalize _ _ _ _ _); eauto. Qed.

Lemma py_add_number a b :
  isinstance_int_float a = true → isinstance_int_float b = true →
  (∃ v, py_add a b = Ok v) ∨ py_add a b = Raise OverflowError.
Proof.
  intros Ha Hb. unfold py_add.
  destruct a as [x|x|f| |], b as [y|y|g| |]; try done;
    unfold as_number, to_float; eauto;
    match goal with
    | |- context [float_of_int ?z] =>
        destruct (float_of_int_cases z) as [[? ->]| ->]; simpl; eauto
    end.
Qed.

(** C3 — For the operator [+], a pair of two literal numbers evaluates to
    exactly the one literal of their native sum, whenever Python computes
    that sum: it always does for two integers, and otherwise fails only
    with [OverflowError], on an integer beyond the range of a float, which
    the evaluation of the pair then raises;
    a pair of two literal strings evaluates to exactly the one literal of
    their concatenation; a pair of two tuples or of two lists evaluates to
    exactly one merged-sequence marker holding the two operands, which are
    not concatenated.  No diagnostic is emitted.  So [{lit 3} + {lit 4}] is
    [{lit 7}] and [{lit "a"} + {lit "b"}] is [{lit "ab"}]. *)
Theorem element_calculate_plus :
  (∀ a b v,
     isinstance_int_float a = true → isinstance_int_float b = true →
     py_add a b = Ok v →
     _element_calculate evaluator context (lit a) "+" (lit b)
     = (Ok {[lit v]}, []))
  ∧ (∀ m n : Z, py_add (PyInt m) (PyInt n) = Ok (PyInt (m + n)))
  ∧ (∀ a b,
       isinstance_int_float a = true → isinstance_int_float b = true →
       (∃ v, py_add a b = Ok v)
       ∨ (py_add a b = Raise OverflowError
          ∧ _element_calculate evaluator context (lit a) "+" (lit b)
            = (Raise OverflowError, [])))
  ∧ (∀ s t,
       _element_calculate evaluator context (lit (PyStr s)) "+" (lit (PyStr t))
       = (Ok {[lit (PyStr (s +:+ t))]}, []))
  ∧ (∀ l r,
       _is_tuple l && _is_tuple r || _is_list l && _is_list r = true →
       _element_calculate evaluator context l "+" r
       = (Ok {[MergedArray l r]}, []))
  ∧ calculate evaluator context {[lit (PyInt 3)]} "+" {[lit (PyInt 4)]}
    = (Ok {[lit (PyInt 7)]}, [])
  ∧ calculate evaluator context {[lit (PyStr "a")]} "+" {[lit (PyStr "b")]}
    = (Ok {[lit (PyStr "ab")]}, []).
Proof.
  assert (∀ a b v,
     isinstance_int_float a = true → isinstance_int_float b = true →
     py_add a b = Ok v →
     _element_calculate evaluator context (lit a) "+" (lit b)
     = (Ok {[lit v]}, [])) as Hnum.
  { intros a b v Ha Hb Hv. unfold _element_calculate, lit. simpl.
    rewrite Ha, Hb. simpl. by rewrite Hv. }
  assert (∀ s t,
     _element_calculate evaluator context (lit (PyStr s)) "+" (lit (PyStr t))
     = (Ok {[lit (PyStr (s +:+ t))]}, [])) as Hstr by done.
  split_and!; [done|done| |done| | |].
  - intros a b Ha Hb.
    destruct (py_add_number a b Ha Hb) as [[v Hv]|Hraise]; [by eauto|].
    right. split; [done|]. unfold _element_calculate, lit. simpl.
    rewrite Ha, Hb. simpl. by rewrite Hraise.
  - intros l r Hseq. unfold _element_calculate. simpl.
    assert (isinstance_AbstractSequence l = true
            ∧ isinstance_AbstractSequence r = true) as [Hl Hr].
    { unfold _is_tuple, _is_list in Hseq.
      destruct (isinstance_AbstractSequence l),
               (isinstance_AbstractSequence r);
        simpl in Hseq; rewrite ?andb_false_r in Hseq; by simpl in Hseq. }
    destruct (sequence_not_compiled l Hl) as [-> ->].
    destruct (sequence_not_compiled r Hr) as [-> ->]. simpl.
    by rewrite Hseq.
  - rewrite calculate_singleton. by apply Hnum.
  - rewrite calculate_singleton. apply Hstr.
Qed.

(** C4, as the code has it — Whenever no pairwise rule applies to a pair,
    its evaluation returns the set of the two untouched operands and raises
    nothing.  It emits exactly one diagnostic, of kind
    [type-error-operation], when the operator is [+] or [-], exactly one
    side is a literal number and neither side is a compiled instance of
    [int] or [float]; otherwise it emits none.  With [+] or [-] and exactly
    one literal number, no rule applies.  So [{lit 3} + {lit "b"}] yields
    both operands unchanged and exactly one such diagnostic. *)
Theorem element_calculate_fallback :
  (∀ l operator r,
     rule_applies l operator r = false →
     _element_calculate evaluator context l operator r
     = (Ok {[l; r]},
        if reported l operator r
        then [type_error_operation context l operator r] else []))
  ∧ (∀ l operator r,
       operator = "+" ∨ operator = "-" →
       _is_number l ≠ _is_number r →
       rule_applies l operator r = false
       ∧ reported l operator r = negb (check l || check r))
  ∧ calculate evaluator context {[lit (PyInt 3)]} "+" {[lit (PyStr "b")]}
    = (Ok {[lit (PyInt 3); lit (PyStr "b")]},
       [type_error_operation context (lit (PyInt 3)) "+" (lit (PyStr "b"))]).
Proof.
  assert (∀ l operator r,
     rule_applies l operator r = false →
     _element_calculate evaluator context l operator r
     = (Ok {[l; r]},
        if reported l operator r
        then [type_error_operation context l operator r] else [])) as Hfall.
  { intros l operator r. unfold rule_applies, _element_calculate, reported.
    destruct (decide (operator = "*")) as [->|Hmul].
    { simpl. destruct (isinstance_AbstractSequence l), (is_string l),
        (isinstance_AbstractSequence r), (is_string r); by simpl. }
    destruct (decide (operator = "+")) as [->|Hadd].
    { simpl. destruct (_is_number l), (_is_number r),
        (is_string l), (is_string r),
        (_is_tuple l), (_is_tuple r), (_is_list l), (_is_list r);
        simpl; try done; by destruct (check l), (check r). }
    destruct (decide (operator = "-")) as [->|Hsub].
    { simpl. destruct (_is_number l), (_is_number r);
        simpl; try done; by destruct (check l), (check r). }
    rewrite (bool_decide_eq_false_2 (operator = "+")),
      (bool_decide_eq_false_2 (operator = "-")) by done.
    simpl.
    destruct (decide (operator = "%")) as [->|Hmod]; [done|].
    rewrite (bool_decide_eq_false_2 (operator = "%")) by done.
    destruct (COMPARISON_OPERATORS !! operator) as [o|] eqn:E.
    { by rewrite bool_decide_eq_true_2 by eauto. }
    rewrite bool_decide_eq_false_2 by (by intros [? ?]).
    simpl. case_bool_decide; [done|]. intros _. by case_decide. }
  split_and!; [done| |].
  - intros l operator r Hop Hnum. unfold rule_applies, reported.
    destruct (_is_number l) eqn:El, (_is_number r) eqn:Er; try done.
    + destruct (number_not_sequence l El) as (-> & -> & ->).
      destruct Hop as [-> | ->]; simpl; by rewrite ?andb_false_r.
    + destruct (number_not_sequence r Er) as (-> & -> & ->).
      destruct Hop as [-> | ->]; simpl; by rewrite ?andb_false_r.
  - rewrite calculate_singleton. by rewrite Hfall.
Qed.

(** C5 — For a comparison operator, a pair of two compiled objects is
    compared natively.  When the native comparison returns, the result is
    exactly the one literal of the boolean it returns; when it raises
    [TypeError], because the operand kinds are not ordered, the result is
    exactly the two literals [True] and [False]; the native comparison does
    nothing else.  For every pair, compiled or not, the evaluation returns
    one of these two results, emits no diagnostic and lets no exception
    through. *)
Theorem element_calculate_comparison operator o :
  COMPARISON_OPERATORS !! operator = Some o →
  (∀ a b,
     (∀ v, py_operation (is_ evaluator) o a b = Ok v →
           _element_calculate evaluator context (lit a) operator (lit b)
           = (Ok {[lit (PyBool v)]}, []))
     ∧ (py_operation (is_ evaluator) o a b = Raise TypeError →
        _element_calculate evaluator context (lit a) operator (lit b)
        = (Ok {[lit (PyBool true); lit (PyBool false)]}, []))
     ∧ ((∃ v, py_operation (is_ evaluator) o a b = Ok v)
        ∨ py_operation (is_ evaluator) o a b = Raise TypeError))
  ∧ (∀ l r, ∃ S,
       _element_calculate evaluator context l operator r = (Ok S, [])
       ∧ ((∃ v, S = {[lit (PyBool v)]})
          ∨ S = {[lit (PyBool true); lit (PyBool false)]}))
  ∧ size ({[lit (PyBool true); lit (PyBool false)]} : ContextSet) = 2.
Proof.
  intros Hop.
  destruct (COMPARISON_OPERATORS_other _ _ Hop) as (?&?&?&?&?).
  assert (∀ l r,
    _element_calculate evaluator context l operator r
    = match
        match l, r with
        | CompiledObject a, CompiledObject b =>
            py_operation (is_ evaluator) o a b
        | _, _ => context_operation o l r
        end
      with
      | Raise TypeError =>
          ret {[create evaluator (PyBool true);
                create evaluator (PyBool false)]}
      | Raise e => lift (Raise e)
      | Ok result => ret {[create evaluator (PyBool result)]}
      end) as Hdef.
  { intros l r. unfold _element_calculate.
    repeat case_decide; try done. by rewrite Hop. }
  assert (∀ a b, (∃ v, py_operation (is_ evaluator) o a b = Ok v)
                 ∨ py_operation (is_ evaluator) o a b = Raise TypeError)
    as Hnative.
  { intros a b. unfold py_operation.
    destruct o; eauto; destruct (py_compare a b); eauto. }
  assert (∀ l r, (∃ v, context_operation o l r = Ok v)
                 ∨ context_operation o l r = Raise TypeError) as Hcontext.
  { intros l r. destruct o; simpl; eauto. }
  split_and!.
  - intros a b. split_and!; [| |done].
    + intros v Hv. rewrite Hdef. unfold lit. by rewrite Hv.
    + intros Hraise. rewrite Hdef. unfold lit. by rewrite Hraise.
  - intros l r. rewrite Hdef.
    assert ((∃ v, match l, r with
                  | CompiledObject a, CompiledObject b =>
                      py_operation (is_ evaluator) o a b
                  | _, _ => context_operation o l r
                  end = Ok v)
            ∨ match l, r with
              | CompiledObject a, CompiledObject b =>
                  py_operation (is_ evaluator) o a b
              | _, _ => context_operation o l r
              end = Raise TypeError) as [[v ->]| ->].
    { destruct l, r; auto. }
    + eexists. split; [done|]. left. by exists v.
    + eexists. split; [done|]. by right.
  - rewrite size_union, !size_singleton; [done|]. set_solver.
Qed.

(** Once an operand of unknown truth value is met, [not] yields nothing
    more: the generator returns. *)
Lemma factor_calculate_gen_uncertain typ rest :
  py__bool__ evaluator typ = None →
  factor_calculate_gen evaluator (typ :: rest) "not" = Ok [].
Proof. intros Hb. simpl. by rewrite Hb. Qed.

(** Unary minus negates the literal numbers and drops every other
    operand. *)
Lemma factor_calculate_gen_minus types :
  factor_calculate_gen evaluator types "-"
  = Ok (omap (λ typ, match typ with
                     | CompiledObject o =>
                         match py_neg o with
                         | Ok v => Some (lit v)
                         | Raise _ => None
                         end
                     | _ => None
                     end) types).
Proof.
  induction types as [|typ rest IH]; [done|]. simpl. rewrite IH.
  destruct typ as [o| | | |]; try done. by destruct o.
Qed.

(** The operators other than [-] and [not] pass every operand through. *)
Lemma factor_calculate_gen_other types operator :
  operator ≠ "-" → operator ≠ "not" →
  factor_calculate_gen evaluator types operator = Ok types.
Proof.
  intros Hm Hn. induction types as [|typ rest IH]; [done|]. simpl.
  repeat case_decide; try done. by rewrite IH.
Qed.

End Facts.

(** C4, as stated, fails on the code — No pairwise rule applies to
    [lit 3 / lit 4]; and exactly one side of [lit "a" + c] is a literal
    string, for a context [c] that is no literal and no instance of [int]
    or [float], a pair to which no rule applies either.  Both pairs
    evaluate to the two untouched operands, and neither is reported: the
    evaluation emits no diagnostic, so not exactly one. *)
Lemma element_calculate_unreported :
  (rule_applies (lit (PyInt 3)) "/" (lit (PyInt 4)) = false
   ∧ _element_calculate example_evaluator (TreeContext 0)
       (lit (PyInt 3)) "/" (lit (PyInt 4))
     = (Ok {[lit (PyInt 3); lit (PyInt 4)]}, [])
   ∧ ¬ ∃ issue,
         snd (_element_calculate example_evaluator (TreeContext 0)
                (lit (PyInt 3)) "/" (lit (PyInt 4))) = [issue])
  ∧ (is_literal (lit (PyStr "a")) = true
     ∧ is_literal (TreeContext 1) = false
     ∧ check (lit (PyStr "a")) || check (TreeContext 1) = false
     ∧ rule_applies (lit (PyStr "a")) "+" (TreeContext 1) = false
     ∧ _element_calculate example_evaluator (TreeContext 0)
         (lit (PyStr "a")) "+" (TreeContext 1)
       = (Ok {[lit (PyStr "a"); TreeContext 1]}, [])
     ∧ ¬ ∃ issue,
           snd (_element_calculate example_evaluator (TreeContext 0)
                  (lit (PyStr "a")) "+" (TreeContext 1)) = [issue]).
Proof. split; split_and!; try done; by intros [issue Hissue]. Qed.

(** C9, on the code — With the operator [not], an operand of unknown truth
    value ends the whole evaluation.  On the set of a context [c] of
    unknown truth value and the literal [True], whose truth value is known:
    visited with [c] first, the set yields nothing, so that [True] is left
    without its negation; visited with [True] first, it yields the literal
    [False].  The result of [factor_calculate] depends on the order in
    which the set is visited. *)
Theorem factor_calculate_not_returns_early :
  py__bool__ example_evaluator (TreeContext 0) = None
  ∧ py__bool__ example_evaluator (lit (PyBool true)) = Some true
  ∧ iter example_evaluator {[TreeContext 0; lit (PyBool true)]}
    = [TreeContext 0; lit (PyBool true)]
  ∧ factor_calculate example_evaluator
      {[TreeContext 0; lit (PyBool true)]} "not" = Ok ∅
  ∧ iter reversed_evaluator {[TreeContext 0; lit (PyBool true)]}
    = [lit (PyBool true); TreeContext 0]
  ∧ factor_calculate reversed_evaluator
      {[TreeContext 0; lit (PyBool true)]} "not" = Ok {[lit (PyBool false)]}.
Proof. by split_and!. Qed.

(** ** The theorems at concrete operands *)

Lemma calculate_cost_bound_witness :
  (three_operands ≠ ∅ ∧ 6 < size three_operands * size three_operands)
  ∧ calculate example_evaluator (TreeContext 0)
      three_operands "+" three_operands
    = (Ok (literals_to_types example_evaluator
             (three_operands ∪ three_operands)), []).
Proof.
  assert (three_operands ≠ ∅) as Hne by (intros Heq; by vm_compute in Heq).
  assert (6 < size three_operands * size three_operands) as Hsz
    by (vm_compute; lia).
  split; [done|].
  exact (proj1 (calculate_cost_bound example_evaluator (TreeContext 0)
                  three_operands "+" three_operands Hne Hne) Hsz).
Defined.

Lemma calculate_empty_operand_witness :
  calculate example_evaluator (TreeContext 0) ∅ "+" {[lit (PyInt 4)]}
  = (Ok (literals_to_types example_evaluator (∅ ∪ {[lit (PyInt 4)]})), []).
Proof.
  exact (proj1 (calculate_empty_operand example_evaluator (TreeContext 0)
                  ∅ "+" {[lit (PyInt 4)]} (or_introl eq_refl))).
Defined.

Lemma element_calculate_plus_witness :
  py_add (PyInt 3) (PyFloat (S754_finite false 1 (-1)))
  = Ok (PyFloat (S754_finite false 7881299347898368 (-51)))
  ∧ _element_calculate example_evaluator (TreeContext 0)
      (lit (PyInt 3)) "+" (lit (PyFloat (S754_finite false 1 (-1))))
    = (Ok {[lit (PyFloat (S754_finite false 7881299347898368 (-51)))]}, []).
Proof.
  split; [reflexivity|].
  exact (proj1 (element_calculate_plus example_evaluator (TreeContext 0))
           (PyInt 3) (PyFloat (S754_finite false 1 (-1))) _
           eq_refl eq_refl eq_refl).
Defined.

Lemma element_calculate_fallback_witness :
  rule_applies (lit (PyInt 3)) "-" (TreeContext 1) = false
  ∧ _element_calculate example_evaluator (TreeContext 0)
      (lit (PyInt 3)) "-" (TreeContext 1)
    = (Ok {[lit (PyInt 3); TreeContext 1]},
       [type_error_operation (TreeContext 0) (lit (PyInt 3)) "-"
          (TreeContext 1)]).
Proof.
  split; [reflexivity|].
  exact (proj1 (element_calculate_fallback example_evaluator (TreeContext 0))
           (lit (PyInt 3)) "-" (TreeContext 1) eq_refl).
Defined.

Lemma element_calculate_comparison_witness :
  COMPARISON_OPERATORS !! "<" = Some op_lt
  ∧ py_operation (is_ example_evaluator) op_lt (PyInt 3) (PyStr "b")
    = Raise TypeError
  ∧ _element_calculate example_evaluator (TreeContext 0)
      (lit (PyInt 3)) "<" (lit (PyStr "b"))
    = (Ok {[lit (PyBool true); lit (PyBool false)]}, []).
Proof.
  assert (COMPARISON_OPERATORS !! "<" = Some op_lt) as Hop by reflexivity.
  split_and!; [done|reflexivity|].
  exact (proj1 (proj2 (proj1 (element_calculate_comparison example_evaluator
                                (TreeContext 0) "<" op_lt Hop)
                         (PyInt 3) (PyStr "b"))) eq_refl).
Defined.

End PrecedenceFacts.

(** * Properties of [compiled/context.py] *)

Module CompiledFacts.
Import Compiled.

Section Facts.
Context {access : Type} `{Countable access} `{!Reflection access}.
Implicit Types (self : CompiledObjectFilter access) (name : string).

(** What [_get] does with the answer [(has_attribute, is_descriptor)] of
    the handle. *)
Lemma _get_cases self name (has_attribute is_descriptor : bool)
    (dir : list string) (check_has_attribute : bool) :
  _get self name (λ _, (has_attribute, is_descriptor)) (λ _, dir)
    check_has_attribute
  = if has_attribute then
      if is_descriptor then [EmptyCompiledName name]
      else if filter_is_instance self && negb (bool_decide (name ∈ dir))
           then []
           else [CompiledName (_compiled_object self) name]
    else if check_has_attribute then []
    else [EmptyCompiledName name].
Proof.
  unfold _get, _get_cached_name, _create_name, force_unicode.
  by destruct has_attribute, is_descriptor, check_has_attribute.
Qed.

Lemma get_eq self name :
  get self name
  = _get self name
      (λ _, ((access_is_allowed_getattr
                (access_handle (_compiled_object self)) name).1,
             (access_is_allowed_getattr
                (access_handle (_compiled_object self)) name).2))
      (λ _, access_dir (access_handle (_compiled_object self))) true.
Proof.
  unfold get, _get.
  by destruct (access_is_allowed_getattr _ name).
Qed.

(** C8 — [CompiledObjectFilter.get] looks an attribute up in
    [check_has_attribute] mode.  When the handle reports that the attribute
    does not exist, the result is the empty list.  When the handle reports
    an attribute that exists and is a descriptor, the result is exactly one
    name, the marker [EmptyCompiledName] of that attribute, and [infer] of
    the marker is the empty set.  [get] is a total function: no exception
    is raised. *)
Theorem get_check_has_attribute self name :
  let handle := access_handle (_compiled_object self) in
  (∀ is_descriptor,
     access_is_allowed_getattr handle name = (false, is_descriptor) →
     get self name = [])
  ∧ (access_is_allowed_getattr handle name = (true, true) →
     get self name = [EmptyCompiledName name]
     ∧ infer (EmptyCompiledName name) = ∅).
Proof.
  intros handle. split.
  - intros d Hget. rewrite get_eq. fold handle. rewrite Hget.
    by rewrite _get_cases.
  - intros Hget. rewrite get_eq. fold handle. rewrite Hget.
    by rewrite _get_cases.
Qed.

End Facts.
(** ** The theorem at a concrete object *)

Lemma get_check_has_attribute_witness :
  (access_is_allowed_getattr "obj" "nope" = (false, false)
   ∧ get example_filter "nope" = [])
  ∧ (access_is_allowed_getattr "obj" "prop" = (true, true)
     ∧ get example_filter "prop" = [EmptyCompiledName "prop"]
     ∧ infer (EmptyCompiledName (access:=string) "prop") = ∅).
Proof.
  split.
  - split; [reflexivity|].
    exact (proj1 (get_check_has_attribute example_filter "nope")
             false eq_refl).
  - split; [reflexivity|].
    exact (proj2 (get_check_has_attribute example_filter "prop") eq_refl).
Defined.

End CompiledFacts.

(** * Properties of [gradual/conversion.py] *)

Module ConversionFacts.
Import Compiled Conversion.
Local Open Scope nat_scope.

Section Facts.
Context {access : Type} `{Countable access} `{!Reflection access}.
Context {foreign : Type} `{Countable foreign}.
Context {NameDefinition : Type}.
Context `{!Engine access foreign NameDefinition}.
Implicit Types (c : Context access foreign) (n : NameDefinition).
Implicit Types (S : gset (Context access foreign)).

Lemma resolver_truthy_false S : truthy S = false ↔ S = ∅.
Proof. unfold truthy. case_bool_decide; naive_solver. Qed.

Lemma resolver_truthy_true S : truthy S = true ↔ S ≠ ∅.
Proof. unfold truthy. case_bool_decide; naive_solver. Qed.

(** The guard of [stub_to_actual_context_set]. *)
Lemma stub_to_actual_not_stub c (ignore_compiled : bool) :
  is_stub (get_root_context c) = false →
  stub_to_actual_context_set c ignore_compiled = Ok {[c]}.
Proof. intros Hroot. unfold stub_to_actual_context_set. by rewrite Hroot. Qed.

(** The guard of [to_stub]. *)
Lemma to_stub_stub c : is_stub c = true → to_stub c = Ok {[c]}.
Proof. intros Hstub. unfold to_stub. by rewrite Hstub. Qed.

(** C6 — [stub_to_actual_context_set] returns exactly the one-element set
    of its argument when the root module of the argument is not a stub, and
    [to_stub] returns exactly the one-element set of its argument when the
    argument is a stub. *)
Theorem conversion_identity c (ignore_compiled : bool) :
  (is_stub (get_root_context c) = false →
   stub_to_actual_context_set c ignore_compiled = Ok {[c]})
  ∧ (is_stub c = true → to_stub c = Ok {[c]}).
Proof. split; [apply stub_to_actual_not_stub|apply to_stub_stub]. Qed.

(** C10 — Every [CompiledObject] answers [is_compiled()] with [True] and
    [is_stub()] with [False], whatever its access handle and its parent
    context; so does a method call on it from the resolver.  Hence
    [stub_to_actual_context_set] returns every context whose root module is
    a compiled object unchanged, as a one-element set. *)
Theorem compiled_object_never_stub (handle : access)
    (parent : option (CompiledObject access)) :
  let module := create_cached_compiled_object handle parent in
  Compiled.is_compiled module = true
  ∧ Compiled.is_stub module = false
  ∧ is_compiled (Compiled module) = true
  ∧ is_stub (Compiled module) = false
  ∧ ∀ c (ignore_compiled : bool),
      get_root_context c = Compiled module →
      stub_to_actual_context_set c ignore_compiled = Ok {[c]}.
Proof.
  intros module. split_and!; try done.
  intros c ic Hroot. apply stub_to_actual_not_stub. by rewrite Hroot.
Qed.

Lemma resolver_from_sets_Ok (sets : list (result (gset (Context access foreign)))) S :
  from_sets sets = Ok S →
  ∀ x, x ∈ S ↔ ∃ S', Ok S' ∈ sets ∧ x ∈ S'.
Proof.
  revert S. induction sets as [|[s|e] rest IH]; intros S; simpl.
  - intros [= <-] x. split; [set_solver|].
    intros (? & Hin & _). by inversion Hin.
  - destruct (from_sets rest) as [t|e] eqn:E; simpl; [|done].
    intros [= <-] x. rewrite elem_of_union, (IH t eq_refl). split.
    + intros [Hx|(S' & Hin & Hx)].
      * exists s. split; [left|done].
      * exists S'. split; [by right|done].
    + intros (S' & Hin & Hx).
      apply elem_of_cons in Hin as [[= ->]|Hin]; [by left|].
      right. by exists S'.
  - done.
Qed.

Lemma resolver_from_sets_total (sets : list (result (gset (Context access foreign)))) :
  Forall (λ r, ∃ S', r = Ok S') sets → ∃ S, from_sets sets = Ok S.
Proof.
  induction 1 as [|r rest (S' & ->) _ (S & IH)]; simpl.
  - by eexists.
  - rewrite IH. simpl. by eexists.
Qed.

Lemma contribution_elem S c : ∃ x, x ∈ contribution S c.
Proof.
  unfold contribution. destruct (truthy S) eqn:E.
  - apply resolver_truthy_true in E. by apply set_choose_L.
  - exists c. set_solver.
Qed.

Lemma try_stub_to_actual_name_nonempty n (prefer : bool) xs :
  try_stub_to_actual_name n prefer = Ok xs → xs ≠ [].
Proof.
  unfold try_stub_to_actual_name.
  destruct (negb (is_stub (name_get_root_context n))); [by intros [= <-]|].
  destruct (actual_contexts n prefer) as [cs|e]; simpl; [|done].
  destruct (truthy cs) eqn:Ecs; [|by intros [= <-]].
  destruct (name_get_qualified_names n ≫= last) as [last_name|].
  - intros [= <-].
    by destruct (ContextSet_py__getattribute__goto cs last_name).
  - intros [= <-]. apply resolver_truthy_true in Ecs.
    apply set_choose_L in Ecs as [x Hx].
    apply elem_of_elements in Hx.
    destruct (elements cs); [by inversion Hx|done].
Qed.

Lemma try_stub_to_actual_names_Ok (names : list NameDefinition)
    (prefer : bool) ns :
  try_stub_to_actual_names names prefer = Ok ns →
  ∀ n, n ∈ names →
    ∃ xs, try_stub_to_actual_name n prefer = Ok xs ∧ xs ⊆ ns.
Proof.
  revert ns. induction names as [|m rest IH]; intros ns; simpl.
  - intros _ n Hn. by inversion Hn.
  - destruct (try_stub_to_actual_name m prefer) as [xs|e] eqn:Em;
      simpl; [|done].
    destruct (try_stub_to_actual_names rest prefer) as [ys|e] eqn:Er;
      simpl; [|done].
    intros [= <-] n [->|Hn]%elem_of_cons.
    + exists xs. split; [done|]. set_solver.
    + destruct (IH ys eq_refl n Hn) as (xs' & Hxs & Hsub).
      exists xs'. split; [done|]. set_solver.
Qed.

Lemma try_stub_to_actual_names_total (names : list NameDefinition)
    (prefer : bool) :
  (∀ n, n ∈ names → ∃ xs, try_stub_to_actual_name n prefer = Ok xs) →
  ∃ ns, try_stub_to_actual_names names prefer = Ok ns.
Proof.
  induction names as [|m rest IH]; intros Hall; simpl; [by eexists|].
  destruct (Hall m) as [xs ->]; [left|].
  destruct IH as [ys ->]; [intros n Hn; apply Hall; by right|].
  simpl. by eexists.
Qed.

Lemma try_stub_to_actual_name_total n (prefer : bool) :
  (is_stub (name_get_root_context n) = true →
   is_Some (non_stub_context_set (name_get_root_context n))) →
  ∃ xs, try_stub_to_actual_name n prefer = Ok xs.
Proof.
  intros Hmodule. unfold try_stub_to_actual_name, actual_contexts.
  destruct (is_stub (name_get_root_context n)) eqn:Es; simpl; [|by eexists].
  destruct (Hmodule eq_refl) as [non_stubs Hns].
  unfold _infer_from_stub. rewrite Hns.
  destruct (name_get_qualified_names n) as [name_list|]; simpl.
  - destruct (truthy _); [|by eexists].
    destruct (last name_list); by eexists.
  - by eexists.
Qed.

Lemma try_stub_to_actual_name_fallback n (prefer : bool) :
  resolves_to_nothing n prefer →
  try_stub_to_actual_name n prefer = Ok [n].
Proof.
  intros (Hs & cs & Hcs & Hnone). unfold try_stub_to_actual_name.
  rewrite Hs, Hcs. simpl. destruct Hnone as [->|(last_name & -> & ->)].
  - by rewrite (proj2 (resolver_truthy_false ∅) eq_refl).
  - by destruct (truthy cs).
Qed.

(** C7 — The tolerant wrappers never return an empty result for a
    non-empty input.  [try_stubs_to_actual_context_set] returns when the
    conversion of every stub context does, and its result is then not
    empty, holds all that every stub context converts to, and holds the
    stub context itself whenever it converts to nothing.
    [try_stub_to_actual_names] returns when every stub module among the
    roots is a stub module context, and its result is then not empty and
    holds the original name of every stub name whose actual side yields
    nothing. *)
Theorem try_stub_to_actual_never_empty (prefer : bool) :
  (∀ stub_contexts : list (Context access foreign),
     stub_contexts ≠ [] →
     ((∀ c, c ∈ stub_contexts →
           ∃ S', stub_to_actual_context_set c prefer = Ok S') →
      ∃ S, try_stubs_to_actual_context_set stub_contexts prefer = Ok S)
     ∧ ∀ S, try_stubs_to_actual_context_set stub_contexts prefer = Ok S →
         S ≠ ∅
         ∧ (∀ c, c ∈ stub_contexts →
              ∃ S', stub_to_actual_context_set c prefer = Ok S' ∧ S' ⊆ S)
         ∧ (∀ c, c ∈ stub_contexts →
              stub_to_actual_context_set c prefer = Ok ∅ → c ∈ S))
  ∧ (∀ names : list NameDefinition,
       names ≠ [] →
       ((∀ n, n ∈ names →
            is_stub (name_get_root_context n) = true →
            is_Some (non_stub_context_set (name_get_root_context n))) →
        ∃ ns, try_stub_to_actual_names names prefer = Ok ns)
       ∧ ∀ ns, try_stub_to_actual_names names prefer = Ok ns →
           ns ≠ []
           ∧ (∀ n, n ∈ names → resolves_to_nothing n prefer → n ∈ ns)).
Proof.
  split.
  - intros stub_contexts Hne. unfold try_stubs_to_actual_context_set. split.
    + intros Hall. apply resolver_from_sets_total, Forall_forall.
      intros r (c & -> & Hc)%list_elem_of_fmap.
      destruct (Hall c Hc) as [S' ->]. simpl. by eexists.
    + intros S HS. pose proof (resolver_from_sets_Ok _ _ HS) as Hmem.
      assert (∀ c, c ∈ stub_contexts →
                ∃ S', stub_to_actual_context_set c prefer = Ok S'
                      ∧ contribution S' c ⊆ S) as Hcontrib.
      { intros c Hc.
        destruct (stub_to_actual_context_set c prefer) as [S'|e] eqn:Ec.
        - exists S'. split; [done|]. intros x Hx. apply Hmem.
          exists (contribution S' c). split; [|done].
          apply list_elem_of_fmap. exists c. split; [|done].
          by rewrite Ec.
        - exfalso. clear Hmem. revert S HS.
          induction stub_contexts as [|d rest IH]; intros S HS;
            [by inversion Hc|].
          simpl in HS. apply elem_of_cons in Hc as [<-|Hc].
          + by rewrite Ec in HS.
          + destruct (stub_to_actual_context_set d prefer); [|done].
            simpl in HS. destruct (from_sets _) eqn:Er; [|done].
            destruct rest; [by inversion Hc|]. by eapply IH. }
      split_and!.
      * destruct stub_contexts as [|c rest]; [done|].
        destruct (Hcontrib c) as (S' & _ & Hsub); [left|].
        destruct (contribution_elem S' c) as [x Hx]. set_solver.
      * intros c Hc. destruct (Hcontrib c Hc) as (S' & HS' & Hsub).
        exists S'. split; [done|]. unfold contribution in Hsub.
        destruct (truthy S') eqn:E; [done|].
        apply resolver_truthy_false in E as ->. set_solver.
      * intros c Hc Hempty. destruct (Hcontrib c Hc) as (S' & HS' & Hsub).
        rewrite Hempty in HS'. injection HS' as <-.
        unfold contribution in Hsub.
        rewrite (proj2 (resolver_truthy_false ∅) eq_refl) in Hsub. set_solver.
  - intros names Hne. split.
    + intros Hall. apply try_stub_to_actual_names_total.
      intros n Hn. apply try_stub_to_actual_name_total. by apply Hall.
    + intros ns Hns.
      pose proof (try_stub_to_actual_names_Ok _ _ _ Hns) as Hmem. split.
      * destruct names as [|n rest]; [done|].
        destruct (Hmem n) as (xs & Hxs & Hsub); [left|].
        apply try_stub_to_actual_name_nonempty in Hxs.
        destruct xs as [|x xs]; [done|]. intros ->.
        specialize (Hsub x). rewrite elem_of_nil in Hsub. apply Hsub. left.
      * intros n Hn Hnothing. destruct (Hmem n Hn) as (xs & Hxs & Hsub).
        rewrite (try_stub_to_actual_name_fallback n prefer Hnothing) in Hxs.
        injection Hxs as <-. apply Hsub. left.
Qed.

End Facts.
(** ** The theorems in a concrete session *)

Lemma conversion_identity_witness :
  (is_stub (get_root_context actual_C) = false
   ∧ stub_to_actual_context_set actual_C false = Ok {[actual_C]})
  ∧ (is_stub stub_C = true ∧ to_stub stub_C = Ok {[stub_C]}).
Proof.
  split.
  - split; [reflexivity|].
    exact (proj1 (conversion_identity actual_C false) eq_refl).
  - split; [reflexivity|].
    exact (proj2 (conversion_identity stub_C false) eq_refl).
Defined.

Lemma compiled_object_never_stub_witness :
  let builtins := create_cached_compiled_object "builtins" None in
  let int := Compiled (create_cached_compiled_object "int" (Some builtins)) in
  get_root_context int = Compiled builtins
  ∧ stub_to_actual_context_set int true = Ok {[int]}.
Proof.
  intros builtins int. split; [reflexivity|].
  exact (proj2 (proj2 (proj2 (proj2
           (compiled_object_never_stub "builtins" None)))) int true eq_refl).
Defined.

(** The function [g] of the stub has no actual counterpart; the class [C]
    has one. *)
Lemma try_stub_to_actual_never_empty_witness :
  ([stub_g; stub_C] ≠ []
   ∧ stub_to_actual_context_set stub_g false = Ok ∅
   ∧ try_stubs_to_actual_context_set [stub_g; stub_C] false
     = Ok {[stub_g; actual_C]}
   ∧ ({[stub_g; actual_C]} : gset (Context string nat)) ≠ ∅
   ∧ stub_g ∈ ({[stub_g; actual_C]} : gset (Context string nat)))
  ∧ (resolves_to_nothing stub_g false
     ∧ try_stub_to_actual_names [stub_g; stub_C] false
       = Ok [stub_g; actual_C]
     ∧ [stub_g; actual_C] ≠ ([] : list (Context string nat))
     ∧ stub_g ∈ [stub_g; actual_C]).
Proof.
  assert ([stub_g; stub_C] ≠ ([] : list (Context string nat)))
    as Hne by discriminate.
  assert (try_stubs_to_actual_context_set [stub_g; stub_C] false
          = Ok {[stub_g; actual_C]}) as Hcontexts by reflexivity.
  assert (try_stub_to_actual_names [stub_g; stub_C] false
          = Ok [stub_g; actual_C]) as Hnames by reflexivity.
  assert (resolves_to_nothing stub_g false) as Hnothing.
  { split; [reflexivity|]. exists {[Foreign 2 : Context string nat]}. split; [reflexivity|].
    right. exists "g". split; reflexivity. }
  pose proof (proj2 (proj1 (try_stub_to_actual_never_empty false)
                       [stub_g; stub_C] Hne) _ Hcontexts)
    as (Hnonempty & _ & Hfallback).
  pose proof (proj2 (proj2 (try_stub_to_actual_never_empty false)
                       [stub_g; stub_C] Hne) _ Hnames)
    as (Hnonempty' & Hfallback').
  split.
  - split_and!; [done|reflexivity|done|done|].
    apply Hfallback; [left|reflexivity].
  - split_and!; [done|done|done|].
    apply Hfallback'; [left|done].
Defined.

End ConversionFacts.

(** * Further properties of [precedence.py] *)

Module PrecedenceLaws.
Import Native Precedence PrecedenceVocabulary PrecedenceFacts.
Local Open Scope nat_scope.

Section Laws.
Context (evaluator : Evaluator) (context : Context).
Implicit Types (L R S : ContextSet) (l r x typ : Context) (operator : string).

Lemma length_iter S : length (iter evaluator S) = size S.
Proof.
  unfold size, set_size. simpl. apply Permutation_length, NoDup_Permutation.
  - apply iter_NoDup.
  - apply NoDup_elements.
  - intros x. by rewrite iter_elem_of, elem_of_elements.
Qed.

Lemma list_to_set_iter S : list_to_set (iter evaluator S) = S.
Proof.
  apply set_eq. intros x. by rewrite elem_of_list_to_set, iter_elem_of.
Qed.

(** What [from_sets] emits, whether it returns or raises. *)
Lemma from_sets_diagnostics (sets : list (M ContextSet)) (issue : Issue) :
  issue ∈ snd (from_sets sets) → ∃ m, m ∈ sets ∧ issue ∈ snd m.
Proof.
  induction sets as [|[[s|e] w1] rest IH]; simpl.
  - intros Hin. by inversion Hin.
  - destruct (from_sets rest) as [[t|e] w2]; simpl in *.
    + rewrite app_nil_r. intros [Hin|Hin]%elem_of_app.
      * eexists. split; [left|done].
      * destruct (IH Hin) as (m & Hm & Hi). exists m. split; [by right|done].
    + intros [Hin|Hin]%elem_of_app.
      * eexists. split; [left|done].
      * destruct (IH Hin) as (m & Hm & Hi). exists m. split; [by right|done].
  - intros Hin. eexists. split; [left|done].
Qed.

Lemma from_sets_diagnostics_length (sets : list (M ContextSet)) (n : nat) :
  Forall (λ m, length (snd m) ≤ n) sets →
  length (snd (from_sets sets)) ≤ length sets * n.
Proof.
  induction 1 as [|[[s|e] w1] rest Hm _ IH]; simpl in *; [lia| |lia].
  destruct (from_sets rest) as [[t|e] w2]; simpl in *;
    rewrite ?app_nil_r, ?length_app; lia.
Qed.


Lemma length_pairs {A} (f : Context → Context → A) L R :
  length (left ← iter evaluator L; right ← iter evaluator R; [f left right])
  = size L * size R.
Proof.
  rewrite <-!length_iter.
  induction (iter evaluator L) as [|l ls IH]; [done|].
  rewrite bind_cons, length_app, IH. simpl. f_equal. clear IH.
  induction (iter evaluator R) as [|r rs IHr]; [done|].
  rewrite bind_cons. simpl. by rewrite IHr.
Qed.

(** The one thing a pair can emit. *)
Lemma element_calculate_diagnostics l operator r :
  snd (_element_calculate evaluator context l operator r)
  = if negb (rule_applies l operator r) && reported l operator r
    then [type_error_operation context l operator r] else [].
Proof.
  unfold rule_applies, _element_calculate, reported.
  destruct (decide (operator = "*")) as [->|Hmul].
  { simpl. destruct (isinstance_AbstractSequence l), (is_string l),
      (isinstance_AbstractSequence r), (is_string r); by simpl. }
  destruct (decide (operator = "+")) as [->|Hadd].
  { simpl. destruct (_is_number l) eqn:El, (_is_number r) eqn:Er;
      destruct (is_string l) eqn:Sl, (is_string r) eqn:Sr; simpl;
      try (destruct l as [[]| | | |]; by simpl in * );
      try (destruct r as [[]| | | |]; by simpl in * );
      try (destruct (obj_of l), (obj_of r); simpl;
           try destruct (py_add _ _); by simpl);
      destruct (_is_tuple l && _is_tuple r || _is_list l && _is_list r);
      simpl; try done; by destruct (check l), (check r). }
  destruct (decide (operator = "-")) as [->|Hsub].
  { simpl. destruct (_is_number l) eqn:El, (_is_number r) eqn:Er; simpl;
      try (destruct (obj_of l), (obj_of r); simpl;
           try destruct (py_sub _ _); by simpl);
      by destruct (check l), (check r). }
  rewrite (bool_decide_eq_false_2 (operator = "+")),
    (bool_decide_eq_false_2 (operator = "-")) by done.
  simpl. rewrite andb_false_r.
  destruct (decide (operator = "%")) as [->|Hmod]; [done|].
  destruct (COMPARISON_OPERATORS !! operator) as [o|] eqn:E.
  { destruct l as [a| | | |], r as [b| | | |]; simpl;
      try (destruct (py_operation _ _ _ _) as [|[]]; done);
      destruct o; done. }
  by case_decide.
Qed.

Lemma py_sub_number a b :
  isinstance_int_float a = true → isinstance_int_float b = true →
  (∃ v, py_sub a b = Ok v) ∨ py_sub a b = Raise OverflowError.
Proof.
  intros Ha Hb. unfold py_sub.
  destruct a as [x|x|f| |], b as [y|y|g| |]; try done;
    unfold as_number, to_float; eauto;
    match goal with
    | |- context [float_of_int ?z] =>
        destruct (float_of_int_cases z) as [[? ->]| ->]; simpl; eauto
    end.
Qed.

(** A pair returns, unless the native sum or difference of two numbers
    overflows. *)
Lemma element_calculate_outcome l operator r :
  (∃ S, fst (_element_calculate evaluator context l operator r) = Ok S)
  ∨ (fst (_element_calculate evaluator context l operator r)
     = Raise OverflowError
     ∧ (operator = "+" ∨ operator = "-")
     ∧ _is_number l = true ∧ _is_number r = true).
Proof.
  assert (∀ c : bool,
    ∃ S, fst (seq (if c
                   then analysis_add context "type-error-operation" operator
                          (message, l, r)
                   else ret ())
                  (ret ({[l; r]} : ContextSet))) = Ok S) as Hsa.
  { intros []; simpl; eauto. }
  unfold _element_calculate.
  destruct (decide (operator = "*")) as [->|Hmul].
  { left. destruct (isinstance_AbstractSequence l || is_string l);
      [simpl; eauto|].
    destruct (isinstance_AbstractSequence r || is_string r);
      [simpl; eauto|]. first [apply Hsa|simpl; eauto]. }
  destruct (decide (operator = "+")) as [->|Hadd].
  { destruct (_is_number l) eqn:Nl, (_is_number r) eqn:Nr; simpl.
    - destruct l as [a| | | |], r as [b| | | |]; try done. simpl in *.
      destruct (py_add_number a b Nl Nr) as [[v ->]| ->]; simpl; eauto 10.
    - left. destruct (is_string l && is_string r) eqn:Es.
      + destruct l as [[]| | | |]; simpl in *; done.
      + destruct (_ || _); [simpl; eauto|first [apply Hsa|simpl; eauto]].
    - left. destruct (is_string l && is_string r) eqn:Es.
      + destruct r as [[]| | | |]; simpl in *;
          rewrite ?andb_false_r in Es; done.
      + destruct (_ || _); [simpl; eauto|first [apply Hsa|simpl; eauto]].
    - left. destruct (is_string l && is_string r) eqn:Es.
      + destruct l as [[]| | | |], r as [[]| | | |]; simpl in *;
          try done. eauto.
      + destruct (_ || _); [simpl; eauto|first [apply Hsa|simpl; eauto]]. }
  destruct (decide (operator = "-")) as [->|Hsub].
  { destruct (_is_number l) eqn:Nl, (_is_number r) eqn:Nr; simpl;
      [|left; solve [apply Hsa|simpl; eauto]..].
    destruct l as [a| | | |], r as [b| | | |]; try done. simpl in *.
    destruct (py_sub_number a b Nl Nr) as [[v ->]| ->]; simpl; eauto 10. }
  left. destruct (decide (operator = "%")); [simpl; eauto|].
  destruct (COMPARISON_OPERATORS !! operator) as [o|].
  - assert (∀ outcome : result bool,
      (∃ v, outcome = Ok v) ∨ outcome = Raise TypeError →
      ∃ S, fst (match outcome with
                | Raise TypeError =>
                    ret {[create evaluator (PyBool true);
                          create evaluator (PyBool false)]}
                | Raise e => lift (Raise e)
                | Ok result => ret {[create evaluator (PyBool result)]}
                end : M ContextSet) = Ok S) as Hout.
    { intros outcome [[v ->]| ->]; simpl; eauto. }
    apply Hout.
    destruct l as [a| | | |], r as [b| | | |];
      try (destruct o; simpl; eauto; fail).
    unfold py_operation. destruct o; eauto; destruct (py_compare a b); eauto.
  - case_decide; [simpl; eauto|first [apply Hsa|simpl; eauto]].
Qed.

Lemma element_calculate_exception l operator r e w :
  _element_calculate evaluator context l operator r = (Raise e, w) →
  e = OverflowError ∧ (operator = "+" ∨ operator = "-").
Proof.
  intros E. destruct (element_calculate_outcome l operator r)
    as [[S HS]|(HS & Hop & _)]; rewrite E in HS; simpl in HS; naive_solver.
Qed.


(** X4 — Every diagnostic that [calculate] emits, whether it returns or
    raises, reports one pair of its operands: the operator is [+] or [-],
    exactly one operand of the pair is a literal number and neither is a
    compiled instance of [int] or [float].  At most one diagnostic is
    emitted per pair, hence at most six in all. *)
Theorem calculate_diagnostics L operator R :
  (∀ issue, issue ∈ snd (calculate evaluator context L operator R) →
     ∃ l r, l ∈ L ∧ r ∈ R
       ∧ issue = type_error_operation context l operator r
       ∧ (operator = "+" ∨ operator = "-")
       ∧ _is_number l ≠ _is_number r
       ∧ check l = false ∧ check r = false)
  ∧ length (snd (calculate evaluator context L operator R)) ≤ 6.
Proof.
  unfold calculate.
  destruct (negb (truthy L) || negb (truthy R));
    [simpl; split; [by intros ? ?%elem_of_nil|lia]|].
  destruct (6 <? size L * size R) eqn:Esz;
    [simpl; split; [by intros ? ?%elem_of_nil|lia]|].
  apply Nat.ltb_ge in Esz. split.
  - intros issue (m & (l & r & Hl & Hr & ->)%elem_of_pairs & Hi)
      %from_sets_diagnostics.
    rewrite element_calculate_diagnostics in Hi.
    destruct (negb (rule_applies l operator r)); simpl in Hi;
      [|by inversion Hi].
    destruct (reported l operator r) eqn:Erep; [|by inversion Hi].
    apply list_elem_of_singleton in Hi as ->.
    exists l, r. split_and!; try done; unfold reported in Erep.
    + repeat case_bool_decide; naive_solver.
    + destruct (_is_number l), (_is_number r); simpl in Erep;
        rewrite ?andb_false_r in Erep; done.
    + destruct (check l); simpl in Erep; rewrite ?andb_false_r in Erep; done.
    + destruct (check l), (check r); simpl in Erep;
        rewrite ?andb_false_r in Erep; done.
  - etrans; [apply (from_sets_diagnostics_length _ 1)|].
    + apply Forall_forall.
      intros m (l & r & Hl & Hr & ->)%elem_of_pairs.
      rewrite element_calculate_diagnostics.
      destruct (negb _ && reported _ _ _); simpl; lia.
    + rewrite length_pairs. lia.
Qed.

Lemma from_sets_pure (sets : list (M ContextSet)) :
  Forall (λ m, ∃ S, m = (Ok S, [])) sets →
  ∃ S, from_sets sets = (Ok S, [])
       ∧ ∀ x, x ∈ S ↔ ∃ S', (Ok S', []) ∈ sets ∧ x ∈ S'.
Proof.
  induction 1 as [|m rest [S' ->] _ (S & HS & IH)]; simpl.
  - eexists. split; [done|]. intros x. split; [set_solver|].
    intros (? & Hin & _). by inversion Hin.
  - rewrite HS. simpl.
    eexists. split; [done|]. intros x. rewrite elem_of_union, IH. split.
    + intros [Hx|(T & Hin & Hx)].
      * exists S'. split; [left|done].
      * exists T. split; [by right|done].
    + intros (T & Hin & Hx).
      apply elem_of_cons in Hin as [[= ->]|Hin]; [by left|].
      right. by exists T.
Qed.

(** X5 — On non-empty operand sets whose sizes multiply to at most 6:
    [%] returns the left operand set unchanged; [in] returns the empty set;
    [*] returns the left operand set unchanged when every left operand is a
    sequence or a string, and the right one when no left operand but every
    right operand is.  None of them emits a diagnostic or raises. *)
Theorem calculate_keeps_operands L R :
  L ≠ ∅ → R ≠ ∅ → size L * size R ≤ 6 →
  calculate evaluator context L "%" R = (Ok L, [])
  ∧ calculate evaluator context L "in" R = (Ok ∅, [])
  ∧ ((∀ l, l ∈ L → repeatable l = true) →
     calculate evaluator context L "*" R = (Ok L, []))
  ∧ ((∀ l, l ∈ L → repeatable l = false) →
     (∀ r, r ∈ R → repeatable r = true) →
     calculate evaluator context L "*" R = (Ok R, [])).
Proof.
  intros HL HR Hsz.
  apply set_choose_L in HL as [l0 Hl0]. apply set_choose_L in HR as [r0 Hr0].
  assert (∀ operator (pick : Context → Context → ContextSet) (T : ContextSet),
    (∀ l r, l ∈ L → r ∈ R →
       _element_calculate evaluator context l operator r
       = (Ok (pick l r), [])) →
    (∀ x, x ∈ T ↔ ∃ l r, l ∈ L ∧ r ∈ R ∧ x ∈ pick l r) →
    calculate evaluator context L operator R = (Ok T, [])) as Hgen.
  { intros operator pick T Hpick HT.
    rewrite calculate_pairwise by (done || set_solver).
    destruct (from_sets_pure
      (left ← iter evaluator L; right ← iter evaluator R;
       [_element_calculate evaluator context left operator right]))
      as (S & -> & HS).
    { apply Forall_forall. intros m (l & r & Hl & Hr & ->)%elem_of_pairs.
      rewrite Hpick by done. by eexists. }
    f_equal. f_equal. apply set_eq. intros x. rewrite HS, HT. split.
    - intros (S' & (l & r & Hl & Hr & E)%elem_of_pairs & Hx).
      rewrite Hpick in E by done. injection E as ->. by exists l, r.
    - intros (l & r & Hl & Hr & Hx). exists (pick l r).
      split; [|done]. apply elem_of_pairs. exists l, r.
      by rewrite Hpick. }
  split_and!.
  - apply (Hgen "%" (λ l _, {[l]})); [done|]. set_solver.
  - apply (Hgen "in" (λ _ _, ∅)); [done|]. set_solver.
  - intros Hrep. apply (Hgen "*" (λ l _, {[l]})); [|set_solver].
    intros l r Hl Hr. unfold _element_calculate. simpl.
    specialize (Hrep l Hl). unfold repeatable in Hrep. by rewrite Hrep.
  - intros Hno Hrep. apply (Hgen "*" (λ _ r, {[r]})); [|set_solver].
    intros l r Hl Hr. unfold _element_calculate. simpl.
    specialize (Hno l Hl). specialize (Hrep r Hr).
    unfold repeatable in *. by rewrite Hno, Hrep.
Qed.

(** X2 — [literals_to_types] works member by member: the widening of a
    union is the union of the widenings, a set without literals is
    returned as it is, and the non-literal members of any set are kept. *)
Theorem literals_to_types_union A B :
  literals_to_types evaluator (A ∪ B)
  = literals_to_types evaluator A ∪ literals_to_types evaluator B
  ∧ ((∀ x, x ∈ A → is_literal x = false) →
     literals_to_types evaluator A = A)
  ∧ (∀ x, x ∈ A → is_literal x = false →
          x ∈ literals_to_types evaluator A).
Proof.
  split_and!.
  - apply set_eq. intros x.
    rewrite elem_of_union, !elem_of_literals_to_types. set_solver.
  - intros Hno. apply set_eq. intros x.
    rewrite elem_of_literals_to_types. unfold widen. split.
    + intros (typ & Htyp & Hx). rewrite (Hno typ Htyp) in Hx. set_solver.
    + intros Hx. exists x. rewrite (Hno x Hx). set_solver.
  - intros x Hx Hlit. apply elem_of_literals_to_types. exists x.
    unfold widen. rewrite Hlit. set_solver.
Qed.

Lemma factor_calculate_gen_not_Ok types :
  ∃ ys, factor_calculate_gen evaluator types "not" = Ok ys
    ∧ (∀ y, y ∈ ys → ∃ typ b, typ ∈ types
            ∧ py__bool__ evaluator typ = Some b ∧ y = lit (PyBool (negb b)))
    ∧ ((∀ typ, typ ∈ types → is_Some (py__bool__ evaluator typ)) →
       ∀ typ b, typ ∈ types → py__bool__ evaluator typ = Some b →
                lit (PyBool (negb b)) ∈ ys).
Proof.
  induction types as [|typ rest (ys & IH & Hsound & Hcomplete)]; simpl.
  - exists []. split_and!; [done| |].
    + intros y Hy. by inversion Hy.
    + intros _ typ b Hin. by inversion Hin.
  - destruct (py__bool__ evaluator typ) as [value|] eqn:Eb.
    + rewrite IH. simpl. eexists. split_and!; [done| |].
      * intros y [->|Hy]%elem_of_cons.
        -- exists typ, value. split_and!; [left|done|done].
        -- destruct (Hsound y Hy) as (t & b & Ht & Hb & ->).
           exists t, b. split_and!; [by right|done|done].
      * intros Hall t b [->|Ht]%elem_of_cons Hb.
        -- rewrite Eb in Hb. injection Hb as ->. left.
        -- right. apply (Hcomplete (λ t' Ht', Hall t' (proj2 (elem_of_cons _ _ _) (or_intror Ht'))) t b Ht Hb).
    + exists []. split_and!; [done| |].
      * intros y Hy. by inversion Hy.
      * intros Hall. destruct (Hall typ) as [b Hb]; [left|]. congruence.
Qed.

(** X6 — Unary minus never raises: [factor_calculate] with [-] returns
    exactly the literals of the native negations of the literal numbers of
    the set, and drops every other operand; the result does not depend on
    the order in which the set is visited. *)
Theorem factor_calculate_minus S :
  ∃ S', factor_calculate evaluator S "-" = Ok S'
    ∧ ∀ x, x ∈ S' ↔ ∃ o v, CompiledObject o ∈ S
                      ∧ isinstance_int_float o = true
                      ∧ py_neg o = Ok v ∧ x = lit v.
Proof.
  unfold factor_calculate. rewrite factor_calculate_gen_minus. simpl.
  eexists. split; [done|]. intros x.
  rewrite elem_of_list_to_set, list_elem_of_omap.
  setoid_rewrite iter_elem_of. split.
  - intros (typ & Htyp & Hx). destruct typ as [o| | | |]; try done.
    destruct (py_neg o) as [v|e] eqn:Ev; [|done]. injection Hx as <-.
    exists o, v. split_and!; try done. by destruct o.
  - intros (o & v & Ho & _ & Hv & ->). exists (CompiledObject o).
    split; [done|]. by rewrite Hv.
Qed.

(** X7 — [factor_calculate] with [not] never raises and yields only the
    literals [True] and [False]: every context it yields is the negated
    truth value of an operand whose truth value is known.  When the truth
    value of every operand is known, it yields the negation of each of
    them, whatever the order in which the set is visited. *)
Theorem factor_calculate_not S :
  ∃ S', factor_calculate evaluator S "not" = Ok S'
    ∧ S' ⊆ {[lit (PyBool true); lit (PyBool false)]}
    ∧ (∀ x, x ∈ S' → ∃ typ b, typ ∈ S
             ∧ py__bool__ evaluator typ = Some b ∧ x = lit (PyBool (negb b)))
    ∧ ((∀ typ, typ ∈ S → is_Some (py__bool__ evaluator typ)) →
       ∀ x, x ∈ S' ↔ ∃ typ b, typ ∈ S
               ∧ py__bool__ evaluator typ = Some b
               ∧ x = lit (PyBool (negb b))).
Proof.
  unfold factor_calculate.
  destruct (factor_calculate_gen_not_Ok (iter evaluator S))
    as (ys & -> & Hsound & Hcomplete). simpl.
  eexists. split; [done|].
  assert (∀ x, x ∈ (list_to_set ys : ContextSet) → ∃ typ b, typ ∈ S
             ∧ py__bool__ evaluator typ = Some b ∧ x = lit (PyBool (negb b)))
    as Hs.
  { intros x Hx%elem_of_list_to_set.
    destruct (Hsound x Hx) as (typ & b & Htyp%iter_elem_of & Hb & ->).
    by exists typ, b. }
  split_and!; [|done|].
  - intros x Hx. destruct (Hs x Hx) as (typ & [] & _ & _ & ->); set_solver.
  - intros Hall x. split; [apply Hs|].
    intros (typ & b & Htyp & Hb & ->). apply elem_of_list_to_set.
    apply (Hcomplete (λ t Ht, Hall t (proj1 (iter_elem_of _ _ _) Ht)) typ b);
      [by apply iter_elem_of|done].
Qed.

(** X8 — Every unary operator other than [-] and [not], such as [+] and
    [~], returns the operand set unchanged. *)
Theorem factor_calculate_other S operator :
  operator ≠ "-" → operator ≠ "not" →
  factor_calculate evaluator S operator = Ok S.
Proof.
  intros Hm Hn. unfold factor_calculate.
  rewrite factor_calculate_gen_other by done. simpl.
  by rewrite list_to_set_iter.
Qed.

End Laws.

Lemma iter_Permutation (ev1 ev2 : Evaluator) (S : ContextSet) :
  iter ev1 S ≡ₚ iter ev2 S.
Proof.
  apply NoDup_Permutation; [apply iter_NoDup..|].
  intros x. by rewrite !iter_elem_of.
Qed.

Lemma element_calculate_same_session (ev1 ev2 : Evaluator) context l operator r :
  same_session ev1 ev2 →
  _element_calculate ev1 context l operator r
  = _element_calculate ev2 context l operator r.
Proof.
  intros (His & _). unfold _element_calculate, create. by rewrite His.
Qed.

Lemma literals_to_types_same_session (ev1 ev2 : Evaluator) (S : ContextSet) :
  same_session ev1 ev2 →
  literals_to_types ev1 S = literals_to_types ev2 S.
Proof.
  intros (_ & Hb & He & _). apply set_eq. intros x.
  rewrite !elem_of_literals_to_types. unfold widen. by rewrite Hb, He.
Qed.

Lemma pairs_Permutation {A} (ev1 ev2 : Evaluator) (f : Context → Context → A)
    (L R : ContextSet) :
  (left ← iter ev1 L; right ← iter ev1 R; [f left right])
  ≡ₚ (left ← iter ev2 L; right ← iter ev2 R; [f left right]).
Proof.
  rewrite (iter_Permutation ev1 ev2 L).
  induction (iter ev2 L) as [|l ls IH]; [done|].
  rewrite !bind_cons. apply Permutation_app; [|done].
  by rewrite (iter_Permutation ev1 ev2 R).
Qed.

Lemma from_sets_agree (sets1 sets2 : list (M ContextSet)) :
  sets1 ≡ₚ sets2 → agree (from_sets sets1) (from_sets sets2).
Proof.
  intros Hperm. unfold agree.
  destruct (from_sets sets1) as [[S1|e1] w1] eqn:E1,
           (from_sets sets2) as [[S2|e2] w2] eqn:E2; [| | |done].
  - destruct (from_sets_Ok _ _ _ E1) as (_ & Hm1 & ->).
    destruct (from_sets_Ok _ _ _ E2) as (_ & Hm2 & ->).
    split; [|by rewrite Hperm].
    apply set_eq. intros x. rewrite Hm1, Hm2.
    by setoid_rewrite Hperm.
  - destruct (from_sets_Ok _ _ _ E1) as (Hall & _).
    rewrite Hperm in Hall.
    destruct (from_sets_total _ Hall) as (S & w & E). congruence.
  - destruct (from_sets_Ok _ _ _ E2) as (Hall & _).
    rewrite <-Hperm in Hall.
    destruct (from_sets_total _ Hall) as (S & w & E). congruence.
Qed.

(** X1 — The outcome of [calculate] does not depend on the order in which
    the operand sets are visited: two sessions that differ only in that
    order both raise, or both return the same set, with the same
    diagnostics up to their order. *)
Theorem calculate_order_independent (ev1 ev2 : Evaluator) (context : Context)
    (L : ContextSet) (operator : string) (R : ContextSet) :
  same_session ev1 ev2 →
  agree (calculate ev1 context L operator R)
        (calculate ev2 context L operator R).
Proof.
  intros Hsame. unfold calculate.
  destruct (negb (truthy L) || negb (truthy R)).
  { simpl. by rewrite (literals_to_types_same_session ev1 ev2). }
  destruct (6 <? size L * size R).
  { simpl. by rewrite (literals_to_types_same_session ev1 ev2). }
  assert ((left ← iter ev1 L; right ← iter ev1 R;
           [_element_calculate ev1 context left operator right])
          = (left ← iter ev1 L; right ← iter ev1 R;
             [_element_calculate ev2 context left operator right])) as ->.
  { apply list_bind_ext; [|done]. intros l.
    apply list_bind_ext; [|done]. intros r.
    by rewrite (element_calculate_same_session ev1 ev2). }
  apply from_sets_agree, pairs_Permutation.
Qed.

Lemma calculate_order_independent_witness :
  same_session example_evaluator reversed_evaluator
  ∧ agree (calculate example_evaluator (TreeContext 0)
             {[lit (PyInt 3); lit (PyStr "a")]} "+" {[lit (PyInt 4); TreeContext 1]})
          (calculate reversed_evaluator (TreeContext 0)
             {[lit (PyInt 3); lit (PyStr "a")]} "+" {[lit (PyInt 4); TreeContext 1]}).
Proof.
  assert (same_session example_evaluator reversed_evaluator) as Hsame
    by (repeat split; reflexivity).
  exact (conj Hsame
           (calculate_order_independent example_evaluator reversed_evaluator
              (TreeContext 0) {[lit (PyInt 3); lit (PyStr "a")]} "+"
              {[lit (PyInt 4); TreeContext 1]} Hsame)).
Defined.

Lemma calculate_keeps_operands_witness :
  calculate example_evaluator (TreeContext 0)
    {[lit (PyStr "a"); TreeContext 1]} "%" {[lit (PyInt 3)]}
  = (Ok {[lit (PyStr "a"); TreeContext 1]}, [])
  ∧ calculate example_evaluator (TreeContext 0)
      {[lit (PyStr "a"); TreeContext 1]} "in" {[lit (PyInt 3)]}
    = (Ok ∅, []).
Proof.
  assert (({[lit (PyStr "a"); TreeContext 1]} : ContextSet) ≠ ∅) as HL
    by (apply (non_empty_inhabited_L (TreeContext 1)); set_solver).
  assert (({[lit (PyInt 3)]} : ContextSet) ≠ ∅) as HR
    by (apply (non_empty_inhabited_L (lit (PyInt 3))); set_solver).
  assert (size ({[lit (PyStr "a"); TreeContext 1]} : ContextSet)
          * size ({[lit (PyInt 3)]} : ContextSet) ≤ 6) as Hsz
    by (vm_compute; lia).
  pose proof (calculate_keeps_operands example_evaluator (TreeContext 0)
                {[lit (PyStr "a"); TreeContext 1]} {[lit (PyInt 3)]}
                HL HR Hsz) as (Hmod & Hin & _).
  exact (conj Hmod Hin).
Defined.

Lemma factor_calculate_other_witness :
  factor_calculate example_evaluator {[lit (PyInt 3); TreeContext 1]} "~"
  = Ok {[lit (PyInt 3); TreeContext 1]}.
Proof.
  apply (factor_calculate_other example_evaluator
           {[lit (PyInt 3); TreeContext 1]} "~"); discriminate.
Defined.

End PrecedenceLaws.

(** * Further properties of [compiled/context.py] *)

Module CompiledLaws.
Import Compiled CompiledFacts.
Local Open Scope nat_scope.

Section Laws.
Context {access : Type} `{Countable access} `{!Reflection access}.
Implicit Types (self : CompiledObjectFilter access) (name : string).

(** X9 — An exact lookup returns at most one name, and that name carries
    the looked-up string: it is the marker of that attribute, exactly when
    the attribute exists and is a descriptor, or the compiled name of that
    attribute on the object of the filter.  The lookup finds nothing
    exactly when the attribute does not exist, or when the filter is for an
    instance and [dir()] does not list a plain attribute. *)
Theorem get_names self name :
  let handle := access_handle (_compiled_object self) in
  let has_attribute := (access_is_allowed_getattr handle name).1 in
  let is_descriptor := (access_is_allowed_getattr handle name).2 in
  length (get self name) ≤ 1
  ∧ (∀ n, n ∈ get self name →
       n = EmptyCompiledName name
       ∨ n = CompiledName (_compiled_object self) name)
  ∧ (EmptyCompiledName name ∈ get self name
     ↔ has_attribute = true ∧ is_descriptor = true)
  ∧ (get self name = []
     ↔ has_attribute = false
       ∨ (is_descriptor = false ∧ filter_is_instance self = true
          ∧ name ∉ access_dir handle)).
Proof.
  intros handle has_attribute is_descriptor.
  rewrite get_eq, _get_cases. fold handle has_attribute is_descriptor.
  destruct has_attribute, is_descriptor; simpl.
  - split_and!; [lia|by intros n ->%list_elem_of_singleton; left| |].
    + split; [done|]. intros _. left.
    + split; [done|]. naive_solver.
  - destruct (filter_is_instance self); simpl.
    + case_bool_decide; simpl.
      * split_and!; [lia|by intros n ->%list_elem_of_singleton; right| |].
        -- split; [by intros [=]%list_elem_of_singleton|naive_solver].
        -- split; [done|]. naive_solver.
      * split_and!; [lia|by intros n ?%elem_of_nil| |].
        -- split; [by intros ?%elem_of_nil|naive_solver].
        -- split; [|done]. intros _. right. done.
    + split_and!; [lia|by intros n ->%list_elem_of_singleton; right| |].
      * split; [by intros [=]%list_elem_of_singleton|naive_solver].
      * split; [done|]. naive_solver.
  - split_and!; [lia|by intros n ?%elem_of_nil| |].
    + split; [by intros ?%elem_of_nil|naive_solver].
    + split; [|done]. intros _. by left.
  - split_and!; [lia|by intros n ?%elem_of_nil| |].
    + split; [by intros ?%elem_of_nil|naive_solver].
    + split; [|done]. intros _. by left.
Qed.

Lemma handles_chain (accesses : list access)
    (parent : option (CompiledObject access)) :
  accesses ≠ [] →
  ∃ c, foldl (λ context access_path,
                Some (create_cached_compiled_object access_path context))
             parent accesses = Some c
       ∧ handles c = reverse accesses
                     ++ match parent with Some p => handles p | None => [] end.
Proof.
  revert parent. induction accesses as [|a rest IH]; intros parent Hne;
    [done|]. simpl. destruct rest as [|b rest'].
  - simpl. eexists. split; [done|]. simpl. by destruct parent.
  - destruct (IH (Some (create_cached_compiled_object a parent)))
      as (c & Hc & Hh); [done|].
    exists c. split; [done|]. rewrite Hh. simpl.
    rewrite !reverse_cons, <-!app_assoc. simpl. by destruct parent.
Qed.

(** X10 — [create_from_access_path] and [_create_from_name] chain the
    accesses they are given: the object they return has the last access as
    its handle, and its parents, up to the root, are the accesses before
    it, in order.  They return [None] exactly for an empty path.  The
    object on which [_create_from_name] looks the name up is never part of
    the chain. *)
Theorem access_path_chain :
  (∀ accesses : list (string * access),
     match create_from_access_path accesses with
     | None => accesses = []
     | Some c => accesses ≠ []
                 ∧ reverse (handles c) = accesses.*2
     end)
  ∧ (∀ (compiled_object : CompiledObject access) (name : string),
       let access_paths :=
         default access_none_paths
           (access_getattr_paths (access_handle compiled_object) name) in
       match _create_from_name compiled_object name with
       | None => access_paths = []
       | Some c => access_paths ≠ []
                   ∧ reverse (handles c) = access_paths
       end).
Proof.
  split.
  - intros accesses. unfold create_from_access_path.
    assert (foldl (λ parent_context '(name, access),
                     Some (create_cached_compiled_object access parent_context))
                  None accesses
            = foldl (λ context access_path,
                       Some (create_cached_compiled_object access_path context))
                    None accesses.*2) as ->.
    { generalize (@None (CompiledObject access)).
      induction accesses as [|[n a] rest IH]; intros o; [done|]. apply IH. }
    destruct accesses as [|[n a] rest]; [done|].
    destruct (handles_chain ((n, a) :: rest).*2 None) as (c & -> & Hc);
      [done|].
    split; [done|]. by rewrite Hc, app_nil_r, reverse_involutive.
  - intros compiled_object name access_paths. unfold _create_from_name.
    fold access_paths. destruct access_paths as [|a rest]; [done|].
    destruct (handles_chain (a :: rest) None) as (c & -> & Hc); [done|].
    split; [done|]. by rewrite Hc, app_nil_r, reverse_involutive.
Qed.

End Laws.
End CompiledLaws.

(** * Further properties of [gradual/conversion.py] *)

Module ConversionLaws.
Import Compiled Conversion ConversionFacts.
Local Open Scope nat_scope.

Section Laws.
Context {access : Type} `{Countable access} `{!Reflection access}.
Context {foreign : Type} `{Countable foreign}.
Context {NameDefinition : Type}.
Context `{!Engine access foreign NameDefinition}.
Implicit Types (c : Context access foreign) (n : NameDefinition).
Implicit Types (S : gset (Context access foreign)).

(** X11 — The tolerant wrappers leave what is already actual alone: on
    contexts whose root modules are no stubs, [try_stubs_to_actual_context_set]
    returns exactly the set of these contexts, and on names whose root
    modules are no stubs, [try_stub_to_actual_names] returns the very list
    it was given, in order and with its repetitions. *)
Theorem try_stub_to_actual_identity (prefer : bool) :
  (∀ stub_contexts : list (Context access foreign),
     (∀ c, c ∈ stub_contexts → is_stub (get_root_context c) = false) →
     try_stubs_to_actual_context_set stub_contexts prefer
     = Ok (list_to_set stub_contexts))
  ∧ (∀ names : list NameDefinition,
       (∀ n, n ∈ names → is_stub (name_get_root_context n) = false) →
       try_stub_to_actual_names names prefer = Ok names).
Proof.
  split.
  - intros stub_contexts. unfold try_stubs_to_actual_context_set.
    induction stub_contexts as [|c rest IH]; intros Hroot; [done|].
    rewrite fmap_cons. cbn [from_sets].
    rewrite IH by (intros d Hd; apply Hroot; by right).
    rewrite stub_to_actual_not_stub by (apply Hroot; left). simpl.
    unfold truthy. rewrite bool_decide_eq_false_2 by set_solver. done.
  - intros names. induction names as [|n rest IH]; intros Hroot; [done|].
    simpl. unfold try_stub_to_actual_name at 1.
    rewrite (Hroot n) by left. simpl.
    by rewrite IH by (intros d Hd; apply Hroot; by right).
Qed.

Lemma getattribute_mono S1 S2 (name : string) :
  S1 ⊆ S2 →
  ContextSet_py__getattribute__ S1 name
  ⊆ ContextSet_py__getattribute__ S2 name.
Proof.
  intros Hsub x. unfold ContextSet_py__getattribute__.
  rewrite !elem_of_set_bind. set_solver.
Qed.

Lemma walk_mono (names : list string) S1 S2 :
  S1 ⊆ S2 →
  foldl ContextSet_py__getattribute__ S1 names
  ⊆ foldl ContextSet_py__getattribute__ S2 names.
Proof.
  revert S1 S2. induction names as [|name rest IH]; intros S1 S2 Hsub;
    [done|]. simpl. by apply IH, getattribute_mono.
Qed.

(** X12 — Asking [stub_to_actual_context_set] to ignore compiled modules
    only removes results: with and without [ignore_compiled] the function
    raises the same exception or returns, and what it returns with
    [ignore_compiled] is part of what it returns without. *)
Theorem ignore_compiled_only_removes c :
  match stub_to_actual_context_set c true,
        stub_to_actual_context_set c false with
  | Ok S1, Ok S2 => S1 ⊆ S2
  | Raise e1, Raise e2 => e1 = e2
  | _, _ => False
  end.
Proof.
  unfold stub_to_actual_context_set.
  destruct (negb (is_stub (get_root_context c))); [done|].
  destruct (if is_instance c then py__class__ c else Ok c) as [k|e];
    simpl; [|done].
  destruct (get_qualified_names k) as [names|]; [|done].
  destruct (if is_bound_method k
            then match last names with
                 | Some method_name =>
                     Ok (Some method_name, removelast names, true)
                 | None => Raise IndexError
                 end
            else Ok (None, names, is_instance c))
    as [[[method_name names'] was_instance]|e]; simpl; [|done].
  unfold _infer_from_stub.
  destruct (non_stub_context_set (get_root_context c)) as [non_stubs|];
    simpl; [|done].
  assert (foldl ContextSet_py__getattribute__
            (filter (λ c0, is_compiled c0 = false) non_stubs) names'
          ⊆ foldl ContextSet_py__getattribute__ non_stubs names') as Hwalk.
  { apply walk_mono. intros x [_ Hx]%elem_of_filter. done. }
  revert Hwalk.
  generalize (foldl ContextSet_py__getattribute__
                (filter (λ c0, is_compiled c0 = false) non_stubs) names').
  generalize (foldl ContextSet_py__getattribute__ non_stubs names').
  intros T2 T1 Hsub.
  assert ((if was_instance
           then set_bind execute_evaluated (filter (λ c0, is_class c0 = true) T1)
           else T1)
          ⊆ (if was_instance
             then set_bind execute_evaluated
                    (filter (λ c0, is_class c0 = true) T2)
             else T2)) as Hinst.
  { destruct was_instance; [|done]. intros x.
    rewrite !elem_of_set_bind. setoid_rewrite elem_of_filter. set_solver. }
  destruct method_name as [method_name|]; [|done].
  by apply getattribute_mono.
Qed.

End Laws.
End ConversionLaws.

(** * Properties of [names.py] *)

Module NamesLaws.
Import Names.
Local Open Scope nat_scope.

Lemma get_kind_loop_before (tree_param : Node) (before after : list Node) :
  (∀ p, p ∈ before → type p = "param" → star_count p = 0%Z) →
  (∀ p, p ∈ before → type p = "param" → node_id p ≠ node_id tree_param) →
  get_kind_loop tree_param (before ++ after) = get_kind_loop tree_param after.
Proof.
  induction before as [|p before IH]; intros Hstar Hid; [done|].
  simpl. case_bool_decide as Ht.
  - rewrite (Hstar p) by (done || left). simpl.
    unfold node_eqb. rewrite bool_decide_false by (apply Hid; done || left).
    apply IH; intros q Hq; [apply Hstar|apply Hid]; by right.
  - apply IH; intros q Hq; [apply Hstar|apply Hid]; by right.
Qed.

Lemma get_kind_loop_starred (tree_param : Node) (children : list Node) :
  get_kind_loop tree_param children = KEYWORD_ONLY
  ∨ get_kind_loop tree_param children = POSITIONAL_OR_KEYWORD.
Proof.
  induction children as [|p children IH]; simpl; [by right|].
  repeat case_match; auto.
Qed.

Lemma get_kind_loop_after_star (tree_param : Node) (children : list Node) :
  (∀ p, p ∈ children → node_id p ≠ node_id tree_param) →
  (∃ p, p ∈ children ∧ type p = "param" ∧ star_count p ≠ 0%Z) →
  ∀ after, get_kind_loop tree_param (children ++ after) = KEYWORD_ONLY.
Proof.
  intros Hid (s & Hs & Hst & Hsz) after.
  induction children as [|p children IH]; [by apply elem_of_nil in Hs|].
  simpl. destruct (decide (type p = "param")) as [Ht|Ht].
  - rewrite (bool_decide_true _ Ht).
    destruct (Z.eqb_spec (star_count p) 0) as [Hz|Hz]; simpl; [|done].
    unfold node_eqb. rewrite bool_decide_false by (apply Hid; left).
    apply elem_of_cons in Hs as [->|Hs]; [done|].
    apply IH; [|done]. intros q Hq. apply Hid. by right.
  - rewrite (bool_decide_false _ Ht).
    apply elem_of_cons in Hs as [->|Hs]; [done|].
    apply IH; [|done]. intros q Hq. apply Hid. by right.
Qed.

(** X13 — The kind of a parameter: [*args] is [VAR_POSITIONAL] and
    [**kwargs] is [VAR_KEYWORD]; a plain parameter is [KEYWORD_ONLY]
    exactly when a starred parameter stands before it in the parameter
    list, and [POSITIONAL_OR_KEYWORD] exactly when none does.  No
    parameter is ever [POSITIONAL_ONLY]. *)
Theorem get_kind_position (tree_param : Node) (before after : list Node) :
  type tree_param = "param" →
  (∀ p, p ∈ before → node_id p ≠ node_id tree_param) →
  let self := {| param_node := Some tree_param;
                 siblings := before ++ tree_param :: after |} in
  (star_count tree_param = 1%Z → get_kind self = Ok VAR_POSITIONAL)
  ∧ (star_count tree_param = 2%Z → get_kind self = Ok VAR_KEYWORD)
  ∧ (star_count tree_param = 0%Z →
     (get_kind self = Ok KEYWORD_ONLY
      ↔ ∃ p, p ∈ before ∧ type p = "param" ∧ star_count p ≠ 0%Z)
     ∧ (get_kind self = Ok POSITIONAL_OR_KEYWORD
        ↔ ∀ p, p ∈ before → type p = "param" → star_count p = 0%Z))
  ∧ get_kind self ≠ Ok POSITIONAL_ONLY.
Proof.
  intros Htype Hid self. unfold get_kind. simpl.
  split_and!.
  - by intros ->.
  - by intros ->.
  - intros Hs. rewrite Hs. simpl.
    destruct (decide (Exists (λ p, type p = "param" ∧ star_count p ≠ 0%Z)
                        before)) as [Hex|Hex]; rewrite Exists_exists in Hex.
    + rewrite get_kind_loop_after_star by done.
      split; [done|]. split; [done|]. intros Hall.
      destruct Hex as (p & Hp & Ht & Hz). by apply Hall in Hp.
    + assert (∀ p, p ∈ before → type p = "param" → star_count p = 0%Z)
        as Hall.
      { intros p Hp Ht. destruct (decide (star_count p = 0%Z)); [done|].
        destruct Hex. by exists p. }
      rewrite get_kind_loop_before by (done || by intros p Hp _; apply Hid).
      simpl. rewrite bool_decide_true by done. rewrite Hs. simpl.
      unfold node_eqb. rewrite bool_decide_true by done.
      split; (split; [done|]); [by intros []%Hex|done].
  - repeat case_match; try done.
    destruct (get_kind_loop_starred tree_param (before ++ tree_param :: after))
      as [-> | ->]; done.
Qed.

Lemma get_kind_position_witness :
  get_kind (example_param 3) = Ok KEYWORD_ONLY
  ∧ get_kind (example_param 1) = Ok POSITIONAL_OR_KEYWORD.
Proof.
  split.
  - assert (∀ p, p ∈ take 3 example_params → node_id p ≠ 3) as Hid.
    { intros p Hp. cbn in Hp.
      repeat (apply elem_of_cons in Hp as [->|Hp]; [simpl; lia|]).
      by apply elem_of_nil in Hp. }
    apply (proj2 (proj1 (proj1 (proj2 (proj2 (get_kind_position
      {| node_id := 3; type := "param"; star_count := 0 |}
      (take 3 example_params) (drop 4 example_params) eq_refl Hid))) eq_refl))).
    exists {| node_id := 2; type := "param"; star_count := 1 |}.
    split; [|done]. cbn. do 2 right. left.
  - assert (∀ p, p ∈ take 1 example_params → node_id p ≠ 1) as Hid.
    { intros p Hp. cbn in Hp.
      repeat (apply elem_of_cons in Hp as [->|Hp]; [simpl; lia|]).
      by apply elem_of_nil in Hp. }
    apply (proj2 (proj2 (proj1 (proj2 (proj2 (get_kind_position
      {| node_id := 1; type := "param"; star_count := 0 |}
      (take 1 example_params) (drop 2 example_params) eq_refl Hid))) eq_refl))).
    intros p Hp. cbn in Hp.
    repeat (apply elem_of_cons in Hp as [->|Hp]; [done|]).
    by apply elem_of_nil in Hp.
Defined.

End NamesLaws.

(** * Properties of [api/classes.py] *)

Module ClassesLaws.
Import Classes.
Local Open Scope nat_scope.

Lemma slice_bound_range (n i : Z) :
  (0 ≤ n → 0 ≤ slice_bound n i ≤ n)%Z.
Proof. unfold slice_bound. destruct (Z.ltb_spec i 0); lia. Qed.

Lemma py_slice_split {A} (l : list A) (i : Z) :
  py_slice l None (Some i) ++ py_slice l (Some i) None = l.
Proof.
  unfold py_slice. simpl.
  pose proof (slice_bound_range (Z.of_nat (length l)) i ltac:(lia)) as Hi.
  set (c := slice_bound (Z.of_nat (length l)) i) in *.
  assert (slice_bound (Z.of_nat (length l)) 0 = 0%Z) as ->
    by (unfold slice_bound; simpl; lia).
  assert (slice_bound (Z.of_nat (length l)) (Z.of_nat (length l))
          = Z.of_nat (length l)) as ->.
  { unfold slice_bound. destruct (Z.ltb_spec (Z.of_nat (length l)) 0); lia. }
  rewrite Z.sub_0_r. simpl. rewrite drop_0.
  rewrite (take_ge (drop _ _)) by (rewrite length_drop; lia).
  apply take_drop.
Qed.

Lemma string_of_list_ascii_app (l1 l2 : list Ascii.ascii) :
  Strings.String.string_of_list_ascii (l1 ++ l2)
  = Strings.String.string_of_list_ascii l1
    +:+ Strings.String.string_of_list_ascii l2.
Proof. induction l1 as [|a l1 IH]; simpl; [done|]. by rewrite IH. Qed.

Lemma str_slice_split (s : string) (i : Z) :
  str_slice s None (Some i) +:+ str_slice s (Some i) None = s.
Proof.
  unfold str_slice. rewrite <- string_of_list_ascii_app, py_slice_split.
  apply Strings.String.string_of_list_ascii_of_string.
Qed.

Lemma string_app_assoc (s1 s2 s3 : string) :
  (s1 +:+ s2) +:+ s3 = s1 +:+ (s2 +:+ s3).
Proof.
  induction s1 as [|a s1 IH]; [done|].
  unfold String.app in *. simpl. by rewrite IH.
Qed.

(** X14 — What a completion inserts completes what is typed: for every
    setting, name and stack, and every length of the typed part, the typed
    part of the name followed by [complete] is [name_with_symbols]. *)
Theorem complete_name_with_symbols (add_bracket_after_function : bool)
    (self : Completion) :
  str_slice (string_name (_name (completion_base self)))
    None (Some (_like_name_length self))
  +:+ complete add_bracket_after_function self
  = name_with_symbols add_bracket_after_function self.
Proof.
  unfold complete, name_with_symbols, _complete.
  cbv zeta. by rewrite <- string_app_assoc, str_slice_split.
Qed.

(** X15 — [get_line_code] of a definition on an existing line of a module
    that is not built in returns that line, with the [before] lines above
    it and the [after] lines below it, as many of them as the module has,
    in the order of the file. *)
Theorem get_line_code_window (self : BaseDefinition) (before after : Z)
    (row col : Z) (text : string) :
  is_context_name (_name self) = true →
  in_builtin_module self = false →
  start_pos (_name self) = Some (row, col) →
  (1 ≤ row)%Z →
  code_lines (_name self) !! Z.to_nat (row - 1) = Some text →
  (0 ≤ before)%Z → (0 ≤ after)%Z →
  let lines := code_lines (_name self) in
  let i := Z.to_nat (row - 1) in
  let above := drop (i - Z.to_nat before) (take i lines) in
  let below := take (Z.to_nat after) (drop (S i) lines) in
  get_line_code self before after = Ok (join (above ++ text :: below))
  ∧ length above = i `min` Z.to_nat before
  ∧ length below = (length lines - S i) `min` Z.to_nat after.
Proof.
  intros Hctx Hbuiltin Hpos Hrow Htext Hbefore Hafter lines i above below.
  assert (i < length lines) as Hi by (by eapply lookup_lt_Some).
  split; [|subst above below; rewrite length_drop, !length_take, length_drop;
           lia].
  unfold get_line_code. rewrite Hctx, Hbuiltin, Hpos. simpl. do 2 f_equal.
  fold lines. unfold py_slice. simpl.
  set (n := Z.of_nat (length lines)).
  assert (slice_bound n (Z.max (row - 1 - before) 0)
          = Z.of_nat (i - Z.to_nat before)) as ->.
  { unfold slice_bound. destruct (Z.ltb_spec (Z.max (row - 1 - before) 0) 0);
      lia. }
  assert (slice_bound n (row - 1 + after + 1)
          = Z.of_nat (S i + (length lines - S i) `min` Z.to_nat after)) as ->.
  { unfold slice_bound. destruct (Z.ltb_spec (row - 1 + after + 1) 0); lia. }
  rewrite Nat2Z.id.
  replace (Z.to_nat _) with
    ((i - (i - Z.to_nat before))
     + S ((length lines - S i) `min` Z.to_nat after)) by lia.
  set (k := (length lines - S i) `min` Z.to_nat after).
  transitivity (take (i - (i - Z.to_nat before) + S k)
                  (drop (i - Z.to_nat before)
                     (take i lines ++ text :: drop (S i) lines)));
    [by rewrite (take_drop_middle lines i text Htext)|].
  rewrite drop_app_le by (rewrite length_take; lia).
  fold above.
  rewrite take_app_ge by (subst above; rewrite length_drop, length_take; lia).
  replace (length above) with (i - (i - Z.to_nat before))
    by (subst above; rewrite length_drop, length_take; lia).
  replace (_ + _ - _) with (S k) by lia.
  simpl. do 2 f_equal. subst below k.
  destruct (Nat.min_spec (length lines - S i) (Z.to_nat after))
    as [[? ->]|[? ->]]; [|done].
  by rewrite !take_ge by (rewrite length_drop; lia).
Qed.

Lemma get_line_code_window_witness :
  get_line_code example_definition 0 0 = Ok ("def f(): pass" +:+ "
")
  ∧ get_line_code example_definition 5 1
    = Ok (("import os" +:+ "
") +:+ ("def f(): pass" +:+ "
") +:+ ("f()" +:+ "
")).
Proof.
  split.
  - exact (proj1 (get_line_code_window example_definition 0 0 2 4 _
                    eq_refl eq_refl eq_refl ltac:(lia) eq_refl
                    ltac:(lia) ltac:(lia))).
  - exact (proj1 (get_line_code_window example_definition 5 1 2 4 _
                    eq_refl eq_refl eq_refl ltac:(lia) eq_refl
                    ltac:(lia) ltac:(lia))).
Defined.

Lemma index_of_name_Some (key : string) (ps : list Name) (i j : nat) :
  index_of_name key ps i = Some j →
  i ≤ j ∧ ∃ param, ps !! (j - i) = Some param ∧ string_name param = key
    ∧ ∀ k p, k < j - i → ps !! k = Some p → string_name p ≠ key.
Proof.
  revert i. induction ps as [|q ps IH]; intros i; simpl; [done|].
  case_bool_decide as Hq.
  - intros [= <-]. split; [lia|]. exists q. rewrite Nat.sub_diag.
    split_and!; [done|done|lia].
  - intros [Hle (param & Hparam & Hname & Hfirst)]%IH. split; [lia|].
    exists param. replace (j - i) with (S (j - S i)) by lia.
    split_and!; [done|done|]. intros [|k] p Hk; simpl.
    + by intros [= <-].
    + apply Hfirst. lia.
Qed.

Lemma index_of_name_None (key : string) (ps : list Name) (i : nat) :
  index_of_name key ps i = None →
  ∀ p, p ∈ ps → string_name p ≠ key.
Proof.
  revert i. induction ps as [|q ps IH]; intros i; simpl.
  { by intros _ p ?%elem_of_nil. }
  case_bool_decide as Hq; [done|].
  intros Hps p [->|Hp]%elem_of_cons; [done|by eapply IH].
Qed.

Lemma index_of_name_first (key : string) (ps : list Name) (i j : nat)
    (param : Name) :
  ps !! j = Some param → string_name param = key →
  (∀ k p, k < j → ps !! k = Some p → string_name p ≠ key) →
  index_of_name key ps i = Some (i + j).
Proof.
  revert i j. induction ps as [|q ps IH]; intros i j; [done|].
  destruct j as [|j]; simpl.
  - intros [= ->] <- _. rewrite bool_decide_true by done. f_equal. lia.
  - intros Hparam Hname Hfirst.
    rewrite bool_decide_false
      by (intros Hq; by apply (Hfirst 0 q); [lia| |]).
    rewrite (IH (S i) j); [f_equal; lia|done|done|].
    intros k p Hk. apply (Hfirst (S k)). lia.
Qed.

Lemma index_of_star_Some (ps : list Name) (i j : nat) :
  index_of_star ps i = Ok (Some j) →
  i ≤ j ∧ ∃ param, ps !! (j - i) = Some param
    ∧ tree_name param = Some (Some 1%Z).
Proof.
  revert i. induction ps as [|q ps IH]; intros i; simpl; [done|].
  destruct (tree_name q) as [[star_count|]|] eqn:Hq; simpl; [|done|].
  - destruct (Z.eqb_spec star_count 1) as [->|Hstar].
    + intros [= <-]. split; [lia|]. exists q. by rewrite Nat.sub_diag.
    + intros [Hle (param & Hparam & Htree)]%IH. split; [lia|].
      exists param. by replace (j - i) with (S (j - S i)) by lia.
  - intros [Hle (param & Hparam & Htree)]%IH. split; [lia|].
    exists param. by replace (j - i) with (S (j - S i)) by lia.
Qed.

(** X16 — Whatever [index] returns is the position of a parameter of the
    signature.  With a keyword it is the parameter of that name, or else
    the last parameter, which is then [**kwargs]; without a keyword it is
    the position of the argument itself, or else a [*args] parameter, when
    the call has more arguments than the signature has parameters. *)
Theorem index_is_param (self : CallSignature) (k : Z) :
  (0 ≤ _index self)%Z →
  index self = Ok (Some k) →
  ∃ param, (0 ≤ k)%Z ∧ params self !! Z.to_nat k = Some param
    ∧ match _key_name_str self with
      | Some key =>
          string_name param = key
          ∨ ((∀ p, p ∈ params self → string_name p ≠ key)
             ∧ Z.to_nat k = length (params self) - 1
             ∧ tree_name param = Some (Some 2%Z))
      | None =>
          k = _index self
          ∨ ((Z.of_nat (length (params self)) ≤ _index self)%Z
             ∧ tree_name param = Some (Some 1%Z))
      end.
Proof.
  intros Hindex. unfold index.
  destruct (_key_name_str self) as [key|].
  - destruct (index_of_name key (params self) 0) as [i|] eqn:Hi.
    + intros [= <-].
      apply index_of_name_Some in Hi as [_ (param & Hparam & Hname & _)].
      exists param. rewrite Nat2Z.id, Nat.sub_0_r in *.
      split_and!; [lia|done|by left].
    + pose proof (index_of_name_None _ _ _ Hi) as Hnone.
      destruct (last (params self)) as [param|] eqn:Hlast; [|done].
      destruct (tree_name param) as [[star_count|]|] eqn:Htree; simpl;
        [|done..].
      destruct (Z.eqb_spec star_count 2) as [->|]; [|done].
      intros [= <-]. exists param. rewrite Nat2Z.id.
      rewrite last_lookup in Hlast.
      replace (length (params self) - 1) with (pred (length (params self)))
        by lia.
      split_and!; [lia|done|]. right. split_and!; [done|lia|done].
  - destruct (Z.leb_spec (Z.of_nat (length (params self))) (_index self)).
    + destruct (index_of_star (params self) 0) as [[i|]|] eqn:Hi; simpl;
        [|done..].
      intros [= <-].
      apply index_of_star_Some in Hi as [_ (param & Hparam & Htree)].
      exists param. rewrite Nat2Z.id, Nat.sub_0_r in *.
      split_and!; [lia|done|by right].
    + intros [= <-].
      destruct (lookup_lt_is_Some_2 (params self) (Z.to_nat (_index self)))
        as [param Hparam]; [lia|].
      exists param. split_and!; [done|done|by left].
Qed.

Lemma index_is_param_witness :
  ∃ param, (0 ≤ 1)%Z ∧ example_signature_params !! Z.to_nat 1 = Some param
    ∧ (1%Z = 7%Z
       ∨ ((Z.of_nat (length example_signature_params) ≤ 7)%Z
          ∧ tree_name param = Some (Some 1%Z))).
Proof.
  exact (index_is_param
           {| params := example_signature_params; _index := 7;
              _key_name_str := None |} 1 ltac:(simpl; lia) eq_refl).
Defined.

(** X17 — A keyword that names a parameter is always found: [index]
    returns the position of the first parameter of that name, whatever the
    position of the argument in the call, and without looking at any tree
    name. *)
Theorem index_keyword (self : CallSignature) (key : string) (i : nat)
    (param : Name) :
  _key_name_str self = Some key →
  params self !! i = Some param →
  string_name param = key →
  (∀ k p, k < i → params self !! k = Some p → string_name p ≠ key) →
  index self = Ok (Some (Z.of_nat i)).
Proof.
  intros Hkey Hparam Hname Hfirst. unfold index. rewrite Hkey.
  by rewrite (index_of_name_first key (params self) 0 i param).
Qed.

Lemma index_keyword_witness :
  index {| params := example_signature_params; _index := 0;
           _key_name_str := Some "b" |} = Ok (Some 2%Z).
Proof.
  refine (index_keyword
            {| params := example_signature_params; _index := 0;
               _key_name_str := Some "b" |} "b" 2 _ eq_refl eq_refl eq_refl _).
  intros [|[|k]] p Hk; [by intros [= <-]..|lia].
Defined.

End ClassesLaws.

(** * Properties of listing a filter of [compiled/context.py] *)

Module CompiledValuesLaws.
Import Compiled CompiledValues.
Local Open Scope nat_scope.

Section Laws.
Context {access : Type} `{Countable access} `{!Reflection access}.
Context {foreign_name : Type}.
Variable access_get_dir_infos : access → bool * list (string * (bool * bool)).
Variable type_names : list foreign_name.

Lemma getitem_item (d : list (string * (bool * bool))) k v :
  NoDup d.*1 → (k, v) ∈ d → getitem d k = v.
Proof.
  induction d as [|[key value] d IH]; simpl; [by intros _ ?%elem_of_nil|].
  intros [Hkey Hd]%NoDup_cons [[= -> ->]|Hkv]%elem_of_cons.
  - by rewrite bool_decide_true.
  - rewrite bool_decide_false; [by apply IH|].
    intros ->. apply Hkey. apply list_elem_of_fmap. by exists (k, v).
Qed.

(** X18 — [values] lists every attribute of [dir_infos], once and in the
    order of the dictionary: the marker name for a descriptor or for an
    attribute that cannot be read, the compiled name on the object of the
    filter for every other one, also on the filter of an instance.  The
    names of [type] follow, for a filter that is not for an instance, when
    the handle asks for them. *)
Theorem values_one_per_entry (self : CompiledObjectFilter access) :
  let infos := access_get_dir_infos (access_handle (_compiled_object self)) in
  NoDup infos.2.*1 →
  ∃ own : list (Name access),
    values access_get_dir_infos type_names self
    = (inl <$> own)
      ++ (if negb (filter_is_instance self) && infos.1
          then inr <$> type_names else [])
    ∧ Forall2 (λ n '(name, (has_attribute, is_descriptor)),
                 n = if is_descriptor || negb has_attribute
                     then EmptyCompiledName name
                     else CompiledName (_compiled_object self) name)
              own infos.2.
Proof.
  intros infos Hdup. unfold values. fold infos.
  destruct infos as [needs dir_infos]. simpl in *.
  assert (∀ items, items ⊆ dir_infos →
            ∃ own : list (Name access),
              (name ← items.*1;
               _get self name (λ _, getitem dir_infos name)
                 (λ _, dir_infos.*1) false) = own
              ∧ Forall2 (λ n '(name, (has_attribute, is_descriptor)),
                           n = if is_descriptor || negb has_attribute
                               then EmptyCompiledName name
                               else CompiledName (_compiled_object self) name)
                        own items) as Hloop.
  { induction items as [|[name [has_attribute is_descriptor]] items IH];
      intros Hsub.
    { exists []. by split. }
    destruct IH as (own & Hown & Hall).
    { intros x Hx. apply Hsub. by right. }
    eexists. split; [done|].
    rewrite fmap_cons, bind_cons. simpl. unfold _get at 1.
    rewrite (getitem_item dir_infos name (has_attribute, is_descriptor))
      by (done || apply Hsub; left).
    simpl. unfold force_unicode.
    assert (name ∈ dir_infos.*1) as Hname.
    { apply list_elem_of_fmap. exists (name, (has_attribute, is_descriptor)).
      split; [done|]. apply Hsub. left. }
    rewrite (bool_decide_true _ Hname), andb_false_r. rewrite Hown.
    destruct (is_descriptor || negb has_attribute) eqn:Hempty; simpl;
      (constructor; [by rewrite Hempty|done]). }
  destruct (Hloop dir_infos) as (own & -> & Hall); [done|].
  exists own. split; [|done].
  destruct (negb (filter_is_instance self) && needs); [done|].
  by rewrite app_nil_r.
Qed.

End Laws.

Lemma values_one_per_entry_witness :
  ∃ own : list (Name string),
    values (λ h : string,
              (true, [("real", (true, false)); ("prop", (true, true))]))
      ["mro"] example_filter
    = (inl <$> own) ++ [inr "mro"]
    ∧ own = [CompiledName (_compiled_object example_filter) "real";
             EmptyCompiledName "prop"].
Proof.
  destruct (values_one_per_entry
              (λ h : string,
                 (true, [("real", (true, false)); ("prop", (true, true))]))
              ["mro"] example_filter) as (own & Hvalues & Hown).
  { simpl. repeat constructor; set_solver. }
  exists own. split; [exact Hvalues|].
  apply Forall2_cons_inv_r in Hown as (n1 & own1 & -> & Hown & ->).
  apply Forall2_cons_inv_r in Hown as (n2 & own2 & -> & Hown & ->).
  by apply Forall2_nil_inv_r in Hown as ->.
Defined.

End CompiledValuesLaws.

(** * Properties of the docstring parser of [compiled/context.py] *)

Module CompiledDocLaws.
Import Stdlib.Strings.Ascii.
Import Names CompiledDoc.
Local Open Scope nat_scope.

Lemma subn_from_skip (skip : nat) (s : text) :
  subn_from skip s = subn_from 0 (drop skip s).
Proof.
  revert skip. induction s as [|c s IH]; intros [|skip]; try done.
  simpl. apply IH.
Qed.

Lemma subn_eq (s : text) :
  subn s
  = match option_match s with
    | Some (group, len) =>
        let '(rest, changes) := subn (drop len s) in
        (change_options group ++ rest, S changes)
    | None =>
        match s with
        | [] => ([], 0)
        | c :: s' => let '(rest, changes) := subn s' in (c :: rest, changes)
        end
    end.
Proof.
  unfold subn. destruct s as [|c s]; [done|].
  cbn [subn_from].
  destruct (option_match (c :: s)) as [[group len]|] eqn:Hm; [|done].
  rewrite subn_from_skip.
  assert (1 ≤ len) as Hlen.
  { unfold option_match in Hm. case_bool_decide;
      destruct (bracket_group _); simplify_eq/=; lia. }
  by replace len with (S (len - 1)) at 2 by lia.
Qed.

Lemma group_body_Some (s group : text) :
  group_body s = Some group →
  Forall (λ c, is_bracket c = false) group
  ∧ ∃ post, s = group ++ "]"%char :: post.
Proof.
  revert group. induction s as [|c s IH]; intros group; simpl; [done|].
  case_bool_decide as Hclose.
  { intros [= <-]. split; [done|]. exists s. by rewrite Hclose. }
  case_bool_decide as Hopen; [done|].
  destruct (group_body s) as [g|]; [|done]. simpl. intros [= <-].
  destruct (IH g eq_refl) as [Hg [post ->]]. split.
  - constructor; [|done]. unfold is_bracket.
    by rewrite !bool_decide_false.
  - by exists post.
Qed.

Lemma group_body_app (group post : text) :
  Forall (λ c, is_bracket c = false) group →
  group_body (group ++ "]"%char :: post) = Some group.
Proof.
  induction 1 as [|c group Hc _ IH]; simpl; [done|].
  unfold is_bracket in Hc. apply orb_false_iff in Hc as [Ho Hc].
  apply bool_decide_eq_false in Ho, Hc.
  rewrite !bool_decide_false by done. by rewrite IH.
Qed.

Lemma bracket_group_Some (s group : text) :
  bracket_group s = Some group →
  group ≠ [] ∧ Forall (λ c, is_bracket c = false) group
  ∧ ∃ post, s = "["%char :: group ++ "]"%char :: post.
Proof.
  destruct s as [|c s]; simpl; [done|].
  case_bool_decide as Hopen; [|done]. subst c.
  destruct (group_body s) as [[|c' g]|] eqn:Hbody; [done| |done].
  intros [= <-]. apply group_body_Some in Hbody as [Hg [post ->]].
  split_and!; [done|done|by exists post].
Qed.

Lemma bracket_group_app (group post : text) :
  group ≠ [] → Forall (λ c, is_bracket c = false) group →
  bracket_group ("["%char :: group ++ "]"%char :: post) = Some group.
Proof.
  intros Hne Hg. simpl. rewrite group_body_app by done. by destruct group.
Qed.

Lemma option_match_Some (s group : text) (len : nat) :
  option_match s = Some (group, len) →
  group ≠ [] ∧ Forall (λ c, is_bracket c = false) group
  ∧ ∃ pre post, s = pre ++ "["%char :: group ++ "]"%char :: post
      ∧ drop len s = post ∧ len = length pre + 2 + length group
      ∧ (pre = [] ∨ pre = [" "%char]).
Proof.
  destruct s as [|c s]; [done|]. unfold option_match.
  case_bool_decide as Hspace.
  - destruct (bracket_group s) as [g|] eqn:Hg; [|done]. simpl.
    intros [= <- <-]. apply bracket_group_Some in Hg as (Hne & Hg & post & ->).
    split_and!; [done..|]. exists [c], post. subst c.
    split_and!; [done| |simpl; lia|by right].
    simpl. rewrite cons_middle, app_assoc. apply drop_app_length'.
    rewrite length_app. simpl. lia.
  - destruct (bracket_group (c :: s)) as [g|] eqn:Hg; [|done]. simpl.
    intros [= <- <-]. apply bracket_group_Some in Hg as (Hne & Hg & post & Hs).
    split_and!; [done..|]. exists [], post. rewrite Hs.
    split_and!; [done| |simpl; lia|by left].
    simpl. rewrite cons_middle, app_assoc. apply drop_app_length'.
    rewrite length_app. simpl. lia.
Qed.

Lemma elem_of_split (sep : ascii) (s piece : text) (c : ascii) :
  piece ∈ split sep s → c ∈ piece → c ∈ s.
Proof.
  revert piece. induction s as [|x s IH]; intros piece; simpl.
  { intros ->%list_elem_of_singleton. by intros ?%elem_of_nil. }
  case_bool_decide as Hsep.
  - intros [->|Hp]%elem_of_cons; [by intros ?%elem_of_nil|].
    intros Hc. right. by eapply IH.
  - destruct (split sep s) as [|p ps] eqn:Hsplit.
    + intros ->%list_elem_of_singleton ->%list_elem_of_singleton. left.
    + intros [->|Hp]%elem_of_cons.
      * intros [->|Hc]%elem_of_cons; [left|]. right. apply (IH p); [left|done].
      * intros Hc. right. apply (IH piece); [by right|done].
Qed.

Lemma elem_of_join (sep : text) (pieces : list text) (c : ascii) :
  c ∈ join sep pieces → c ∈ sep ∨ ∃ piece, piece ∈ pieces ∧ c ∈ piece.
Proof.
  induction pieces as [|p [|q pieces] IH]; simpl.
  - by intros ?%elem_of_nil.
  - intros Hc. right. exists p. split; [left|done].
  - intros [Hc|[Hc|Hc]%elem_of_app]%elem_of_app.
    + right. exists p. split; [left|done].
    + by left.
    + destruct (IH Hc) as [?|(piece & Hp & ?)]; [by left|].
      right. exists piece. split; [by right|done].
Qed.

Lemma elem_of_change_options (group : text) (c : ascii) :
  c ∈ change_options group →
  c ∈ group ∨ c ∈ text_of "=None" ∨ c = ","%char.
Proof.
  unfold change_options.
  intros [Hc|(piece & Hp & Hc)]%elem_of_join.
  { right. right. by apply list_elem_of_singleton in Hc. }
  apply list_elem_of_fmap in Hp as (a & -> & Ha).
  destruct (_ && _).
  - apply elem_of_app in Hc as [Hc|Hc]; [|by right; left].
    left. by eapply elem_of_split.
  - left. by eapply elem_of_split.
Qed.

Lemma change_options_no_bracket (group : text) :
  Forall (λ c, is_bracket c = false) group →
  Forall (λ c, is_bracket c = false) (change_options group).
Proof.
  rewrite !Forall_forall. intros Hg c [Hc|[Hc| ->]]%elem_of_change_options.
  - by apply Hg.
  - cbn in Hc. set_solver.
  - done.
Qed.

Lemma count_open_app (s t : text) :
  count_open (s ++ t) = count_open s + count_open t.
Proof. unfold count_open. by rewrite filter_app, length_app. Qed.

Lemma count_open_no_bracket (s : text) :
  Forall (λ c, is_bracket c = false) s → count_open s = 0.
Proof.
  unfold count_open. induction 1 as [|c s Hc _ IH]; [done|].
  rewrite filter_cons. case_decide as Ho; [|done].
  subst c. done.
Qed.

Lemma count_open_le (s : text) : count_open s ≤ length s.
Proof. apply length_filter. Qed.

(** A pass takes as many opening brackets away as it makes changes. *)
Lemma subn_count_open (s : text) :
  count_open (subn s).1 + (subn s).2 = count_open s.
Proof.
  remember (length s) as n eqn:Hn. revert s Hn.
  induction n as [n IH] using lt_wf_ind. intros s ->.
  rewrite subn_eq.
  destruct (option_match s) as [[group len]|] eqn:Hm.
  - apply option_match_Some in Hm
      as (Hne & Hg & pre & post & Hs & Hdrop & Hlen & Hpre).
    rewrite Hdrop.
    specialize (IH (length post) ltac:(rewrite Hs, !length_app; simpl;
                      rewrite length_app; simpl; lia) post eq_refl).
    destruct (subn post) as [rest changes]. simpl in *.
    rewrite Hs, !count_open_app.
    rewrite (count_open_no_bracket (change_options group))
      by by apply change_options_no_bracket.
    replace (count_open pre) with 0 by by destruct Hpre as [-> | ->].
    change ("["%char :: group ++ "]"%char :: post)
      with (["["%char] ++ group ++ ["]"%char] ++ post).
    rewrite !count_open_app, (count_open_no_bracket group) by done.
    change (count_open ["["%char]) with 1.
    change (count_open ["]"%char]) with 0. lia.
  - destruct s as [|c s]; [done|].
    specialize (IH (length s) ltac:(simpl; lia) s eq_refl).
    destruct (subn s) as [rest changes]. simpl in *.
    change (c :: rest) with ([c] ++ rest).
    change (c :: s) with ([c] ++ s). rewrite !count_open_app. lia.
Qed.

(** A pass that changes nothing returns the text it was given, and no
    position of that text starts a match. *)
Lemma subn_unchanged (s : text) :
  (subn s).2 = 0 →
  (subn s).1 = s ∧ ∀ i, option_match (drop i s) = None.
Proof.
  induction s as [|c s IH]; rewrite subn_eq.
  { intros _. split; [done|]. by intros [|i]. }
  destruct (option_match (c :: s)) as [[group len]|] eqn:Hm.
  { by destruct (subn (drop len (c :: s))). }
  destruct (subn s) as [rest changes]. simpl in *. intros ->.
  destruct (IH eq_refl) as [-> Hnone]. split; [done|].
  intros [|i]; [done|]. apply Hnone.
Qed.

(** The loop ends in the text on which a pass changes nothing. *)
Lemma remove_options_done (fuel : nat) (s : text) :
  count_open s < fuel → (subn (remove_options fuel s)).2 = 0.
Proof.
  revert s. induction fuel as [|fuel IH]; intros s Hfuel; [lia|].
  simpl. pose proof (subn_count_open s) as Hcount.
  destruct (subn s) as [s' changes] eqn:Hs. simpl in *.
  destruct changes as [|changes]; simpl.
  - pose proof (subn_unchanged s) as Hun. rewrite Hs in Hun.
    destruct (Hun eq_refl) as [Heq _]. simpl in Heq. subst s'.
    by rewrite Hs.
  - apply IH. lia.
Qed.


Lemma replace_bracket (a : ascii) :
  is_bracket (if bool_decide (a = "-"%char) then "_"%char else a)
  = is_bracket a.
Proof. case_bool_decide as Ha; [by subst a|done]. Qed.

(** X19 — The parameter text that [_parse_function_doc] returns holds no
    dash, and no option is left in it: every pair of square brackets
    around a text that is not empty has another bracket inside.  The loop
    that rewrites the options always comes to its end. *)
Theorem parse_function_doc_params (doc param_str ret : text) :
  _parse_function_doc doc = Ok (param_str, ret) →
  ("-"%char ∉ param_str)
  ∧ (∀ pre group post,
       param_str = pre ++ "["%char :: group ++ "]"%char :: post →
       group ≠ [] →
       ∃ c, c ∈ group ∧ is_bracket c = true).
Proof.
  unfold _parse_function_doc.
  set (found := match round_parentheses doc with
                | Some (end_, param_str) =>
                    (end_, remove_options (S (length param_str)) param_str)
                | None => (0, [])
                end).
  assert ((subn found.2).2 = 0) as Hdone.
  { subst found. destruct (round_parentheses doc) as [[end_ p]|]; [|done].
    change ((subn (remove_options (S (length p)) p)).2 = 0).
    apply remove_options_done.
    pose proof (count_open_le p). lia. }
  destruct found as [end_ base]. simpl in Hdone.
  apply subn_unchanged in Hdone as [_ Hnone].
  intros Hparse.
  assert (param_str = replace "-"%char "_"%char base) as ->.
  { destruct (search_arrow _ _); [|by simplify_eq].
    destruct (result_type _); by simplify_eq. }
  clear Hparse. split.
  { unfold replace. intros (c & Hc & _)%list_elem_of_fmap.
    by case_bool_decide. }
  intros pre group post Hsplit Hne.
  destruct (decide (Forall (λ c, is_bracket c = false) group)) as [Hg|Hg].
  2:{ apply not_Forall_Exists in Hg; [|apply _].
      apply Exists_exists in Hg as (c & Hc & Hb). exists c. split; [done|].
      simpl in Hb. by destruct (is_bracket c). }
  exfalso. unfold replace in Hsplit.
  apply fmap_app_inv in Hsplit as (pre' & rest & -> & Hrest & ->).
  symmetry in Hrest.
  apply fmap_cons_inv in Hrest as (o & rest' & Ho & Hrest & ->).
  symmetry in Hrest.
  apply fmap_app_inv in Hrest as (group' & rest & -> & Hrest & ->).
  symmetry in Hrest.
  apply fmap_cons_inv in Hrest as (k & post' & Hk & -> & ->).
  assert (o = "["%char) as ->.
  { destruct (decide (o = "-"%char)) as [->|Hn]; [done|].
    by rewrite bool_decide_false in Ho. }
  assert (k = "]"%char) as ->.
  { destruct (decide (k = "-"%char)) as [->|Hn]; [done|].
    by rewrite bool_decide_false in Hk. }
  specialize (Hnone (length pre')).
  rewrite drop_app_length in Hnone.
  unfold option_match in Hnone. rewrite bool_decide_false in Hnone by done.
  rewrite bracket_group_app in Hnone; [done|by destruct group'|].
  apply Forall_fmap in Hg. eapply Forall_impl; [exact Hg|].
  intros c. simpl. by rewrite replace_bracket.
Qed.

Lemma parse_function_doc_params_witness :
  ("-"%char ∉ text_of "a, b=None, c_d=None")
  ∧ (∀ pre group post,
       text_of "a, b=None, c_d=None"
       = pre ++ "["%char :: group ++ "]"%char :: post →
       group ≠ [] →
       ∃ c, c ∈ group ∧ is_bracket c = true).
Proof.
  exact (parse_function_doc_params (text_of "f(a[, b[, c-d]]) -> int")
           (text_of "a, b=None, c_d=None") (text_of "int") eq_refl).
Defined.


Lemma index_app (c : ascii) (s t : text) :
  c ∉ s → index c (s ++ c :: t) = Some (length s).
Proof.
  induction s as [|x s IH]; simpl; intros Hc.
  - by rewrite bool_decide_true.
  - rewrite bool_decide_false by (intros ->; apply Hc; left).
    rewrite IH; [done|]. intros ?. apply Hc. by right.
Qed.

Lemma closing_plain (count : Z) (i : nat) (s t : text) :
  Forall (λ c, c ≠ "("%char ∧ c ≠ ")"%char) s → (count = 1)%Z →
  closing count i (s ++ ")"%char :: t) = Some (i + length s).
Proof.
  intros Hs ->. revert i. induction Hs as [|c s [Ho Hc] _ IH]; intros i; simpl.
  - f_equal. lia.
  - rewrite !bool_decide_false by done. simpl. rewrite IH. f_equal. lia.
Qed.

Lemma option_match_plain (s : text) :
  "["%char ∉ s → option_match s = None.
Proof.
  destruct s as [|c s]; [done|]. intros Hs. unfold option_match.
  assert (∀ t, "["%char ∉ t → bracket_group t = None) as Hnone.
  { intros [|x t] Ht; [done|]. simpl.
    rewrite bool_decide_false; [done|]. intros ->. apply Ht. left. }
  case_bool_decide.
  - rewrite Hnone; [done|]. intros ?. apply Hs. by right.
  - by rewrite Hnone.
Qed.

Lemma subn_plain (s : text) : "["%char ∉ s → subn s = (s, 0).
Proof.
  induction s as [|c s IH]; intros Hs; rewrite subn_eq; [done|].
  rewrite option_match_plain by done.
  rewrite IH; [done|]. intros ?. apply Hs. by right.
Qed.

Lemma result_type_stop (c : ascii) (s : text) :
  c = LF ∨ c = "-"%char → result_type (c :: s) = [].
Proof. intros [-> | ->]; by destruct s. Qed.

Lemma result_type_cons_cons (c c' : ascii) (s : text) :
  result_type (c :: c' :: s)
  = if bool_decide (c = ","%char) && bool_decide (c' = LF)
    then c :: c' :: result_type s
    else if bool_decide (c = LF) || bool_decide (c = "-"%char) then []
    else c :: result_type (c' :: s).
Proof. done. Qed.

Lemma result_type_plain (ret tail : text) :
  ret ≠ [] →
  Forall (λ c, c ≠ LF ∧ c ≠ "-"%char) ret →
  match tail with
  | [] => True
  | c :: _ => (c = LF ∧ last ret ≠ Some ","%char) ∨ c = "-"%char
  end →
  result_type (ret ++ tail) = ret.
Proof.
  intros Hne Hret. induction Hret as [|c ret [Hlf Hdash] Hret IH]; [done|].
  clear Hne. intros Htail. destruct ret as [|c' ret].
  - destruct tail as [|t tail]; simpl.
    { by rewrite !bool_decide_false. }
    destruct Htail as [[-> Hlast]| ->].
    + rewrite (bool_decide_false (c = ","%char))
        by (intros ->; by apply Hlast).
      simpl. rewrite !bool_decide_false by done. simpl.
      f_equal. by destruct tail.
    + rewrite (bool_decide_false ("-"%char = LF)) by done.
      rewrite andb_false_r, !bool_decide_false by done. simpl.
      f_equal. by destruct tail.
  - apply Forall_cons in Hret as [[Hlf' Hdash'] Hret'].
    change ((c :: c' :: ret) ++ tail) with (c :: c' :: (ret ++ tail)).
    rewrite result_type_cons_cons.
    rewrite (bool_decide_false (c' = LF)) by done.
    rewrite andb_false_r, !bool_decide_false by done. cbn [orb].
    f_equal. apply IH; [done|].
    destruct tail as [|t tail]; [done|].
    destruct Htail as [[-> Hlast]| ->]; [left|by right].
    split; [done|]. by rewrite last_cons_cons in Hlast.
Qed.

Lemma parse_function_doc_arrow (name params rest : text) :
  "("%char ∉ name →
  Forall (λ c, c ∉ text_of "()[]") params →
  _parse_function_doc
    (name ++ text_of "(" ++ params ++ text_of ") -> " ++ rest)
  = match result_type rest with
    | [] => Raise AttributeError
    | group =>
        Ok (replace "-"%char "_"%char params,
            docstr_defaults_get (sub_new false (strip group)))
    end.
Proof.
  intros Hname Hparams. unfold _parse_function_doc.
  assert (round_parentheses
            (name ++ text_of "(" ++ params ++ text_of ") -> " ++ rest)
          = Some (length name + S (length params), params)) as ->.
  { unfold round_parentheses.
    cbn [text_of Strings.String.list_ascii_of_string app].
    rewrite index_app by done. simpl.
    rewrite drop_app_length. simpl.
    rewrite (closing_plain _ _ params); [|clear -Hparams|done].
    2:{ eapply Forall_impl; [exact Hparams|]. intros c Hc. cbn in Hc.
        split; intros ->; apply Hc; set_solver. }
    simpl. do 3 f_equal.
    replace (length name + S (length params) - (length name + 1))
      with (length params) by lia.
    rewrite (cons_middle "("%char), app_assoc, drop_app_length'
      by (rewrite length_app; simpl; lia).
    by rewrite take_app_length. }
  assert ("["%char ∉ params) as Hopen.
  { intros Hin. rewrite Forall_forall in Hparams.
    apply (Hparams _ Hin). cbn. set_solver. }
  cbn [remove_options]. rewrite subn_plain by done. cbn [Nat.eqb].
  assert (drop (length name + S (length params))
            (name ++ text_of "(" ++ params ++ text_of ") -> " ++ rest)
          = text_of ") -> " ++ rest) as Hdrop.
  { rewrite drop_app_ge by lia.
    replace (length name + S (length params) - length name)
      with (S (length params)) by lia.
    simpl. by rewrite drop_app_length. }
  rewrite Hdrop.
  assert (search_arrow 0 (take 7 (text_of ") -> " ++ rest)) = Some 5)
    as -> by done.
  rewrite <- drop_drop, Hdrop.
  by change (drop 5 (text_of ") -> " ++ rest)) with rest.
Qed.

(** X20 — A docstring of the plain form [name(params) -> type], with no
    bracket inside [params] and with a [type] that ends at a line break,
    at a dash or with the text, is taken apart into its two parts:
    [_parse_function_doc] returns [params], its dashes turned into
    underscores, and the stripped [type], rewritten from [new T] to [T()]
    and through [docstr_defaults]. *)
Theorem parse_function_doc_plain (name params ret tail : text) :
  "("%char ∉ name →
  Forall (λ c, c ∉ text_of "()[]") params →
  ret ≠ [] →
  Forall (λ c, c ≠ LF ∧ c ≠ "-"%char) ret →
  match tail with
  | [] => True
  | c :: _ => (c = LF ∧ last ret ≠ Some ","%char) ∨ c = "-"%char
  end →
  _parse_function_doc
    (name ++ text_of "(" ++ params ++ text_of ") -> " ++ ret ++ tail)
  = Ok (replace "-"%char "_"%char params,
        docstr_defaults_get (sub_new false (strip ret))).
Proof.
  intros Hname Hparams Hne Hret Htail.
  rewrite parse_function_doc_arrow by done.
  rewrite result_type_plain by done.
  by destruct ret.
Qed.

Lemma parse_function_doc_plain_witness :
  _parse_function_doc
    (text_of "getattr(object, name-default) -> New value" ++ [LF; LF]
     ++ text_of "Get a named attribute.")
  = Ok (text_of "object, name_default", text_of "value()").
Proof.
  refine (parse_function_doc_plain (text_of "getattr")
            (text_of "object, name-default") (text_of "New value")
            ([LF; LF] ++ text_of "Get a named attribute.") _ _ _ _ _).
  - cbn. set_solver.
  - cbn. repeat constructor; set_solver.
  - done.
  - cbn. repeat constructor; done.
  - left. split; [done|]. by cbn.
Defined.


Lemma parse_function_doc_no_dash (doc param_str ret : text) :
  _parse_function_doc doc = Ok (param_str, ret) → "-"%char ∉ param_str.
Proof.
  unfold _parse_function_doc.
  destruct (match round_parentheses doc with
            | Some (end_, param_str) =>
                (end_, remove_options (S (length param_str)) param_str)
            | None => (0, [])
            end) as [end_ base].
  intros Hparse.
  assert (param_str = replace "-"%char "_"%char base) as ->.
  { destruct (search_arrow _ _); [|by simplify_eq].
    destruct (result_type _); by simplify_eq. }
  unfold replace. intros (c & Hc & _)%list_elem_of_fmap.
  by case_bool_decide.
Qed.

Lemma parse_function_doc_no_parenthesis (doc param_str ret : text) :
  "("%char ∉ doc →
  _parse_function_doc doc = Ok (param_str, ret) → param_str = [].
Proof.
  intros Hdoc. unfold _parse_function_doc, round_parentheses.
  assert (index "("%char doc = None) as ->.
  { induction doc as [|c doc IH]; [done|]. simpl.
    rewrite bool_decide_false by (intros ->; apply Hdoc; left).
    rewrite IH; [done|]. intros ?. apply Hdoc. by right. }
  simpl. destruct (search_arrow _ _); [|by intros [= <- _]].
  destruct (result_type _); [done|]. by intros [= <- _].
Qed.

Lemma split_not_nil (sep : ascii) (s : text) : split sep s ≠ [].
Proof.
  destruct s as [|c s]; simpl; [done|].
  case_bool_decide; [done|]. by destruct (split sep s).
Qed.

Lemma lstrip_spec (s : text) :
  ∃ spaces, s = spaces ++ lstrip s
    ∧ ∀ c, head (lstrip s) = Some c → isspace c = false.
Proof.
  induction s as [|c s (spaces & Hs & Hhead)]; simpl.
  { by exists []. }
  destruct (isspace c) eqn:Hc.
  - exists (c :: spaces). split; [simpl; by rewrite <- Hs|done].
  - exists []. split; [done|]. by intros c' [= <-].
Qed.

Lemma strip_spec (s : text) :
  (∀ c, c ∈ strip s → c ∈ s)
  ∧ ∀ c, head (strip s) = Some c → isspace c = false.
Proof.
  unfold strip.
  destruct (lstrip_spec s) as (left_spaces & Hleft & Hhead).
  destruct (lstrip_spec (reverse (lstrip s))) as (right_spaces & Hright & _).
  apply (f_equal reverse) in Hright.
  rewrite reverse_involutive, reverse_app in Hright.
  set (stripped := reverse (lstrip (reverse (lstrip s)))) in *.
  split.
  - intros c Hc. rewrite Hleft, Hright. set_solver.
  - intros c Hc. apply Hhead. rewrite Hright.
    by destruct stripped.
Qed.

Lemma partition_spec (sep : ascii) (s : text) :
  (sep ∉ (partition sep s).1) ∧ (∀ c, c ∈ (partition sep s).1 → c ∈ s).
Proof.
  induction s as [|x s [IHsep IHin]]; simpl.
  { split; [by intros ?%elem_of_nil|done]. }
  case_bool_decide as Hx; simpl.
  { split; [by intros ?%elem_of_nil|by intros c ?%elem_of_nil]. }
  destruct (partition sep s) as [before after]. simpl in *. split.
  - intros [->|?]%elem_of_cons; [done|by apply IHsep].
  - intros c [->|?]%elem_of_cons; [left|right; by apply IHin].
Qed.

(** X21 — Without a signature, [get_param_names] reads the parameters off
    the docstring, and never returns an empty list: a docstring without a
    parenthesis, or no docstring at all, gives one parameter with an empty
    name, after [self] for a method descriptor.  No name it returns holds
    an equals sign or a dash, or starts with white space. *)
Theorem get_param_names_fallback {signature_param : Type}
    (doc : option text) (ismethoddescriptor : bool)
    (names : list (ParamName signature_param)) :
  get_param_names None doc ismethoddescriptor = Ok names →
  names ≠ []
  ∧ (∀ n, n ∈ names →
       ∃ name default, n = UnresolvableParamName name default
         ∧ ("="%char ∉ name) ∧ ("-"%char ∉ name)
         ∧ ∀ c, head name = Some c → isspace c = false)
  ∧ ((∀ d, doc = Some d → "("%char ∉ d) →
     names = (if ismethoddescriptor
              then [UnresolvableParamName (text_of "self") []] else [])
             ++ [UnresolvableParamName [] []]).
Proof.
  unfold get_param_names.
  destruct (parse_function_doc_of doc) as [[params_str ret]|e] eqn:Hparse;
    [|done].
  simpl. intros [= <-].
  assert ("-"%char ∉ params_str) as Hdash.
  { destruct doc as [doc|]; simpl in Hparse.
    - by eapply parse_function_doc_no_dash.
    - injection Hparse as <- _. by intros ?%elem_of_nil. }
  set (tokens := if ismethoddescriptor
                 then text_of "self" :: split ","%char params_str
                 else split ","%char params_str).
  assert (∀ p c, p ∈ tokens → c ∈ p → c ≠ "-"%char ∧ True) as Htokens.
  { intros p c Hp Hc. split; [|done]. intros ->. subst tokens.
    destruct ismethoddescriptor.
    - apply elem_of_cons in Hp as [->|Hp]; [cbn in Hc; set_solver|].
      apply Hdash. by eapply elem_of_split.
    - apply Hdash. by eapply elem_of_split. }
  split_and!.
  - subst tokens. pose proof (split_not_nil ","%char params_str).
    destruct ismethoddescriptor; [done|].
    by destruct (split ","%char params_str).
  - intros n (p & -> & Hp)%list_elem_of_fmap.
    pose proof (partition_spec "="%char (strip p)) as [Hsep Hin].
    destruct (strip_spec p) as [Hstrip Hhead].
    destruct (partition "="%char (strip p)) as [name default] eqn:Hpart.
    simpl in *. exists name, default. split_and!; [done|done| |].
    + intros Hc. by destruct (Htokens p "-"%char Hp (Hstrip _ (Hin _ Hc))).
    + intros c Hc. apply Hhead.
      destruct (strip p) as [|x stripped]; [by simplify_eq/=|].
      simpl in Hpart. case_bool_decide; [by simplify_eq/=|].
      destruct (partition "="%char stripped). by simplify_eq/=.
  - intros Hdoc. assert (params_str = []) as ->.
    { destruct doc as [doc|]; simpl in Hparse; [|by simplify_eq].
      eapply parse_function_doc_no_parenthesis; [|done]. by apply Hdoc. }
    subst tokens. by destruct ismethoddescriptor.
Qed.

Lemma get_param_names_fallback_witness :
  get_param_names (signature_param := Empty_set) None
    (Some (text_of "f(a[, b]) -> int")) true
  = Ok [UnresolvableParamName (text_of "self") [];
        UnresolvableParamName (text_of "a") [];
        UnresolvableParamName (text_of "b") (text_of "None")]
  ∧ [UnresolvableParamName (signature_param := Empty_set) (text_of "self") [];
     UnresolvableParamName (text_of "a") [];
     UnresolvableParamName (text_of "b") (text_of "None")] ≠ [].
Proof.
  split; [done|].
  exact (proj1 (get_param_names_fallback (signature_param := Empty_set)
                  (Some (text_of "f(a[, b]) -> int")) true _ eq_refl)).
Defined.


(** X22 — An arrow with no type behind it makes the parser raise: on a
    docstring [name(params) -> ] that ends after the arrow, or goes on
    with a line break or a dash, [_parse_function_doc] raises
    [AttributeError], and so does [get_param_names] for an object without
    a signature, which catches [ValueError] only. *)
Theorem parse_function_doc_no_type {signature_param : Type}
    (name params tail : text) (ismethoddescriptor : bool) :
  "("%char ∉ name →
  Forall (λ c, c ∉ text_of "()[]") params →
  match tail with
  | [] => True
  | c :: _ => c = LF ∨ c = "-"%char
  end →
  let doc := name ++ text_of "(" ++ params ++ text_of ") -> " ++ tail in
  _parse_function_doc doc = Raise AttributeError
  ∧ get_param_names (signature_param := signature_param)
      None (Some doc) ismethoddescriptor
    = Raise AttributeError.
Proof.
  intros Hname Hparams Htail doc.
  assert (_parse_function_doc doc = Raise AttributeError) as Hraise.
  { subst doc. rewrite parse_function_doc_arrow by done.
    destruct tail as [|c tail]; [done|]. by rewrite result_type_stop. }
  split; [done|]. unfold get_param_names. simpl. by rewrite Hraise.
Qed.

Lemma parse_function_doc_no_type_witness :
  _parse_function_doc (text_of "close() -> " ++ [LF] ++ text_of "Close it.")
  = Raise AttributeError.
Proof.
  refine (proj1 (parse_function_doc_no_type (signature_param := Empty_set)
                   (text_of "close") [] ([LF] ++ text_of "Close it.") false
                   _ _ _)).
  - cbn. set_solver.
  - done.
  - by left.
Defined.


Lemma partition_join (sep : ascii) (s : text) :
  let '(before, after) := partition sep s in
  (sep ∈ s ∧ s = before ++ sep :: after)
  ∨ (sep ∉ s ∧ before = s ∧ after = []).
Proof.
  induction s as [|c s IH]; simpl.
  { right. split; [by intros ?%elem_of_nil|done]. }
  case_bool_decide as Hc.
  { left. subst c. split; [left|done]. }
  destruct (partition sep s) as [before after].
  destruct IH as [[Hin ->]|(Hnot & -> & ->)].
  - left. split; [by right|done].
  - right. split_and!; [|done..].
    by intros [?|?]%elem_of_cons.
Qed.

(** X25 — The parameters that [get_param_names] reads off a docstring
    print back as they were written: [to_string] of each of them is the
    stripped piece of the parameter text between two commas, [self] coming
    first for a method descriptor; only an equals sign with nothing behind
    it is lost. *)
Theorem get_param_names_to_string {signature_param : Type}
    (doc : option text) (ismethoddescriptor : bool)
    (params_str ret : text) (names : list (ParamName signature_param)) :
  parse_function_doc_of doc = Ok (params_str, ret) →
  get_param_names None doc ismethoddescriptor = Ok names →
  Forall2 (λ n token,
             ∃ name default, n = UnresolvableParamName name default
               ∧ (unresolvable_to_string name default = strip token
                  ∨ (default = [] ∧ strip token = name ++ text_of "=")))
          names
          ((if ismethoddescriptor then [text_of "self"] else [])
           ++ split ","%char params_str).
Proof.
  unfold get_param_names. intros ->. simpl. intros [= <-].
  assert (∀ tokens : list text,
            Forall2 (λ (n : ParamName signature_param) token,
                       ∃ name default, n = UnresolvableParamName name default
                         ∧ (unresolvable_to_string name default = strip token
                            ∨ (default = []
                               ∧ strip token = name ++ text_of "=")))
              ((λ p, let '(name, default) := partition "="%char (strip p) in
                     UnresolvableParamName name default) <$> tokens)
              tokens) as Htokens.
  { induction tokens as [|p tokens IH]; [constructor|].
    rewrite fmap_cons. constructor; [|done].
    pose proof (partition_join "="%char (strip p)) as Hjoin.
    destruct (partition "="%char (strip p)) as [name default].
    exists name, default. split; [done|]. unfold unresolvable_to_string.
    destruct Hjoin as [[_ Hp]|(_ & -> & ->)].
    - destruct default as [|d default]; [by right|by left].
    - by left. }
  destruct ismethoddescriptor; apply Htokens.
Qed.

Lemma get_param_names_to_string_witness :
  Forall2 (λ (n : ParamName Empty_set) token,
             ∃ name default, n = UnresolvableParamName name default
               ∧ (unresolvable_to_string name default = strip token
                  ∨ (default = [] ∧ strip token = name ++ text_of "=")))
          [UnresolvableParamName (text_of "self") [];
           UnresolvableParamName (text_of "a") [];
           UnresolvableParamName (text_of "b") (text_of "None")]
          [text_of "self"; text_of "a"; text_of " b=None"].
Proof.
  exact (get_param_names_to_string (signature_param := Empty_set)
           (Some (text_of "f(a[, b]) -> int")) true
           (text_of "a, b=None") (text_of "int") _ eq_refl eq_refl).
Defined.

End CompiledDocLaws.

(** * Properties of the description of a definition *)

Module DescriptionLaws.
Import Stdlib.Strings.Ascii.
Import CompiledDoc Classes Description.
Local Open Scope nat_scope.

Lemma elem_of_sub_spaces (in_run : bool) (s : text) (c : ascii) :
  c ∈ sub_spaces in_run s → c = " "%char ∨ (c ∈ s ∧ isspace c = false).
Proof.
  revert in_run. induction s as [|x s IH]; intros in_run; simpl.
  { by intros ?%elem_of_nil. }
  destruct (isspace x) eqn:Hx.
  - destruct in_run.
    + intros [?|[? ?]]%IH; [by left|right]. split; [by right|done].
    + intros [->|[?|[? ?]]%IH]%elem_of_cons; [by left..|right].
      split; [by right|done].
  - intros [->|[?|[? ?]]%IH]%elem_of_cons; [right|by left|right].
    + split; [left|done].
    + split; [by right|done].
Qed.

Lemma sub_spaces_head_run (s : text) (c : ascii) :
  head (sub_spaces true s) = Some c → isspace c = false.
Proof.
  induction s as [|x s IH]; simpl; [done|].
  destruct (isspace x) eqn:Hx; [done|]. by intros [= <-].
Qed.

Lemma sub_spaces_no_double (in_run : bool) (s pre post : text) :
  sub_spaces in_run s ≠ pre ++ " "%char :: " "%char :: post.
Proof.
  revert in_run pre. induction s as [|x s IH]; intros in_run pre; simpl.
  { by destruct pre. }
  destruct (isspace x) eqn:Hx.
  - destruct in_run; [apply IH|].
    destruct pre as [|p pre]; simpl.
    + intros [= Hs].
      assert (isspace " "%char = false) as Hblank; [|done].
      apply (sub_spaces_head_run s). by rewrite Hs.
    + intros [= _ Hs]. by apply IH in Hs.
  - destruct pre as [|p pre]; simpl.
    + intros [= -> _]. done.
    + intros [= _ Hs]. by apply IH in Hs.
Qed.

Lemma filter_sub_spaces (in_run : bool) (s : text) :
  filter (λ c, isspace c = false) (sub_spaces in_run s)
  = filter (λ c, isspace c = false) s.
Proof.
  revert in_run. induction s as [|x s IH]; intros in_run; simpl; [done|].
  rewrite (filter_cons _ x). destruct (isspace x) eqn:Hx.
  - rewrite decide_False by done. destruct in_run; [apply IH|].
    rewrite filter_cons, decide_False by done. apply IH.
  - rewrite decide_True by done.
    rewrite filter_cons, decide_True by done. f_equal. apply IH.
Qed.

Lemma lstrip_split (s : text) :
  ∃ spaces, s = spaces ++ lstrip s
    ∧ Forall (λ c, isspace c = true) spaces
    ∧ ∀ c, head (lstrip s) = Some c → isspace c = false.
Proof.
  induction s as [|c s (spaces & Hs & Hspaces & Hhead)]; simpl.
  { by exists []. }
  destruct (isspace c) eqn:Hc.
  - exists (c :: spaces). split_and!; [simpl; by rewrite <- Hs| |done].
    by constructor.
  - exists []. split_and!; [done|done|]. by intros c' [= <-].
Qed.

(** [strip] takes white space away at both ends, and nothing else. *)
Lemma strip_split (s : text) :
  ∃ before after, s = before ++ strip s ++ after
    ∧ Forall (λ c, isspace c = true) before
    ∧ Forall (λ c, isspace c = true) after
    ∧ (∀ c, head (strip s) = Some c → isspace c = false)
    ∧ (∀ c, last (strip s) = Some c → isspace c = false).
Proof.
  unfold strip.
  destruct (lstrip_split s) as (before & Hleft & Hbefore & Hhead).
  destruct (lstrip_split (reverse (lstrip s)))
    as (after & Hright & Hafter & Hlast).
  apply (f_equal reverse) in Hright.
  rewrite reverse_involutive, reverse_app in Hright.
  set (stripped := reverse (lstrip (reverse (lstrip s)))) in *.
  exists before, (reverse after). split_and!.
  - by rewrite <- Hright.
  - done.
  - by apply Forall_reverse.
  - intros c Hc. apply Hhead. rewrite Hright. by destruct stripped.
  - intros c Hc. apply Hlast. subst stripped.
    by rewrite last_reverse in Hc.
Qed.

(** X23 — The description of a statement is in a normal form: its only
    white space is single blanks between other characters, with no line
    break, no tab, no two blanks in a row and no blank at either end; and
    it holds, in order, exactly the characters of the code without its
    comments that are not white space. *)
Theorem description_normal_form (self : BaseDefinition)
    (param_code : option text) (definition_code : text) :
  type self ∉ ["function"; "class"; "module"; "instance"; "param"] →
  tree_name (_name self) ≠ None →
  ∃ d, description self param_code definition_code = Ok d
    ∧ (∀ c, c ∈ d → isspace c = true → c = " "%char)
    ∧ (∀ pre post, d ≠ pre ++ " "%char :: " "%char :: post)
    ∧ (∀ c, head d = Some c ∨ last d = Some c → isspace c = false)
    ∧ filter (λ c, isspace c = false) d
      = filter (λ c, isspace c = false) (sub_comments false definition_code).
Proof.
  intros Htype Htree. unfold description.
  rewrite (bool_decide_false (type self ∈ _)) by set_solver.
  rewrite (bool_decide_false (tree_name _ = None)) by done.
  rewrite (bool_decide_false (type self = "param")) by set_solver.
  simpl. eexists. split; [done|].
  set (txt := sub_spaces false (sub_comments false definition_code)).
  destruct (strip_split txt)
    as (before & after & Htxt & Hbefore & Hafter & Hhead & Hlast).
  split_and!.
  - intros c Hc Hspace.
    destruct (elem_of_sub_spaces false (sub_comments false definition_code) c)
      as [?|[_ ?]]; [|done|congruence].
    fold txt. rewrite Htxt. set_solver.
  - intros pre post Hd.
    apply (sub_spaces_no_double false (sub_comments false definition_code)
             (before ++ pre) (post ++ after)).
    fold txt. rewrite Htxt, Hd. by rewrite <- !app_assoc.
  - intros c [Hc|Hc]; [by apply Hhead|by apply Hlast].
  - rewrite <- (filter_sub_spaces false (sub_comments false definition_code)).
    fold txt. rewrite Htxt at 2. rewrite !filter_app.
    assert (∀ l, Forall (λ c, isspace c = true) l →
                 filter (λ c, isspace c = false) l = []) as Hnil.
    { induction 1 as [|x l Hx _ IH]; [done|].
      rewrite filter_cons, decide_False by congruence. done. }
    by rewrite (Hnil before), (Hnil after), app_nil_r.
Qed.


Lemma description_normal_form_witness :
  ∃ d, description example_statement None example_code = Ok d
    ∧ d = text_of "x = 1 + 2".
Proof.
  destruct (description_normal_form example_statement None example_code)
    as (d & Hd & _).
  - set_solver.
  - done.
  - exists d. split; [done|]. by injection Hd as <-.
Defined.

Lemma sub_comments_no_hash (before s : text) :
  "#"%char ∉ before →
  sub_comments false (before ++ s) = before ++ sub_comments false s.
Proof.
  induction before as [|c before IH]; intros Hhash; [done|].
  simpl. rewrite (bool_decide_false (c = "#"%char))
    by (intros ->; apply Hhash; left).
  simpl. f_equal. apply IH. intros ?. apply Hhash. by right.
Qed.

Lemma sub_comments_to_line_break (comment after : text) :
  LF ∉ comment →
  sub_comments true (comment ++ LF :: after) = sub_comments false after.
Proof.
  induction comment as [|c comment IH]; intros Hlf; simpl.
  - done.
  - rewrite bool_decide_false by (intros ->; apply Hlf; left).
    apply IH. intros ?. apply Hlf. by right.
Qed.

Lemma sub_comments_last_line (s : text) :
  LF ∉ s → sub_comments false s = s.
Proof.
  induction s as [|c s IH]; intros Hlf; [done|]. simpl.
  rewrite (bool_decide_false (LF ∈ s)) by (intros ?; apply Hlf; by right).
  rewrite andb_false_r. f_equal. apply IH. intros ?. apply Hlf. by right.
Qed.

(** X24 — A comment that a line break ends counts as one blank in the
    description of a statement, whereas a comment on the last line of the
    code, which no line break ends, stays in the description. *)
Theorem description_comment (self : BaseDefinition)
    (param_code : option text) (before comment after : text) :
  type self ∉ ["function"; "class"; "module"; "instance"; "param"] →
  tree_name (_name self) ≠ None →
  "#"%char ∉ before → comment ≠ [] → LF ∉ comment →
  description self param_code (before ++ "#"%char :: comment ++ LF :: after)
  = description self param_code (before ++ " "%char :: after)
  ∧ (∃ d, description self param_code (before ++ "#"%char :: comment) = Ok d
       ∧ ("#"%char ∈ d)).
Proof.
  intros Htype Htree Hhash Hne Hlf. unfold description.
  rewrite (bool_decide_false (type self ∈ _)) by set_solver.
  rewrite (bool_decide_false (tree_name _ = None)) by done.
  rewrite (bool_decide_false (type self = "param")) by set_solver.
  simpl. split.
  - do 3 f_equal. rewrite !sub_comments_no_hash by done. f_equal.
    destruct comment as [|c comment]; [done|].
    cbn [sub_comments app].
    rewrite bool_decide_true by done.
    rewrite (bool_decide_false (c = LF)) by (intros ->; apply Hlf; left).
    rewrite bool_decide_true by set_solver.
    cbn [andb negb]. f_equal.
    apply sub_comments_to_line_break. intros ?. apply Hlf. by right.
  - eexists. split; [done|].
    rewrite sub_comments_no_hash by done.
    rewrite (sub_comments_last_line ("#"%char :: comment))
      by (intros [?|?]%elem_of_cons; done).
    set (txt := sub_spaces false (before ++ "#"%char :: comment)).
    assert ("#"%char ∈ filter (λ c, isspace c = false) (strip txt)) as Hin.
    { destruct (strip_split txt)
        as (l & r & Htxt & Hl & Hr & _).
      assert (∀ k, Forall (λ c, isspace c = true) k →
                   filter (λ c, isspace c = false) k = []) as Hnil.
      { induction 1 as [|x k Hx _ IH]; [done|].
        rewrite filter_cons, decide_False by congruence. done. }
      assert (filter (λ c, isspace c = false) (strip txt)
              = filter (λ c, isspace c = false) txt) as ->.
      { rewrite Htxt at 2.
        by rewrite !filter_app, (Hnil l), (Hnil r), app_nil_r. }
      subst txt. rewrite filter_sub_spaces.
      apply list_elem_of_filter. split; [done|]. set_solver. }
    by apply list_elem_of_filter in Hin as [_ ?].
Qed.

Lemma description_comment_witness :
  description example_statement None example_code
  = description example_statement None
      (text_of "x = 1  " ++ " "%char :: text_of "    + 2").
Proof.
  refine (proj1 (description_comment example_statement None
                   (text_of "x = 1  ") (text_of " one") (text_of "    + 2")
                   _ _ _ _ _)).
  - set_solver.
  - done.
  - cbn. set_solver.
  - done.
  - cbn. set_solver.
Defined.

End DescriptionLaws.

(** * Properties of [BaseDefinition.infer] *)

Module InferLaws.
Import Compiled Conversion ConversionFacts ClassesInfer.
Local Open Scope nat_scope.

Section Laws.
Context {access : Type} `{Countable access} `{!Reflection access}.
Context {foreign : Type} `{Countable foreign}.
Context {NameDefinition : Type}.
Context `{!Engine access foreign NameDefinition}.
Implicit Types (c : Context access foreign) (n : NameDefinition).
Implicit Types (S : gset (Context access foreign)).





End Laws.


End InferLaws.
